(** * A shallow embedding of the XOR network engine (neural_net.h, xor_pointers.c,
      xor_unsafe.c)

    The C program is modelled by explicit state passing over a block-structured
    heap of [float] cells.  Every function of the source becomes a computation
    in a small state-and-error monad; a dereference outside the [malloc]ed
    buffer, of a freed buffer or of [NULL] is undefined behaviour in C and a
    [fault] here, as is a failed [NN_ASSERT].

    The scalar type [float] and its operations are an interface ([FloatOps]):
    the control flow of the engine never inspects a scalar, so every
    structural statement below holds for any interpretation of the arithmetic,
    IEEE-754 binary32 included.  The real numbers are one instance (exact
    arithmetic), used where a statement needs actual values.  Binary32 itself,
    as the Standard Library specifies it ([SpecFloat], round to nearest even),
    is another, used where a statement is about what rounding does; libm's
    [expf] is not part of IEEE-754 and is a parameter of that instance.

    Modelling notes.
    - [size_t] values are natural numbers; the two places where the
      source computes with them, the index [i * stride + j] of [MAT_AT] and
      the byte count of [mat_alloc], are taken modulo [2^64].
    - What [malloc] does with a request is the C library's business and a
      parameter of the allocation: either it returns [NULL], or it returns a
      fresh block, never one that was freed, whose indeterminate contents are
      part of the parameter.
    - The functions follow xor_pointers.c; xor_unsafe.c passes [Xor] by value,
      keeps the row count of [cost] in a [float] and has no [xor_free], and is
      otherwise the same text.  The four loop nests of [finite_diff] and of
      [xor_learn], which differ only in the matrix they name, are one helper
      each.
    - [rand()] is the C library's: [mat_rand] takes the sequence of numbers
      it returns as a parameter.
    - [mat_xavier_init] (whose bound is a [sqrt] in [double]), [mat_print] and
      [main] are not modelled: no statement below is about them. *)

From Stdlib Require Import Reals Lra ZArith NArith.
From Stdlib Require Import Floats.SpecFloat.
From stdpp Require Import gmap list.

(** ** Scalars *)

(** [float] with the operations the engine applies to it: the constants [0]
    and [1.f], [+ - * /], unary minus, libm's [expf], and the conversion
    [(float)n] of a [size_t]. *)
Class FloatOps (F : Type) := {
  fzero : F;
  fone : F;
  fadd : F -> F -> F;
  fsub : F -> F -> F;
  fmul : F -> F -> F;
  fdiv : F -> F -> F;
  fneg : F -> F;
  expf : F -> F;
  of_size : nat -> F
}.

(** The laws of exact arithmetic used to read an accumulation [((d + p0) + p1) + ...]
    as [d + (p0 + p1 + ...)].  Binary32 addition satisfies none of them in general
    (it rounds); the reals satisfy all. *)
Record ExactAdd (F : Type) {FO : FloatOps F} : Prop := {
  fadd_assoc : forall x y z : F, fadd (fadd x y) z = fadd x (fadd y z);
  fadd_zero_l : forall x : F, fadd fzero x = x;
  fadd_zero_r : forall x : F, fadd x fzero = x;
  fadd_cancel_r : forall x y : F, fadd x y = y -> x = fzero
}.

(** [expf] on the reals, kept behind a seal so that evaluating a network does
    not unfold the power series. *)
Definition Rexp_def : R -> R := exp.
Definition Rexp_aux : seal (@Rexp_def).
Proof. by eexists. Qed.
Definition Rexp : R -> R := Rexp_aux.(unseal).
Definition Rexp_unseal : Rexp = exp := Rexp_aux.(seal_eq).

#[export] Instance R_FloatOps : FloatOps R := {
  fzero := 0%R;
  fone := 1%R;
  fadd := Rplus;
  fsub := Rminus;
  fmul := Rmult;
  fdiv := Rdiv;
  fneg := Ropp;
  expf := Rexp;
  of_size := INR
}.

(** [float] as the machine has it: IEEE-754 binary32 ([24] bits of precision,
    infinities at exponent [128]), every operation rounded to nearest, ties
    to even.  [expf32] stands for libm's [expf]. *)
Definition binary32 (expf32 : spec_float -> spec_float) : FloatOps spec_float := {|
  fzero := S754_zero false;
  fone := SFone 24 128;
  fadd := SFadd 24 128;
  fsub := SFsub 24 128;
  fmul := SFmul 24 128;
  fdiv := SFdiv 24 128;
  fneg := SFopp;
  expf := expf32;
  of_size := fun n => binary_normalize 24 128 (Z.of_nat n) 0 false
|}.

(** The binary32 number nearest to the integer [z]. *)
Definition b32 (z : Z) : spec_float := binary_normalize 24 128 z 0 false.


(** ** Memory *)

(** A [float *]: a block (one [malloc], or one static array such as [td]) and
    an element offset into it.  [NULL] is [None] at the use sites. *)
Record ptr := Ptr { blk : nat; off : nat }.

(** What goes wrong: a failed [NN_ASSERT] aborts; the other three are
    undefined behaviour in C. *)
Inductive fault :=
| AssertFailed     (* NN_ASSERT(cond) with cond false *)
| OutOfBounds      (* element access past the end of its block *)
| DeadBlock        (* access through NULL, or to a freed or unallocated block *)
| BadFree.         (* free of a pointer that is not a live malloc result *)

Inductive result (A : Type) :=
| Ok (a : A)
| Err (e : fault).
Arguments Ok {A} a.
Arguments Err {A} e.

(** typedef struct { size_t rows; size_t cols; size_t stride; float *es; } Mat; *)
Record Mat := mkMat {
  rows : nat;
  cols : nat;
  stride : nat;
  es : option ptr
}.

(** typedef struct { Mat a0, a1, a2; Mat w1, b1; Mat w2, b2; int owns_matrices; } Xor; *)
Record Xor := mkXor {
  a0 : Mat; a1 : Mat; a2 : Mat;
  w1 : Mat; b1 : Mat;
  w2 : Mat; b2 : Mat;
  owns_matrices : Z
}.

Declare Scope c_scope.
Delimit Scope c_scope with C.

Section Engine.
Context {F : Type} {FO : FloatOps F}.

(** The heap: block id to its cells; [Some None] is a block that was freed,
    an absent id one that was never allocated. *)
Abbreviation heap := (gmap nat (option (list F))).

(** A C statement or expression: runs on a heap, and either faults or yields a
    value and the heap it leaves. *)
Definition M (A : Type) : Type := heap -> result (A * heap).

Definition ret {A} (a : A) : M A := fun h => Ok (a, h).

Definition bind {A B} (c : M A) (k : A -> M B) : M B := fun h =>
  match c h with
  | Ok (a, h') => k a h'
  | Err e => Err e
  end.

Definition raise {A} (e : fault) : M A := fun _ => Err e.

Notation "x <- c ;; k" := (bind c (fun x => k))
  (at level 100, c at next level, right associativity) : c_scope.
Notation "c ;; k" := (bind c (fun _ => k))
  (at level 100, right associativity) : c_scope.
Local Open Scope c_scope.

(** NN_ASSERT(cond) *)
Definition NN_ASSERT (cond : bool) : M unit :=
  if cond then ret tt else raise AssertFailed.

(** [p[k]] as an rvalue *)
Definition load (p : option ptr) (k : nat) : M F := fun h =>
  match p with
  | None => Err DeadBlock
  | Some q =>
    match h !! blk q with
    | Some (Some cells) =>
      match cells !! (off q + k) with
      | Some v => Ok (v, h)
      | None => Err OutOfBounds
      end
    | _ => Err DeadBlock
    end
  end.

(** [p[k] = v] *)
Definition store (p : option ptr) (k : nat) (v : F) : M unit := fun h =>
  match p with
  | None => Err DeadBlock
  | Some q =>
    match h !! blk q with
    | Some (Some cells) =>
      if decide (off q + k < length cells)
      then Ok (tt, <[blk q := Some (<[off q + k := v]> cells)]> h)
      else Err OutOfBounds
    | _ => Err DeadBlock
    end
  end.

(** [malloc(sizeof(float) * n)].  What the allocator does with the request is
    [grant]: [None] when it returns [NULL]; [Some junk] when it returns a fresh
    block of [n] cells.  Their contents are indeterminate in C; [junk] stands
    for whatever they happen to hold. *)
Definition malloc (n : nat) (grant : option (nat -> F)) : M (option ptr) := fun h =>
  match grant with
  | None => Ok (None, h)
  | Some junk =>
    let b := fresh (dom h) in
    Ok (Some (Ptr b 0), <[b := Some (junk <$> seq 0 n)]> h)
  end.

(** [free(p)] for [p != NULL]: [p] must be what [malloc] returned, not yet freed. *)
Definition free (q : ptr) : M unit := fun h =>
  match h !! blk q with
  | Some (Some _) =>
    if decide (off q = 0) then Ok (tt, <[blk q := None]> h) else Err BadFree
  | _ => Err BadFree
  end.

(** [for (size_t i = 0; i < n; ++i) body] over the values [i] takes, in order *)
Fixpoint for_each (l : list nat) (body : nat -> M unit) : M unit :=
  match l with
  | [] => ret tt
  | i :: l' => body i ;; for_each l' body
  end.

Definition for_range (n : nat) (body : nat -> M unit) : M unit :=
  for_each (seq 0 n) body.

(** the same loop when its body updates a local variable declared outside it *)
Fixpoint fold_each {A} (l : list nat) (body : nat -> A -> M A) (acc : A) : M A :=
  match l with
  | [] => ret acc
  | i :: l' => acc' <- body i acc ;; fold_each l' body acc'
  end.

Definition fold_range {A} (n : nat) (body : nat -> A -> M A) (acc : A) : M A :=
  fold_each (seq 0 n) body acc.

(** ** neural_net.h *)

(** #define MAT_AT(m, i, j) (m).es[(i)*(m).stride + (j)]

    The index, computed in [size_t]: modulo [2^64]. *)
Definition MAT_AT (m : Mat) (i j : nat) : nat :=
  N.to_nat ((N.of_nat i * N.of_nat (stride m) + N.of_nat j) mod 2 ^ 64)%N.

Definition mat_get (m : Mat) (i j : nat) : M F := load (es m) (MAT_AT m i j).
Definition mat_set (m : Mat) (i j : nat) (v : F) : M unit := store (es m) (MAT_AT m i j) v.

(** return 1.f / (1.f + expf(-x)); *)
Definition sigmoidf (x : F) : F := fdiv fone (fadd fone (expf (fneg x))).

(** m.es = NN_MALLOC(sizeof( *m.es) * rows * cols); NN_ASSERT(m.es != NULL);

    The byte count is computed in [size_t], and [sizeof(float)] is [4]. *)
Definition mat_alloc (r c : nat) (grant : option (nat -> F)) : M Mat :=
  p <- malloc (N.to_nat (((4 * N.of_nat r * N.of_nat c) mod 2 ^ 64) / 4)%N) grant ;;
  NN_ASSERT (bool_decide (p <> None)) ;;
  ret (mkMat r c c p).

(** if (m->es) { free(m->es); m->es = NULL; }  m->rows = m->cols = m->stride = 0; *)
Definition mat_free (m : Mat) : M Mat :=
  match es m with
  | Some q => free q ;; ret (mkMat 0 0 0 None)
  | None => ret (mkMat 0 0 0 None)
  end.

Definition mat_fill (m : Mat) (x : F) : M unit :=
  for_range (rows m) (fun i =>
    for_range (cols m) (fun j =>
      mat_set m i j x)).

Definition mat_sum (dst a : Mat) : M unit :=
  NN_ASSERT (rows dst =? rows a) ;;
  NN_ASSERT (cols dst =? cols a) ;;
  for_range (rows dst) (fun i =>
    for_range (cols dst) (fun j =>
      d <- mat_get dst i j ;;
      x <- mat_get a i j ;;
      mat_set dst i j (fadd d x))).

Definition mat_sig (m : Mat) : M unit :=
  for_range (rows m) (fun i =>
    for_range (cols m) (fun j =>
      x <- mat_get m i j ;;
      mat_set m i j (sigmoidf x))).

Definition mat_dot (dst a b : Mat) : M unit :=
  NN_ASSERT (cols a =? rows b) ;;
  let n := cols a in
  NN_ASSERT (rows dst =? rows a) ;;
  NN_ASSERT (cols dst =? cols b) ;;
  for_range (rows dst) (fun i =>
    for_range (cols dst) (fun j =>
      for_range n (fun k =>
        d <- mat_get dst i j ;;
        x <- mat_get a i k ;;
        y <- mat_get b k j ;;
        mat_set dst i j (fadd d (fmul x y))))).

(** .rows = 1, .cols = m.cols, .stride = m.stride, .es = &MAT_AT(m, row, 0) *)
Definition mat_row (m : Mat) (row : nat) : Mat :=
  mkMat 1 (cols m) (stride m)
    (match es m with
     | Some q => Some (Ptr (blk q) (off q + MAT_AT m row 0))
     | None => None
     end).

Definition mat_copy (dst src : Mat) : M unit :=
  NN_ASSERT (rows dst =? rows src) ;;
  NN_ASSERT (cols dst =? cols src) ;;
  for_range (rows dst) (fun i =>
    for_range (cols dst) (fun j =>
      x <- mat_get src i j ;;
      mat_set dst i j x)).

(** return (float) rand() / (float) RAND_MAX;

    [r] is what [rand()] returned, [rand_max] the constant [RAND_MAX] of the
    C library. *)
Definition rand_float (rand_max r : nat) : F := fdiv (of_size r) (of_size rand_max).

(** MAT_AT(m, i, j) = rand_float() * (high - low) + low;  for every element.

    The generator is the C library's: [rnd k] stands for what its [k]-th call
    returns, and the loops thread the number of calls made so far, which the
    function returns. *)
Definition mat_rand (rand_max : nat) (rnd : nat -> nat) (m : Mat) (low high : F) (k : nat)
    : M nat :=
  fold_range (rows m) (fun i k =>
    fold_range (cols m) (fun j k =>
      mat_set m i j (fadd (fmul (rand_float rand_max (rnd k)) (fsub high low)) low) ;;
      ret (S k)) k) k.

(** ** xor_pointers.c / xor_unsafe.c *)

(** The indeterminate contents of the seven buffers [xor_alloc] obtains. *)
Record XorJunk := mkXorJunk {
  j_a0 : nat -> F; j_w1 : nat -> F; j_b1 : nat -> F; j_a1 : nat -> F;
  j_w2 : nat -> F; j_b2 : nat -> F; j_a2 : nat -> F
}.

(** What [malloc] does at each of the seven allocations of [xor_alloc]. *)
Record XorGrants := mkXorGrants {
  g_a0 : option (nat -> F); g_w1 : option (nat -> F); g_b1 : option (nat -> F);
  g_a1 : option (nat -> F); g_w2 : option (nat -> F); g_b2 : option (nat -> F);
  g_a2 : option (nat -> F)
}.

(** The run on which [malloc] grants all seven requests. *)
Definition granted (junk : XorJunk) : XorGrants :=
  mkXorGrants (Some (j_a0 junk)) (Some (j_w1 junk)) (Some (j_b1 junk)) (Some (j_a1 junk))
              (Some (j_w2 junk)) (Some (j_b2 junk)) (Some (j_a2 junk)).

Definition xor_alloc (gr : XorGrants) : M Xor :=
  m_a0 <- mat_alloc 1 2 (g_a0 gr) ;;
  m_w1 <- mat_alloc 2 2 (g_w1 gr) ;;
  m_b1 <- mat_alloc 1 2 (g_b1 gr) ;;
  m_a1 <- mat_alloc 1 2 (g_a1 gr) ;;
  m_w2 <- mat_alloc 2 1 (g_w2 gr) ;;
  m_b2 <- mat_alloc 1 1 (g_b2 gr) ;;
  m_a2 <- mat_alloc 1 1 (g_a2 gr) ;;
  ret (mkXor m_a0 m_a1 m_a2 m_w1 m_b1 m_w2 m_b2 1).

Definition xor_free (m : Xor) : M Xor :=
  if bool_decide (owns_matrices m <> 0%Z) then
    f_a0 <- mat_free (a0 m) ;;
    f_a1 <- mat_free (a1 m) ;;
    f_a2 <- mat_free (a2 m) ;;
    f_w1 <- mat_free (w1 m) ;;
    f_b1 <- mat_free (b1 m) ;;
    f_w2 <- mat_free (w2 m) ;;
    f_b2 <- mat_free (b2 m) ;;
    ret (mkXor f_a0 f_a1 f_a2 f_w1 f_b1 f_w2 f_b2 0)
  else
    ret (mkXor (a0 m) (a1 m) (a2 m) (w1 m) (b1 m) (w2 m) (b2 m) 0).

Definition forward_xor (m : Xor) : M unit :=
  mat_dot (a1 m) (a0 m) (w1 m) ;;
  mat_sum (a1 m) (b1 m) ;;
  mat_sig (a1 m) ;;
  mat_dot (a2 m) (a1 m) (w2 m) ;;
  mat_sum (a2 m) (b2 m) ;;
  mat_sig (a2 m).

Definition cost (m : Xor) (ti to : Mat) : M F :=
  NN_ASSERT (rows ti =? rows to) ;;
  NN_ASSERT (cols to =? cols (a2 m)) ;;
  NN_ASSERT (cols ti =? cols (a0 m)) ;;
  let n := rows ti in
  c <- fold_range n (fun i c =>
         let x := mat_row ti i in
         let y := mat_row to i in
         mat_copy (a0 m) x ;;
         forward_xor m ;;
         let q := cols to in
         fold_range q (fun j c =>
           o <- mat_get (a2 m) 0 j ;;
           e <- mat_get y 0 j ;;
           let d := fsub o e in
           ret (fadd c (fmul d d))) c) fzero ;;
  ret (fdiv c (of_size n)).

(** One of the four loop nests of [finite_diff]; they differ only in the
    matrix ([w1], [b1], [w2], [b2]) they run over.  As in the source, [i]
    runs to [cols] and [j] to [rows]. *)
Definition finite_diff_slots (m : Xor) (pm pg : Mat) (ti to : Mat) (eps c : F) : M unit :=
  for_range (cols pm) (fun i =>
    for_range (rows pm) (fun j =>
      saved <- mat_get pm i j ;;
      mat_set pm i j (fadd saved eps) ;;
      c1 <- cost m ti to ;;
      mat_set pg i j (fdiv (fsub c1 c) eps) ;;
      mat_set pm i j saved)).

Definition finite_diff (m g : Xor) (ti to : Mat) (eps : F) : M unit :=
  c <- cost m ti to ;;
  finite_diff_slots m (w1 m) (w1 g) ti to eps c ;;
  finite_diff_slots m (b1 m) (b1 g) ti to eps c ;;
  finite_diff_slots m (w2 m) (w2 g) ti to eps c ;;
  finite_diff_slots m (b2 m) (b2 g) ti to eps c.

(** One of the four loop nests of [xor_learn]. *)
Definition xor_learn_slots (pm pg : Mat) (rate : F) : M unit :=
  for_range (cols pm) (fun i =>
    for_range (rows pm) (fun j =>
      p <- mat_get pm i j ;;
      gr <- mat_get pg i j ;;
      mat_set pm i j (fsub p (fmul rate gr)))).

Definition xor_learn (m g : Xor) (rate : F) : M unit :=
  xor_learn_slots (w1 m) (w1 g) rate ;;
  xor_learn_slots (b1 m) (b1 g) rate ;;
  xor_learn_slots (w2 m) (w2 g) rate ;;
  xor_learn_slots (b2 m) (b2 g) rate.

End Engine.
Local Open Scope c_scope.

Arguments M F A : clear implicits.

Notation "x <- c ;; k" := (bind c (fun x => k))
  (at level 100, c at next level, right associativity) : c_scope.
Notation "c ;; k" := (bind c (fun _ => k))
  (at level 100, right associativity) : c_scope.

(** ** Vocabulary of the statements *)

Section Vocabulary.
Context {F : Type} {FO : FloatOps F}.
Abbreviation heap := (gmap nat (option (list F))).

(** The cell at absolute position [a = (block, index)], when it exists. *)
Definition cell_at (h : heap) (a : nat * nat) : option F :=
  match h !! a.1 with
  | Some (Some cells) => cells !! a.2
  | _ => None
  end.

(** The position [MAT_AT(m, i, j)] designates. *)
Definition addr (m : Mat) (i j : nat) : option (nat * nat) :=
  match es m with
  | Some q => Some (blk q, off q + MAT_AT m i j)
  | None => None
  end.

(** The value of [MAT_AT(m, i, j)] in [h]. *)
Definition mat_cell (h : heap) (m : Mat) (i j : nat) : option F :=
  match addr m i j with
  | Some a => cell_at h a
  | None => None
  end.

(** [m] holds the entries [V i j] in [h]; in particular every element
    [0 <= i < rows], [0 <= j < cols] of [m] can be accessed. *)
Definition reads (h : heap) (m : Mat) (V : nat -> nat -> F) : Prop :=
  forall i j, i < rows m -> j < cols m -> mat_cell h m i j = Some (V i j).

(** The positions of the elements of [m]. *)
Definition cells_of (m : Mat) (a : nat * nat) : Prop :=
  exists i j, i < rows m /\ j < cols m /\ addr m i j = Some a.

(** The row-major layout of the data model: [stride >= cols], and the
    [rows * stride] indices of the matrix are within the range of [size_t], so
    that distinct elements have distinct indices. *)
Definition well_strided (m : Mat) : Prop :=
  cols m <= stride m /\ (N.of_nat (rows m * stride m) <= 2 ^ 64)%N.

(** [m1] and [m2] share no element. *)
Definition separate (m1 m2 : Mat) : Prop :=
  forall a, cells_of m1 a -> ~ cells_of m2 a.

(** Every element [0 <= i < rows], [0 <= j < cols] of [m] is a cell of a live
    block: the matrix access precondition of the data model. *)
Definition accessible (h : heap) (m : Mat) : Prop :=
  forall i j, i < rows m -> j < cols m -> is_Some (mat_cell h m i j).

(** [h] and [h'] have the same cells (with possibly different contents). *)
Definition same_shape (h h' : heap) : Prop :=
  forall a, is_Some (cell_at h' a) <-> is_Some (cell_at h a).

(** [h'] is [h] except, possibly, on the elements of [m]. *)
Definition same_outside (m : Mat) (h h' : heap) : Prop :=
  forall a, ~ cells_of m a -> cell_at h' a = cell_at h a.

(** The blocks [P] hold in [h'] exactly what they hold in [h]. *)
Definition unchanged_on (P : nat -> Prop) (h h' : heap) : Prop :=
  forall b, P b -> h' !! b = h !! b.

(** [c] changes nothing in the blocks [P], whenever it returns. *)
Definition writes_outside {A} (P : nat -> Prop) (c : M F A) : Prop :=
  forall h x h', c h = Ok (x, h') -> unchanged_on P h h'.

(** The buffer of [m] is none of the blocks [P]. *)
Definition mat_avoids (P : nat -> Prop) (m : Mat) : Prop :=
  forall q, es m = Some q -> ~ P (blk q).

(** [b] is the block of one of the trainable matrices [w1], [b1], [w2], [b2]. *)
Definition param_block (m : Xor) (b : nat) : Prop :=
  exists pm q, pm ∈ [w1 m; b1 m; w2 m; b2 m] /\ es pm = Some q /\ blk q = b.

(** [c] never fails an assertion. *)
Definition no_abort {A} (c : M F A) : Prop := forall h, c h <> Err AssertFailed.

(** What [c] returns when run from [h], the final heap dropped. *)
Definition eval {A} (c : M F A) (h : heap) : result A :=
  match c h with
  | Ok (x, _) => Ok x
  | Err e => Err e
  end.

(** [c] runs from [h] without a fault. *)
Definition succeeds {A} (c : M F A) (h : heap) : bool :=
  match c h with
  | Ok _ => true
  | Err _ => false
  end.

(** An owning matrix: [es] is what [malloc] returned, and not yet freed. *)
Definition owns_buffer (h : heap) (m : Mat) : Prop :=
  exists b cells, es m = Some (Ptr b 0) /\ h !! b = Some (Some cells).

(** What the [k] loop of [mat_dot] leaves in [dst[i][j]] when it started from
    [d]: the terms [a[i][k] * b[k][j]] added to [d] one after the other. *)
Definition dot_acc (A B : nat -> nat -> F) (n i j : nat) (d : F) : F :=
  fold_left (fun acc k => fadd acc (fmul (A i k) (B k j))) (seq 0 n) d.

(** The dense product entry [sum_k a[i][k] * b[k][j]], summed from [0]. *)
Definition dot_product (A B : nat -> nat -> F) (n i j : nat) : F :=
  dot_acc A B n i j fzero.

End Vocabulary.

Section Layers.
Context {F : Type} {FO : FloatOps F}.

(** The entry [MAT_AT(m, i, j)] of [h] ([0] where there is none). *)
Definition entry (h : gmap nat (option (list F))) (m : Mat) (i j : nat) : F :=
  default fzero (mat_cell h m i j).

(** What one layer of [forward_xor] ([mat_dot]; [mat_sum]; [mat_sig]) leaves
    in its destination: input [A], weights [W], bias [B], and [X] what the
    destination held before. *)
Definition layer (A W B : nat -> nat -> F) (n : nat) (X : nat -> nat -> F) (i j : nat) : F :=
  sigmoidf (fadd (dot_acc A W n i j (X i j)) (B i j)).

End Layers.

(** The shapes of a network fit its forward pass: what the assertions of
    [mat_dot] and [mat_sum] check along [forward_xor]. *)
Record net_shapes (m : Xor) : Prop := {
  sh_dot1 : cols (a0 m) = rows (w1 m) /\ rows (a1 m) = rows (a0 m) /\ cols (a1 m) = cols (w1 m);
  sh_sum1 : rows (a1 m) = rows (b1 m) /\ cols (a1 m) = cols (b1 m);
  sh_dot2 : cols (a1 m) = rows (w2 m) /\ rows (a2 m) = rows (a1 m) /\ cols (a2 m) = cols (w2 m);
  sh_sum2 : rows (a2 m) = rows (b2 m) /\ cols (a2 m) = cols (b2 m)
}.

(** The shapes fit, the two written activation matrices are laid out
    row-major, and neither shares a cell with any other matrix of the
    network. *)
Record net_wf (m : Xor) : Prop := {
  wf_shapes : net_shapes m;
  wf_stride1 : well_strided (a1 m);
  wf_stride2 : well_strided (a2 m);
  wf_sep1 : Forall (separate (a1 m)) [a0 m; w1 m; b1 m; w2 m; b2 m; a2 m];
  wf_sep2 : Forall (separate (a2 m)) [a0 m; w1 m; b1 m; w2 m; b2 m; a1 m]
}.

Section Readiness.
Context {F : Type} {FO : FloatOps F}.

(** The cells a loop nest of [finite_diff] or [xor_learn] over [pm] touches in
    [pm] and in the gradient matrix [pg]: [MAT_AT(.., i, j)] for [i < pm.cols]
    and [j < pm.rows]. *)
Definition slots_accessible (h : gmap nat (option (list F))) (pm pg : Mat) : Prop :=
  forall i j, i < cols pm -> j < rows pm ->
    is_Some (mat_cell h pm i j) /\ is_Some (mat_cell h pg i j).

(** Every assertion of [cost] holds and every cell [cost] touches exists:
    the training set is two row-major matrices of as many rows, fitting the
    one-row input and the output of a network whose shapes fit. *)
Record cost_ready (h : gmap nat (option (list F))) (m : Xor) (ti to : Mat) : Prop := {
  cr_shapes : net_shapes m;
  cr_one_row : rows (a0 m) = 1;
  cr_rows : rows ti = rows to;
  cr_out : cols to = cols (a2 m);
  cr_in : cols ti = cols (a0 m);
  cr_net : Forall (accessible h) [a0 m; a1 m; a2 m; w1 m; b1 m; w2 m; b2 m];
  cr_ti : accessible h ti /\ well_strided ti;
  cr_to : accessible h to /\ well_strided to
}.

(** Every cell [finite_diff] touches exists. *)
Record finite_diff_ready (h : gmap nat (option (list F))) (m g : Xor) (ti to : Mat) : Prop := {
  fr_cost : cost_ready h m ti to;
  fr_w1 : slots_accessible h (w1 m) (w1 g);
  fr_b1 : slots_accessible h (b1 m) (b1 g);
  fr_w2 : slots_accessible h (w2 m) (w2 g);
  fr_b2 : slots_accessible h (b2 m) (b2 g)
}.

End Readiness.

(** ** The program's data *)

(** The matrices of a network, in the order [xor_free] releases them. *)
Definition xor_mats (m : Xor) : list Mat := [a0 m; a1 m; a2 m; w1 m; b1 m; w2 m; b2 m].

(** The block a matrix points into ([0] for [NULL]). *)
Definition mat_block (m : Mat) : nat := from_option blk 0 (es m).

(** [Mat ti = { .rows = n, .cols = 2, .stride = 3, .es = td }] and
    [Mat to = { .rows = n, .cols = 1, .stride = 3, .es = td + 2 }] of [main],
    with [n = 4] and the static array [td] as block [0]. *)
Definition ti : Mat := mkMat 4 2 3 (Some (Ptr 0 0)).
Definition to : Mat := mkMat 4 1 3 (Some (Ptr 0 2)).

(** ** What [cost] and a loop nest of [finite_diff] are to compute *)

Section Reference.
Context {F : Type} {FO : FloatOps F}.

(** What a loop nest of [finite_diff] over [pm] is to leave in the gradient
    slot [pg[i][j]]: [(c1 - c) / eps], for [c1] the value [cost] returns on a
    heap [hp] in which [pm] holds [P] with [eps] added at [(i, j)] and nowhere
    else, and every block but those of the activations, of [pg] and of [pm]
    is as in [h]. *)
Definition finite_difference (m : Xor) (pm pg ti to : Mat) (eps c : F)
    (h : gmap nat (option (list F))) (P : nat -> nat -> F) (i j : nat) (v : option F) : Prop :=
  exists hp c1 hq,
    (forall i' j', i' < rows pm -> j' < cols pm ->
       mat_cell hp pm i' j'
       = Some (if decide (i' = i /\ j' = j) then fadd (P i j) eps else P i' j')) /\
    (forall bk, bk ∉ mat_block <$> [a0 m; a1 m; a2 m; pg; pm] -> hp !! bk = h !! bk) /\
    cost m ti to hp = Ok (c1, hq) /\
    v = Some (fdiv (fsub c1 c) eps).

(** The inner loop of [cost]: the squared differences of one output row [Y]
    and one expected row [T], added to [c] column by column. *)
Definition row_error (Y T : nat -> F) (q : nat) (c : F) : F :=
  fold_left (fun acc j => fadd acc (fmul (fsub (Y j) (T j)) (fsub (Y j) (T j)))) (seq 0 q) c.

(** The outer loop of [cost] over the training rows [l], as a function of
    what the matrices hold: the parameters [W1 B1 W2 B2], the training data
    [TI TO], and the activations [X1 X2] left by whatever ran before. *)
Fixpoint cost_rows (W1 B1 W2 B2 TI TO : nat -> nat -> F) (n0 n1 q : nat)
    (l : list nat) (X1 X2 : nat -> nat -> F) (c : F) : F :=
  match l with
  | [] => c
  | i :: l' =>
    let Y1 := layer (fun _ k => TI i k) W1 B1 n0 X1 in
    let Y2 := layer Y1 W2 B2 n1 X2 in
    cost_rows W1 B1 W2 B2 TI TO n0 n1 q l' Y1 Y2 (row_error (Y2 0) (TO i) q c)
  end.


(** The activations [a0], [a1], [a2] lie in three different blocks, and none
    of these holds a parameter or training data. *)
Definition activations_apart (m : Xor) (ti to : Mat) : Prop :=
  NoDup (mat_block <$> [a0 m; a1 m; a2 m]) /\
  Forall (fun mt => mat_block mt ∉ mat_block <$> [a0 m; a1 m; a2 m])
         [w1 m; b1 m; w2 m; b2 m; ti; to].

End Reference.

(** ** The program's data, over a scalar type *)

Section Data.
Context {F : Type} {FO : FloatOps F}.

(** float td[] = { 0, 0, 0,  0, 1, 1,  1, 0, 1,  1, 1, 0 }; *)
Definition td : list F :=
  [fzero; fzero; fzero;  fzero; fone; fone;  fone; fzero; fone;  fone; fone; fzero].

(** The heap [main] starts from: [td] and nothing else. *)
Definition td_heap : gmap nat (option (list F)) := {[ 0 := Some td ]}.

(** [Xor m = xor_alloc(); Xor g = xor_alloc();] of [main], on a run where
    [malloc] grants all fourteen requests.  Whatever [mat_xavier_init] and
    [mat_rand] then store in [m] is one more choice of the arbitrary contents
    [jm]. *)
Definition main_alloc (jm jg : XorJunk) : M F (Xor * Xor) :=
  m <- xor_alloc (granted jm) ;;
  g <- xor_alloc (granted jg) ;;
  ret (m, g).

(** [xor_alloc] under an allocator that grants every request and rounds the
    8-byte request for [b1] up by one [float], as allocators with a 16-byte
    granule do: the same network, with one spare cell after [b1]. *)
Definition xor_alloc_padded (junk : XorJunk) : M F Xor :=
  m_a0 <- mat_alloc 1 2 (Some (j_a0 junk)) ;;
  m_w1 <- mat_alloc 2 2 (Some (j_w1 junk)) ;;
  p_b1 <- malloc 3 (Some (j_b1 junk)) ;;
  m_a1 <- mat_alloc 1 2 (Some (j_a1 junk)) ;;
  m_w2 <- mat_alloc 2 1 (Some (j_w2 junk)) ;;
  m_b2 <- mat_alloc 1 1 (Some (j_b2 junk)) ;;
  m_a2 <- mat_alloc 1 1 (Some (j_a2 junk)) ;;
  ret (mkXor m_a0 m_a1 m_a2 m_w1 (mkMat 1 2 2 p_b1) m_w2 m_b2 1).

Definition main_alloc_padded (jm jg : XorJunk) : M F (Xor * Xor) :=
  m <- xor_alloc_padded jm ;;
  g <- xor_alloc_padded jg ;;
  ret (m, g).

(** Buffers that happen to hold zeros. *)
Definition zero_junk : XorJunk :=
  mkXorJunk (fun _ => fzero) (fun _ => fzero) (fun _ => fzero) (fun _ => fzero)
            (fun _ => fzero) (fun _ => fzero) (fun _ => fzero).

(** Clearing the two activation buffers [mat_dot] accumulates into. *)
Definition reset_activations (m : Xor) : M F unit :=
  mat_fill (a1 m) fzero ;;
  mat_fill (a2 m) fzero.

End Data.

(** Three small matrices over the reals, each in a block of its own:
    [ex_dst = [5]], [ex_a = [2 3]], [ex_b = [4; 6]]. *)
Definition ex_dst : Mat := mkMat 1 1 1 (Some (Ptr 0 0)).
Definition ex_a : Mat := mkMat 1 2 2 (Some (Ptr 1 0)).
Definition ex_b : Mat := mkMat 2 1 1 (Some (Ptr 2 0)).
Definition ex_heap : gmap nat (option (list R)) :=
  {[ 0 := Some [5%R]; 1 := Some [2%R; 3%R]; 2 := Some [4%R; 6%R] ]}.

(** [ex_c = [4 6]]: the cells of [ex_b], read as one row. *)
Definition ex_c : Mat := mkMat 1 2 2 (Some (Ptr 2 0)).

(** The networks [m] and [g] as [main] has them after its two [xor_alloc]
    calls (blocks [1] to [7] and [8] to [14], in allocation order [a0], [w1],
    [b1], [a1], [w2], [b2], [a2]), with [td] as block [0]; and heaps in which
    the buffers hold some values. *)
Definition ex_net : Xor :=
  mkXor (mkMat 1 2 2 (Some (Ptr 1 0))) (mkMat 1 2 2 (Some (Ptr 4 0)))
        (mkMat 1 1 1 (Some (Ptr 7 0)))
        (mkMat 2 2 2 (Some (Ptr 2 0))) (mkMat 1 2 2 (Some (Ptr 3 0)))
        (mkMat 2 1 1 (Some (Ptr 5 0))) (mkMat 1 1 1 (Some (Ptr 6 0))) 1.
Definition ex_grad : Xor :=
  mkXor (mkMat 1 2 2 (Some (Ptr 8 0))) (mkMat 1 2 2 (Some (Ptr 11 0)))
        (mkMat 1 1 1 (Some (Ptr 14 0)))
        (mkMat 2 2 2 (Some (Ptr 9 0))) (mkMat 1 2 2 (Some (Ptr 10 0)))
        (mkMat 2 1 1 (Some (Ptr 12 0))) (mkMat 1 1 1 (Some (Ptr 13 0))) 1.
Definition ex_net_heap : gmap nat (option (list R)) :=
  {[ 0 := Some td;
     1 := Some [1%R; 0%R]; 2 := Some [1%R; 2%R; 3%R; 4%R]; 3 := Some [5%R; 6%R];
     4 := Some [0%R; 0%R]; 5 := Some [7%R; 8%R]; 6 := Some [9%R]; 7 := Some [0%R] ]}.
Definition ex_train_heap : gmap nat (option (list R)) :=
  ex_net_heap ∪
  {[ 8 := Some [0%R; 0%R]; 9 := Some [1%R; 1%R; 1%R; 1%R]; 10 := Some [1%R; 1%R];
     11 := Some [0%R; 0%R]; 12 := Some [1%R; 1%R]; 13 := Some [1%R]; 14 := Some [0%R] ]}.

(** Matrices of binary32 numbers.  [sq32] is a [2 x 2] matrix of ones; the
    other three heaps are for [ex_dst], [ex_a], [ex_b]: [ex_a = [1 1]] and
    [ex_b = [1; 1]] with [ex_dst = [2^24]], and with [ex_dst = [2^-30]]. *)
Definition sq32 : Mat := mkMat 2 2 2 (Some (Ptr 0 0)).
Definition sq32_heap : gmap nat (option (list spec_float)) :=
  {[ 0 := Some [b32 1; b32 1; b32 1; b32 1] ]}.
Definition big32_heap : gmap nat (option (list spec_float)) :=
  {[ 0 := Some [b32 16777216]; 1 := Some [b32 1; b32 1]; 2 := Some [b32 1; b32 1] ]}.
Definition tiny32_heap : gmap nat (option (list spec_float)) :=
  {[ 0 := Some [S754_finite false 8388608 (-53)];
     1 := Some [b32 1; b32 1]; 2 := Some [b32 1; b32 1] ]}.


(** * Proofs *)

Section Basics.
Context {F : Type} {FO : FloatOps F}.
Implicit Types (h : gmap nat (option (list F))) (m : Mat) (a : nat * nat).

(** ** The monad *)

Lemma bind_ok {A B} (c : M F A) (k : A -> M F B) h x h' :
  c h = Ok (x, h') -> bind c k h = k x h'.
Proof. unfold bind. by intros ->. Qed.

Lemma bind_err {A B} (c : M F A) (k : A -> M F B) h e :
  c h = Err e -> bind c k h = Err e.
Proof. unfold bind. by intros ->. Qed.

Lemma bind_inv {A B} (c : M F A) (k : A -> M F B) h y h2 :
  bind c k h = Ok (y, h2) ->
  exists x h1, c h = Ok (x, h1) /\ k x h1 = Ok (y, h2).
Proof.
  unfold bind. destruct (c h) as [[x h1]|e]; [|done]. eauto.
Qed.

Lemma assert_true (cond : bool) h : cond = true -> NN_ASSERT cond h = Ok (tt, h).
Proof. by intros ->. Qed.

Lemma assert_false (cond : bool) h : cond = false -> NN_ASSERT cond h = Err AssertFailed.
Proof. by intros ->. Qed.

Lemma assert_inv (cond : bool) h u h' :
  NN_ASSERT cond h = Ok (u, h') -> cond = true /\ h' = h.
Proof. destruct cond; cbn; [|done]. unfold ret. by intros [= _ ->]. Qed.

(** ** Loads and stores *)

Lemma load_ok q k h v :
  cell_at h (blk q, off q + k) = Some v -> load (Some q) k h = Ok (v, h).
Proof.
  unfold cell_at, load; cbn. destruct (h !! blk q) as [[cells|]|]; [|done..].
  by intros ->.
Qed.

Lemma load_inv p k h v h' :
  load p k h = Ok (v, h') ->
  h' = h /\ exists q, p = Some q /\ cell_at h (blk q, off q + k) = Some v.
Proof.
  unfold load. destruct p as [q|]; [|done].
  destruct (h !! blk q) as [[cells|]|] eqn:Hb; [|done..].
  destruct (cells !! (off q + k)) as [w|] eqn:E; [|done].
  intros [= -> ->]. split; [done|]. exists q. split; [done|].
  unfold cell_at; cbn. by rewrite Hb.
Qed.

Lemma store_inv p k v h u h' :
  store p k v h = Ok (u, h') ->
  exists q cells, p = Some q /\ h !! blk q = Some (Some cells) /\
    off q + k < length cells /\
    h' = <[blk q := Some (<[off q + k := v]> cells)]> h.
Proof.
  unfold store. destruct p as [q|]; [|done].
  destruct (h !! blk q) as [[cells|]|] eqn:E; [|done..].
  case_decide; [|done]. intros [= <-]. eauto 10.
Qed.

Lemma cell_at_insert h b cells cells' n v a :
  h !! b = Some (Some cells) -> n < length cells -> cells' = <[n := v]> cells ->
  cell_at (<[b := Some cells']> h) a
  = if decide (a = (b, n)) then Some v else cell_at h a.
Proof.
  intros Hb Hn ->. destruct a as [b' n']. unfold cell_at; cbn.
  destruct (decide (b' = b)) as [->|Hne].
  - rewrite lookup_insert_eq, Hb.
    destruct (decide (n' = n)) as [->|Hn'].
    + rewrite decide_True by done. by apply list_lookup_insert_eq.
    + rewrite decide_False by congruence. by apply list_lookup_insert_ne.
  - rewrite lookup_insert_ne by done. rewrite decide_False by congruence. done.
Qed.

(** A store into an existing cell succeeds and changes that cell only. *)
Lemma store_ok q k v h :
  is_Some (cell_at h (blk q, off q + k)) ->
  exists h', store (Some q) k v h = Ok (tt, h') /\
    forall a, cell_at h' a = if decide (a = (blk q, off q + k)) then Some v else cell_at h a.
Proof.
  intros [w Hw]. unfold cell_at in Hw; cbn in Hw. unfold store.
  destruct (h !! blk q) as [[cells|]|] eqn:E; [|done..].
  apply lookup_lt_Some in Hw. rewrite decide_True by done.
  eexists; split; [done|]. intros a. by eapply cell_at_insert.
Qed.

Lemma mat_get_ok m i j h v :
  mat_cell h m i j = Some v -> mat_get m i j h = Ok (v, h).
Proof.
  unfold mat_cell, addr, mat_get. destruct (es m) as [q|]; [|done]. apply load_ok.
Qed.

Lemma mat_set_ok m i j v h :
  is_Some (mat_cell h m i j) ->
  exists h', mat_set m i j v h = Ok (tt, h') /\
    forall a, cell_at h' a = if decide (Some a = addr m i j) then Some v else cell_at h a.
Proof.
  unfold mat_cell, addr, mat_set. destruct (es m) as [q|]; [|by intros [? ?]].
  intros Hs. destruct (store_ok q (MAT_AT m i j) v h Hs) as (h' & Hst & Hc).
  exists h'; split; [done|]. intros a. rewrite Hc.
  destruct (decide (a = _)) as [->|Hne].
  - by rewrite decide_True.
  - rewrite decide_False; [done|]. by intros [= ->].
Qed.

(** ** Loops *)

Lemma for_each_inv (I : nat -> gmap nat (option (list F)) -> Prop) body s n h :
  I s h ->
  (forall i h1, s <= i < s + n -> I i h1 ->
     exists h2, body i h1 = Ok (tt, h2) /\ I (S i) h2) ->
  exists h', for_each (seq s n) body h = Ok (tt, h') /\ I (s + n) h'.
Proof.
  revert s h. induction n as [|n IH]; intros s h H0 Hstep; cbn.
  - exists h. split; [done|]. by replace (s + 0) with s by lia.
  - destruct (Hstep s h) as (h1 & Hb & H1); [lia|done|].
    rewrite (bind_ok _ _ _ _ _ Hb).
    destruct (IH (S s) h1 H1) as (h' & Hf & Hn).
    + intros i h2 Hi. apply Hstep. lia.
    + exists h'. split; [done|]. by replace (s + S n) with (S s + n) by lia.
Qed.

Lemma for_range_inv (I : nat -> gmap nat (option (list F)) -> Prop) body n h :
  I 0 h ->
  (forall i h1, i < n -> I i h1 -> exists h2, body i h1 = Ok (tt, h2) /\ I (S i) h2) ->
  exists h', for_range n body h = Ok (tt, h') /\ I n h'.
Proof.
  intros H0 Hstep. apply (for_each_inv I body 0 n h H0).
  intros i h1 Hi. apply Hstep. lia.
Qed.

End Basics.

Section Matrices.
Context {F : Type} {FO : FloatOps F}.
Implicit Types (h : gmap nat (option (list F))) (m dst : Mat) (a : nat * nat).

(** ** Addresses *)

(** Within a row-major matrix the index does not wrap. *)
Lemma MAT_AT_exact m i j :
  well_strided m -> i < rows m -> j < cols m -> MAT_AT m i j = i * stride m + j.
Proof.
  intros [Hs Hfit] Hi Hj. unfold MAT_AT.
  pose proof (Nat.mul_le_mono_r (S i) (rows m) (stride m) Hi) as Hle.
  rewrite <- Nat2N.inj_mul, <- Nat2N.inj_add, N.mod_small, Nat2N.id; [done|].
  eapply N.lt_le_trans; [|exact Hfit]. lia.
Qed.

(** In a row-major matrix distinct in-range indices name distinct cells. *)
Lemma addr_inj m i j i' j' :
  well_strided m -> i < rows m -> i' < rows m -> j < cols m -> j' < cols m ->
  is_Some (addr m i j) -> addr m i j = addr m i' j' -> i = i' /\ j = j'.
Proof.
  intros Hw Hi Hi' Hj Hj'. unfold addr.
  rewrite (MAT_AT_exact m i j), (MAT_AT_exact m i' j') by done.
  destruct Hw as [Hs _].
  destruct (es m) as [q|]; [|by intros [? ?]].
  intros _ [= E].
  destruct (lt_eq_lt_dec i i') as [[Hlt|Heq]|Hgt].
  - pose proof (Nat.mul_le_mono_r (S i) i' (stride m) Hlt). lia.
  - subst i'. lia.
  - pose proof (Nat.mul_le_mono_r (S i') i (stride m) Hgt). lia.
Qed.

Lemma reads_addr h m V i j :
  reads h m V -> i < rows m -> j < cols m ->
  exists a, addr m i j = Some a /\ cell_at h a = Some (V i j).
Proof.
  intros Hr Hi Hj. specialize (Hr i j Hi Hj). unfold mat_cell in Hr.
  destruct (addr m i j) as [a|]; [|done]. eauto.
Qed.

(** A point update at [dst[i][j]], seen through [dst]. *)
Lemma mat_cell_updated h h' dst i j v i' j' :
  well_strided dst -> i < rows dst -> i' < rows dst -> j < cols dst -> j' < cols dst ->
  (forall a, cell_at h' a = if decide (Some a = addr dst i j) then Some v else cell_at h a) ->
  is_Some (mat_cell h dst i' j') ->
  mat_cell h' dst i' j'
  = if decide (i' = i /\ j' = j) then Some v else mat_cell h dst i' j'.
Proof.
  intros Hs Hi Hi' Hj Hj' Hupd Hsome. unfold mat_cell in *.
  destruct (addr dst i' j') as [a'|] eqn:Ea; [|by destruct Hsome].
  rewrite Hupd. destruct (decide (i' = i /\ j' = j)) as [[-> ->]|Hne].
  - by rewrite decide_True.
  - rewrite decide_False; [done|]. intros E. apply Hne.
    eapply addr_inj; [done..| |by rewrite Ea]. by rewrite Ea.
Qed.

(** A matrix that shares no cell with [dst] is not affected by writes into [dst]. *)
Lemma mat_cell_outside h h' dst m i j :
  same_outside dst h h' -> separate dst m -> i < rows m -> j < cols m ->
  mat_cell h' m i j = mat_cell h m i j.
Proof.
  intros Hout Hsep Hi Hj. unfold mat_cell.
  destruct (addr m i j) as [a|] eqn:Ea; [|done].
  apply Hout. intros Hd. apply (Hsep a Hd). by exists i, j.
Qed.

Lemma reads_outside h h' dst m V :
  same_outside dst h h' -> separate dst m -> reads h m V -> reads h' m V.
Proof.
  intros Hout Hsep Hr i j Hi Hj. rewrite <- (Hr i j Hi Hj).
  by eapply mat_cell_outside.
Qed.

Lemma same_outside_refl dst h : same_outside dst h h.
Proof. by intros a _. Qed.

Lemma same_outside_trans dst h1 h2 h3 :
  same_outside dst h1 h2 -> same_outside dst h2 h3 -> same_outside dst h1 h3.
Proof. intros H12 H23 a Ha. by rewrite (H23 a Ha), (H12 a Ha). Qed.

(** ** Loops that rewrite a matrix element by element

    [for i < rows, for j < cols: dst[i][j] = f i j dst[i][j]], where the body
    may read anything outside [dst]. *)
Lemma for_cells dst (f : nat -> nat -> F -> F) (body : nat -> nat -> M F unit) h0 D :
  well_strided dst ->
  reads h0 dst D ->
  (forall i j h v, i < rows dst -> j < cols dst ->
     same_outside dst h0 h -> mat_cell h dst i j = Some v ->
     exists h', body i j h = Ok (tt, h') /\
       forall a, cell_at h' a
                 = if decide (Some a = addr dst i j) then Some (f i j v) else cell_at h a) ->
  exists h', for_range (rows dst) (fun i => for_range (cols dst) (body i)) h0 = Ok (tt, h') /\
    reads h' dst (fun i j => f i j (D i j)) /\ same_outside dst h0 h'.
Proof.
  intros Hs HD Hbody.
  set (I := fun (i0 : nat) h =>
    same_outside dst h0 h /\
    forall i j, i < rows dst -> j < cols dst ->
      mat_cell h dst i j = Some (if decide (i < i0) then f i j (D i j) else D i j)).
  destruct (for_range_inv I (fun i => for_range (cols dst) (body i)) (rows dst) h0)
    as (h' & Hrun & Hout & Hfin).
  - split; [apply same_outside_refl|]. intros i j Hi Hj.
    rewrite decide_False by lia. by apply HD.
  - intros i h1 Hi [Hout1 Hv1].
    set (J := fun (j0 : nat) h =>
      same_outside dst h0 h /\
      forall i' j, i' < rows dst -> j < cols dst ->
        mat_cell h dst i' j
        = Some (if decide (i' < i \/ (i' = i /\ j < j0)) then f i' j (D i' j) else D i' j)).
    destruct (for_range_inv J (body i) (cols dst) h1) as (h2 & Hrun2 & Hout2 & Hv2).
    + split; [done|]. intros i' j Hi' Hj. rewrite (Hv1 i' j Hi' Hj).
      f_equal. repeat case_decide; done || lia.
    + intros j h Hj [HoutJ HvJ].
      destruct (Hbody i j h (D i j) Hi Hj HoutJ) as (h3 & Hb & Hupd).
      { rewrite (HvJ i j Hi Hj). rewrite decide_False by lia. done. }
      exists h3. split; [done|]. split.
      * intros a Ha. rewrite Hupd. rewrite decide_False; [by apply HoutJ|].
        intros E. apply Ha. by exists i, j.
      * intros i' j' Hi' Hj'.
        rewrite (mat_cell_updated h h3 dst i j (f i j (D i j)) i' j' Hs Hi Hi' Hj Hj' Hupd)
          by (by rewrite (HvJ i' j' Hi' Hj')).
        rewrite (HvJ i' j' Hi' Hj').
        destruct (decide (i' = i /\ j' = j)) as [[-> ->]|Hne].
        -- by rewrite decide_True by lia.
        -- f_equal. repeat case_decide; done || lia.
    + exists h2. split; [done|]. split; [done|]. intros i' j Hi' Hj.
      rewrite (Hv2 i' j Hi' Hj). f_equal. repeat case_decide; done || lia.
  - exists h'. split; [done|]. split; [|done]. intros i j Hi Hj.
    rewrite (Hfin i j Hi Hj). by rewrite decide_True.
Qed.

End Matrices.

Section MatDot.
Context {F : Type} {FO : FloatOps F}.
Implicit Types (h : gmap nat (option (list F))) (dst a b : Mat).

Lemma dot_acc_S (A B : nat -> nat -> F) n i j d :
  dot_acc A B (S n) i j d = fadd (dot_acc A B n i j d) (fmul (A i n) (B n j)).
Proof. unfold dot_acc. by rewrite seq_S, fold_left_app. Qed.

(** In exact arithmetic the accumulation is the old value plus the product term. *)
Lemma dot_acc_exact (A B : nat -> nat -> F) n i j d :
  ExactAdd F -> dot_acc A B n i j d = fadd d (dot_product A B n i j).
Proof.
  intros E. unfold dot_product. induction n as [|n IH].
  - cbn. by rewrite (fadd_zero_r F E).
  - by rewrite !dot_acc_S, IH, (fadd_assoc F E).
Qed.

(** The [k] loop of [mat_dot] at one [(i, j)]. *)
Lemma mat_dot_inner dst a b h (A B : nat -> nat -> F) i j v :
  i < rows a -> j < cols b -> cols a = rows b ->
  i < rows dst -> j < cols dst ->
  (forall k, k < cols a -> mat_cell h a i k = Some (A i k) /\ addr a i k <> addr dst i j) ->
  (forall k, k < cols a -> mat_cell h b k j = Some (B k j) /\ addr b k j <> addr dst i j) ->
  mat_cell h dst i j = Some v ->
  exists h',
    for_range (cols a) (fun k =>
      d <- mat_get dst i j ;;
      x <- mat_get a i k ;;
      y <- mat_get b k j ;;
      mat_set dst i j (fadd d (fmul x y))) h = Ok (tt, h') /\
    forall p, cell_at h' p
              = if decide (Some p = addr dst i j) then Some (dot_acc A B (cols a) i j v)
                else cell_at h p.
Proof.
  intros Hi Hj Hn Hdi Hdj HA HB Hv.
  apply (for_range_inv (fun k h1 => forall p, cell_at h1 p
            = if decide (Some p = addr dst i j) then Some (dot_acc A B k i j v)
              else cell_at h p)).
  - intros p. case_decide as E; [|done]. cbn.
    unfold mat_cell in Hv. rewrite <- E in Hv. done.
  - intros k h1 Hk Hinv.
    assert (Hcell : forall m i' j', addr m i' j' <> addr dst i j ->
              mat_cell h1 m i' j' = mat_cell h m i' j').
    { intros m i' j' Hne. unfold mat_cell. destruct (addr m i' j') as [p|]; [|done].
      rewrite Hinv. by rewrite decide_False. }
    assert (Hd : mat_cell h1 dst i j = Some (dot_acc A B k i j v)).
    { unfold mat_cell in *. destruct (addr dst i j) as [p|]; [|done].
      rewrite Hinv. by rewrite decide_True. }
    destruct (HA k Hk) as [HAk HAne]. destruct (HB k Hk) as [HBk HBne].
    rewrite (bind_ok _ _ _ _ _ (mat_get_ok _ _ _ _ _ Hd)).
    rewrite <- (Hcell a i k HAne) in HAk.
    rewrite (bind_ok _ _ _ _ _ (mat_get_ok _ _ _ _ _ HAk)).
    rewrite <- (Hcell b k j HBne) in HBk.
    rewrite (bind_ok _ _ _ _ _ (mat_get_ok _ _ _ _ _ HBk)).
    destruct (mat_set_ok dst i j (fadd (dot_acc A B k i j v) (fmul (A i k) (B k j))) h1)
      as (h2 & Hset & Hupd); [by rewrite Hd|].
    exists h2. split; [done|]. intros p. rewrite Hupd, dot_acc_S.
    case_decide; [done|]. rewrite Hinv. by rewrite decide_False.
Qed.

(** [mat_dot] on matrices of conforming shapes, [dst] sharing no cell with
    [a] or [b]: it returns, and has added the product terms onto [dst]. *)
Lemma mat_dot_spec dst a b h (D A B : nat -> nat -> F) :
  cols a = rows b -> rows dst = rows a -> cols dst = cols b ->
  well_strided dst ->
  separate dst a -> separate dst b ->
  reads h dst D -> reads h a A -> reads h b B ->
  exists h', mat_dot dst a b h = Ok (tt, h') /\
    reads h' dst (fun i j => dot_acc A B (cols a) i j (D i j)) /\
    same_outside dst h h'.
Proof.
  intros Hn Hr Hc Hs Hsa Hsb HD HA HB. unfold mat_dot.
  rewrite (bind_ok _ _ _ _ _ (assert_true _ h (proj2 (Nat.eqb_eq _ _) Hn))).
  rewrite (bind_ok _ _ _ _ _ (assert_true _ h (proj2 (Nat.eqb_eq _ _) Hr))).
  rewrite (bind_ok _ _ _ _ _ (assert_true _ h (proj2 (Nat.eqb_eq _ _) Hc))).
  apply (for_cells dst (fun i j v => dot_acc A B (cols a) i j v)); [done..|].
  intros i j h1 v Hi Hj Hout Hv.
  apply mat_dot_inner; try done; try lia.
  - intros k Hk. destruct (reads_addr h a A i k HA) as (p & Ep & Hp); [lia|done|].
    assert (Hnd : ~ cells_of dst p).
    { intros Hd. apply (Hsa p Hd). exists i, k. split; [lia|done]. }
    split.
    + unfold mat_cell. rewrite Ep. by rewrite (Hout p Hnd).
    + rewrite Ep. intros E. apply Hnd. by exists i, j.
  - intros k Hk. destruct (reads_addr h b B k j HB) as (p & Ep & Hp); [lia|lia|].
    assert (Hnd : ~ cells_of dst p).
    { intros Hd. apply (Hsb p Hd). exists k, j. split; [lia|]. split; [lia|done]. }
    split.
    + unfold mat_cell. rewrite Ep. by rewrite (Hout p Hnd).
    + rewrite Ep. intros E. apply Hnd. by exists i, j.
Qed.

End MatDot.

Section Safety.
Context {F : Type} {FO : FloatOps F}.
Implicit Types (h : gmap nat (option (list F))) (m dst a b : Mat).

(** ** Completion: only the cells matter, not what they hold *)

Lemma same_shape_refl h : same_shape h h.
Proof. by intros p. Qed.

Lemma same_shape_trans h1 h2 h3 : same_shape h1 h2 -> same_shape h2 h3 -> same_shape h1 h3.
Proof. intros H12 H23 p. by rewrite (H23 p), (H12 p). Qed.

Lemma accessible_same_shape h h' m : same_shape h h' -> accessible h m -> accessible h' m.
Proof.
  intros Hs Ha i j Hi Hj. specialize (Ha i j Hi Hj). unfold mat_cell in *.
  destruct (addr m i j) as [p|]; [|done]. by apply Hs.
Qed.

Lemma mat_get_safe m i j h :
  is_Some (mat_cell h m i j) -> exists v, mat_get m i j h = Ok (v, h).
Proof. intros [v Hv]. exists v. by apply mat_get_ok. Qed.

Lemma mat_set_safe m i j v h :
  is_Some (mat_cell h m i j) ->
  exists h', mat_set m i j v h = Ok (tt, h') /\ same_shape h h'.
Proof.
  intros Hs. destruct (mat_set_ok m i j v h Hs) as (h' & Hset & Hupd).
  exists h'. split; [done|]. intros p. rewrite Hupd. case_decide as E; [|done].
  unfold mat_cell in Hs. rewrite <- E in Hs. split; [done|]. by intros _.
Qed.

Lemma for_range_safe (body : nat -> M F unit) n h :
  (forall i h1, i < n -> same_shape h h1 ->
     exists h2, body i h1 = Ok (tt, h2) /\ same_shape h1 h2) ->
  exists h', for_range n body h = Ok (tt, h') /\ same_shape h h'.
Proof.
  intros Hbody. apply (for_range_inv (fun _ h1 => same_shape h h1)).
  - apply same_shape_refl.
  - intros i h1 Hi Hs. destruct (Hbody i h1 Hi Hs) as (h2 & Hb & Hs2).
    exists h2. split; [done|]. by eapply same_shape_trans.
Qed.

(** [mat_dot] returns as soon as the shapes conform and the three matrices
    can be accessed, aliased or not. *)
Lemma mat_dot_completes dst a b h :
  cols a = rows b -> rows dst = rows a -> cols dst = cols b ->
  accessible h dst -> accessible h a -> accessible h b ->
  exists h', mat_dot dst a b h = Ok (tt, h') /\ same_shape h h'.
Proof.
  intros Hn Hr Hc Hd Ha Hb. unfold mat_dot.
  rewrite (bind_ok _ _ _ _ _ (assert_true _ h (proj2 (Nat.eqb_eq _ _) Hn))).
  rewrite (bind_ok _ _ _ _ _ (assert_true _ h (proj2 (Nat.eqb_eq _ _) Hr))).
  rewrite (bind_ok _ _ _ _ _ (assert_true _ h (proj2 (Nat.eqb_eq _ _) Hc))).
  apply for_range_safe. intros i h1 Hi Hs1.
  apply for_range_safe. intros j h2 Hj Hs2.
  apply for_range_safe. intros k h3 Hk Hs3.
  assert (Hs : same_shape h h3) by eauto using same_shape_trans.
  destruct (mat_get_safe dst i j h3) as (d & Hgd).
  { by apply (accessible_same_shape h h3 dst Hs Hd). }
  destruct (mat_get_safe a i k h3) as (x & Hga).
  { apply (accessible_same_shape h h3 a Hs Ha); lia. }
  destruct (mat_get_safe b k j h3) as (y & Hgb).
  { apply (accessible_same_shape h h3 b Hs Hb); lia. }
  rewrite (bind_ok _ _ _ _ _ Hgd), (bind_ok _ _ _ _ _ Hga), (bind_ok _ _ _ _ _ Hgb).
  apply mat_set_safe. by apply (accessible_same_shape h h3 dst Hs Hd).
Qed.

(** ** Which computations can fail an assertion *)

Lemma no_abort_ret {A} (x : A) : no_abort (@ret F A x).
Proof. by intros h. Qed.

Lemma no_abort_bind {A B} (c : M F A) (k : A -> M F B) :
  no_abort c -> (forall x, no_abort (k x)) -> no_abort (bind c k).
Proof.
  intros Hc Hk h. unfold bind. specialize (Hc h).
  destruct (c h) as [[x h1]|e]; [apply Hk|]. congruence.
Qed.

Lemma no_abort_load p k : no_abort (@load F p k).
Proof.
  intros h. unfold load. destruct p as [q|]; [|done].
  destruct (h !! blk q) as [[cells|]|]; [|done..].
  by destruct (cells !! (off q + k)).
Qed.

Lemma no_abort_store p k (v : F) : no_abort (store p k v).
Proof.
  intros h. unfold store. destruct p as [q|]; [|done].
  destruct (h !! blk q) as [[cells|]|]; [|done..]. by case_decide.
Qed.

Lemma no_abort_for_each l (body : nat -> M F unit) :
  (forall i, no_abort (body i)) -> no_abort (for_each l body).
Proof.
  intros Hb. induction l as [|i l IH]; cbn.
  - apply no_abort_ret.
  - apply no_abort_bind; [apply Hb|]. by intros _.
Qed.

Lemma no_abort_mat_dot_loops dst a b n :
  no_abort (for_range (rows dst) (fun i =>
    for_range (cols dst) (fun j =>
      for_range n (fun k =>
        d <- mat_get dst i j ;;
        x <- mat_get a i k ;;
        y <- mat_get b k j ;;
        mat_set dst i j (fadd d (fmul x y)))))).
Proof.
  repeat (apply no_abort_for_each; intros ?).
  repeat (apply no_abort_bind; [apply no_abort_load|intros ?]).
  apply no_abort_store.
Qed.

End Safety.

Section Frames.
Context {F : Type} {FO : FloatOps F}.
Implicit Types (h : gmap nat (option (list F))) (m : Xor) (P : nat -> Prop).

(** ** What a computation leaves untouched *)

Lemma unchanged_on_refl P h : unchanged_on P h h.
Proof. by intros b _. Qed.

Lemma unchanged_on_trans P h1 h2 h3 :
  unchanged_on P h1 h2 -> unchanged_on P h2 h3 -> unchanged_on P h1 h3.
Proof. intros H12 H23 b Hb. by rewrite (H23 b Hb), (H12 b Hb). Qed.

Lemma writes_outside_ret {A} P (x : A) : writes_outside P (@ret F A x).
Proof. intros h y h' [= _ <-]. apply unchanged_on_refl. Qed.

Lemma writes_outside_bind {A B} P (c : M F A) (k : A -> M F B) :
  writes_outside P c -> (forall x, writes_outside P (k x)) -> writes_outside P (bind c k).
Proof.
  intros Hc Hk h y h' Hrun. apply bind_inv in Hrun as (x & h1 & H1 & H2).
  eapply unchanged_on_trans; [by eapply Hc | by eapply Hk].
Qed.

Lemma writes_outside_assert P (cond : bool) : writes_outside P (@NN_ASSERT F cond).
Proof. intros h u h' Hrun. apply assert_inv in Hrun as [_ ->]. apply unchanged_on_refl. Qed.

Lemma writes_outside_mat_get P pm i j : writes_outside P (@mat_get F pm i j).
Proof. intros h v h' Hrun. apply load_inv in Hrun as [-> _]. apply unchanged_on_refl. Qed.

Lemma writes_outside_mat_set P pm i j (v : F) :
  mat_avoids P pm -> writes_outside P (mat_set pm i j v).
Proof.
  intros Hav h u h' Hrun. apply store_inv in Hrun as (q & cells & Eq & _ & _ & ->).
  intros b Hb. apply lookup_insert_ne. intros <-. by apply (Hav q Eq).
Qed.

Lemma writes_outside_for_each P l (body : nat -> M F unit) :
  (forall i, writes_outside P (body i)) -> writes_outside P (for_each l body).
Proof.
  intros Hb. induction l as [|i l IH]; cbn.
  - apply writes_outside_ret.
  - apply writes_outside_bind; [apply Hb|]. by intros _.
Qed.

Lemma writes_outside_fold_each {A} P l (body : nat -> A -> M F A) acc :
  (forall i x, writes_outside P (body i x)) -> writes_outside P (fold_each l body acc).
Proof.
  intros Hb. revert acc. induction l as [|i l IH]; intros acc; cbn.
  - apply writes_outside_ret.
  - apply writes_outside_bind; [apply Hb|]. intros x. apply IH.
Qed.

(** Resolves a frame goal for straight-line code and loops over loads,
    stores into avoided matrices, and assertions. *)
Ltac frame_step :=
  first
    [ apply writes_outside_ret
    | apply writes_outside_assert
    | apply writes_outside_mat_get
    | apply writes_outside_mat_set; assumption
    | apply writes_outside_bind; [|intros ?]
    | apply writes_outside_for_each; intros ?
    | apply writes_outside_fold_each; intros ? ? ].

Lemma writes_outside_mat_dot P dst a b :
  mat_avoids P dst -> writes_outside P (mat_dot dst a b).
Proof. intros Hd. unfold mat_dot, for_range. repeat frame_step. Qed.

Lemma writes_outside_mat_sum P dst a :
  mat_avoids P dst -> writes_outside P (mat_sum dst a).
Proof. intros Hd. unfold mat_sum, for_range. repeat frame_step. Qed.

Lemma writes_outside_mat_sig P dst :
  mat_avoids P dst -> writes_outside P (mat_sig dst).
Proof. intros Hd. unfold mat_sig, for_range. repeat frame_step. Qed.

Lemma writes_outside_mat_copy P dst src :
  mat_avoids P dst -> writes_outside P (@mat_copy F dst src).
Proof. intros Hd. unfold mat_copy, for_range. repeat frame_step. Qed.

(** [forward_xor] writes [a1] and [a2] only. *)
Lemma writes_outside_forward_xor P m :
  mat_avoids P (a1 m) -> mat_avoids P (a2 m) -> writes_outside P (forward_xor m).
Proof.
  intros H1 H2. unfold forward_xor.
  repeat first
    [ apply writes_outside_mat_dot; assumption
    | apply writes_outside_mat_sum; assumption
    | apply writes_outside_mat_sig; assumption
    | apply writes_outside_bind; [|intros ?] ].
Qed.

(** [cost] writes the activations [a0], [a1], [a2] only. *)
Lemma writes_outside_cost P m ti to :
  mat_avoids P (a0 m) -> mat_avoids P (a1 m) -> mat_avoids P (a2 m) ->
  writes_outside P (cost m ti to).
Proof.
  intros H0 H1 H2. unfold cost, fold_range.
  repeat first
    [ apply writes_outside_mat_copy; assumption
    | apply writes_outside_forward_xor; assumption
    | frame_step ].
Qed.

(** One perturb / measure / restore round of [finite_diff]: the block of the
    perturbed matrix ends as it started, whether or not it is one of [P]. *)
Lemma finite_diff_slot_restored P m pm pg ti to (eps c : F) i j :
  mat_avoids P (a0 m) -> mat_avoids P (a1 m) -> mat_avoids P (a2 m) ->
  mat_avoids P pg ->
  writes_outside P
    (saved <- mat_get pm i j ;;
     mat_set pm i j (fadd saved eps) ;;
     c1 <- cost m ti to ;;
     mat_set pg i j (fdiv (fsub c1 c) eps) ;;
     mat_set pm i j saved).
Proof.
  intros H0 H1 H2 Hg h u h5 Hrun.
  apply bind_inv in Hrun as (saved & h1 & Hload & Hrun).
  apply bind_inv in Hrun as (u2 & h2 & Hpert & Hrun).
  apply bind_inv in Hrun as (c1 & h3 & Hcost & Hrun).
  apply bind_inv in Hrun as (u4 & h4 & Hgrad & Hrest).
  apply load_inv in Hload as (-> & q & Eq & Hsaved).
  apply store_inv in Hpert as (q2 & cells & Eq2 & Hcells & Hlen & ->).
  apply store_inv in Hrest as (q5 & cells4 & Eq5 & Hcells4 & Hlen4 & ->).
  assert (q2 = q) as -> by congruence. assert (q5 = q) as -> by congruence.
  pose proof (writes_outside_cost P m ti to H0 H1 H2 _ _ _ Hcost) as U23.
  pose proof (writes_outside_mat_set P pg i j _ Hg _ _ _ Hgrad) as U34.
  intros b Hb. destruct (decide (b = blk q)) as [->|Hne].
  - rewrite lookup_insert_eq.
    rewrite (U34 _ Hb), (U23 _ Hb), lookup_insert_eq in Hcells4.
    injection Hcells4 as <-. rewrite list_insert_insert_eq, Hcells.
    do 2 f_equal. apply list_insert_id.
    unfold cell_at in Hsaved; cbn in Hsaved. by rewrite Hcells in Hsaved.
  - rewrite lookup_insert_ne by done.
    rewrite (U34 _ Hb), (U23 _ Hb). by rewrite lookup_insert_ne.
Qed.

Lemma writes_outside_finite_diff_slots P m pm pg ti to (eps c : F) :
  mat_avoids P (a0 m) -> mat_avoids P (a1 m) -> mat_avoids P (a2 m) ->
  mat_avoids P pg ->
  writes_outside P (finite_diff_slots m pm pg ti to eps c).
Proof.
  intros H0 H1 H2 Hg. unfold finite_diff_slots, for_range.
  do 2 (apply writes_outside_for_each; intros ?).
  by apply finite_diff_slot_restored.
Qed.

End Frames.

Section Release.
Context {F : Type} {FO : FloatOps F}.
Implicit Types (h : gmap nat (option (list F))) (m : Mat) (x : Xor).

(** ** Releasing buffers *)

Lemma mat_free_owned m h b cells :
  es m = Some (Ptr b 0) -> h !! b = Some (Some cells) ->
  mat_free m h = Ok (mkMat 0 0 0 None, <[b := None]> h).
Proof.
  intros Em Hb. unfold mat_free, free, bind. rewrite Em. cbn. by rewrite Hb.
Qed.

Lemma mat_free_null m h :
  es m = None -> mat_free m h = Ok (mkMat 0 0 0 None, h).
Proof. intros Em. unfold mat_free. by rewrite Em. Qed.

(** Whatever [xor_free] did, it cleared the flag, and a call on what it left
    frees nothing: it returns the same network and the same heap. *)
Lemma xor_free_again x h x' h' :
  xor_free x h = Ok (x', h') ->
  owns_matrices x' = 0%Z /\ xor_free x' h' = Ok (x', h').
Proof.
  unfold xor_free. case_bool_decide as Hown.
  - intros Hrun.
    repeat (apply bind_inv in Hrun as (? & ? & _ & Hrun)).
    injection Hrun as <- <-. done.
  - intros [= <- <-]. done.
Qed.

Lemma owns_buffer_block h m :
  owns_buffer h m ->
  exists cells, es m = Some (Ptr (mat_block m) 0) /\ h !! mat_block m = Some (Some cells).
Proof.
  intros (b & cells & Em & Hb). exists cells. unfold mat_block. rewrite Em. done.
Qed.

(** [xor_free] on a network that owns seven distinct live buffers. *)
Lemma xor_free_owned x h :
  owns_matrices x <> 0%Z ->
  Forall (owns_buffer h) (xor_mats x) ->
  NoDup (mat_block <$> xor_mats x) ->
  exists h', xor_free x h
             = Ok (mkXor (mkMat 0 0 0 None) (mkMat 0 0 0 None) (mkMat 0 0 0 None)
                         (mkMat 0 0 0 None) (mkMat 0 0 0 None) (mkMat 0 0 0 None)
                         (mkMat 0 0 0 None) 0, h') /\
    (forall m, m ∈ xor_mats x -> h' !! mat_block m = Some None) /\
    (forall b, b ∉ mat_block <$> xor_mats x -> h' !! b = h !! b).
Proof.
  intros Hown Hall Hnd. unfold xor_mats in *. cbn in Hnd.
  repeat (apply Forall_cons in Hall as [?%owns_buffer_block Hall]).
  destruct_and?. repeat match goal with H : exists _, _ |- _ => destruct H as (? & ? & ?) end.
  repeat (apply NoDup_cons in Hnd as [? Hnd]).
  repeat match goal with H : _ ∉ _ :: _ |- _ => apply not_elem_of_cons in H as [? ?] end.
  unfold xor_free. rewrite bool_decide_eq_true_2 by done.
  repeat (erewrite bind_ok;
    [|eapply mat_free_owned; [eassumption|by rewrite ?lookup_insert_ne by congruence]]).
  eexists. split; [done|]. split.
  - intros m Hm. repeat (apply elem_of_cons in Hm as [->|Hm]);
      [by rewrite ?lookup_insert_ne, lookup_insert_eq by congruence..|].
    by apply elem_of_nil in Hm.
  - intros b Hb. cbn in Hb.
    repeat (apply not_elem_of_cons in Hb as [? Hb]).
    by rewrite !lookup_insert_ne by congruence.
Qed.

End Release.

Section Forward.
Context {F : Type} {FO : FloatOps F}.
Implicit Types (h : gmap nat (option (list F))) (dst a : Mat) (m : Xor).

(** ** The element-wise operations and the forward pass *)

Lemma accessible_reads h dst : accessible h dst -> reads h dst (entry h dst).
Proof.
  intros Ha i j Hi Hj. unfold entry. by destruct (Ha i j Hi Hj) as [v ->].
Qed.

Lemma reads_accessible h dst D : reads h dst D -> accessible h dst.
Proof. intros Hr i j Hi Hj. by rewrite (Hr i j Hi Hj). Qed.

Lemma mat_fill_spec dst (x : F) h :
  well_strided dst -> accessible h dst ->
  exists h', mat_fill dst x h = Ok (tt, h') /\
    reads h' dst (fun _ _ => x) /\ same_outside dst h h'.
Proof.
  intros Hs Ha. unfold mat_fill.
  apply (for_cells dst (fun _ _ _ => x) _ h (entry h dst) Hs (accessible_reads _ _ Ha)).
  intros i j h1 v Hi Hj _ Hv. apply mat_set_ok. by rewrite Hv.
Qed.

Lemma mat_sum_spec dst a h (D A : nat -> nat -> F) :
  rows dst = rows a -> cols dst = cols a -> well_strided dst ->
  separate dst a -> reads h dst D -> reads h a A ->
  exists h', mat_sum dst a h = Ok (tt, h') /\
    reads h' dst (fun i j => fadd (D i j) (A i j)) /\ same_outside dst h h'.
Proof.
  intros Hr Hc Hs Hsep HD HA. unfold mat_sum.
  rewrite (bind_ok _ _ _ _ _ (assert_true _ h (proj2 (Nat.eqb_eq _ _) Hr))).
  rewrite (bind_ok _ _ _ _ _ (assert_true _ h (proj2 (Nat.eqb_eq _ _) Hc))).
  apply (for_cells dst (fun i j v => fadd v (A i j)) _ h D Hs HD).
  intros i j h1 v Hi Hj Hout Hv.
  rewrite (bind_ok _ _ _ _ _ (mat_get_ok _ _ _ _ _ Hv)).
  assert (HA1 : mat_cell h1 a i j = Some (A i j)).
  { rewrite (mat_cell_outside h h1 dst a i j Hout Hsep) by lia. apply HA; lia. }
  rewrite (bind_ok _ _ _ _ _ (mat_get_ok _ _ _ _ _ HA1)).
  apply mat_set_ok. by rewrite Hv.
Qed.

Lemma mat_sig_spec dst h (D : nat -> nat -> F) :
  well_strided dst -> reads h dst D ->
  exists h', mat_sig dst h = Ok (tt, h') /\
    reads h' dst (fun i j => sigmoidf (D i j)) /\ same_outside dst h h'.
Proof.
  intros Hs HD. unfold mat_sig.
  apply (for_cells dst (fun _ _ v => sigmoidf v) _ h D Hs HD).
  intros i j h1 v Hi Hj _ Hv.
  rewrite (bind_ok _ _ _ _ _ (mat_get_ok _ _ _ _ _ Hv)).
  apply mat_set_ok. by rewrite Hv.
Qed.

(** One layer: [mat_dot(dst, a, w); mat_sum(dst, b); mat_sig(dst)]. *)
Lemma layer_spec dst a w b h (X A W B : nat -> nat -> F) :
  cols a = rows w -> rows dst = rows a -> cols dst = cols w ->
  rows dst = rows b -> cols dst = cols b ->
  well_strided dst ->
  separate dst a -> separate dst w -> separate dst b ->
  reads h dst X -> reads h a A -> reads h w W -> reads h b B ->
  exists h1 h2 h3,
    mat_dot dst a w h = Ok (tt, h1) /\ mat_sum dst b h1 = Ok (tt, h2) /\
    mat_sig dst h2 = Ok (tt, h3) /\
    reads h3 dst (layer A W B (cols a) X) /\ same_outside dst h h3.
Proof.
  intros Hn Hr Hc Hrb Hcb Hs Hsa Hsw Hsb HX HA HW HB.
  destruct (mat_dot_spec dst a w h X A W Hn Hr Hc Hs Hsa Hsw HX HA HW)
    as (h1 & Hdot & HX1 & Hout1).
  destruct (mat_sum_spec dst b h1 _ B Hrb Hcb Hs Hsb HX1 (reads_outside _ _ _ _ _ Hout1 Hsb HB))
    as (h2 & Hsum & HX2 & Hout2).
  destruct (mat_sig_spec dst h2 _ Hs HX2) as (h3 & Hsig & HX3 & Hout3).
  exists h1, h2, h3. repeat (split; [done|]).
  eauto using same_outside_trans.
Qed.

Lemma accessible_outside h h' dst a :
  same_outside dst h h' -> separate dst a -> accessible h a -> accessible h' a.
Proof.
  intros Hout Hsep Ha i j Hi Hj.
  rewrite (mat_cell_outside h h' dst a i j Hout Hsep Hi Hj). by apply Ha.
Qed.

(** With no training row [cost] touches nothing and returns [0 / (float)0]. *)
Lemma cost_no_rows m ti to h :
  rows ti = 0 -> rows to = 0 -> cols to = cols (a2 m) -> cols ti = cols (a0 m) ->
  cost m ti to h = Ok (fdiv fzero (of_size 0), h).
Proof.
  intros Hti Hto Hc2 Hc0. unfold cost.
  rewrite (bind_ok _ _ _ _ _ (assert_true _ h (proj2 (Nat.eqb_eq _ _) (eq_trans Hti (eq_sym Hto))))).
  rewrite (bind_ok _ _ _ _ _ (assert_true _ h (proj2 (Nat.eqb_eq _ _) Hc2))).
  rewrite (bind_ok _ _ _ _ _ (assert_true _ h (proj2 (Nat.eqb_eq _ _) Hc0))).
  by rewrite Hti.
Qed.

(** A separation fact recorded in [net_wf]. *)
Ltac wf_sep Hwf :=
  first [ eapply (proj1 (Forall_forall _ _) (wf_sep1 _ Hwf))
        | eapply (proj1 (Forall_forall _ _) (wf_sep2 _ Hwf)) ];
  repeat constructor.

(** [forward_xor] from a heap where the network holds [A0] (input), [X1] and
    [X2] (stale activations) and the parameters [W1 B1 W2 B2]. *)
Lemma forward_xor_spec m h (A0 X1 X2 W1 B1 W2 B2 : nat -> nat -> F) :
  net_wf m ->
  reads h (a0 m) A0 -> reads h (a1 m) X1 -> reads h (a2 m) X2 ->
  reads h (w1 m) W1 -> reads h (b1 m) B1 -> reads h (w2 m) W2 -> reads h (b2 m) B2 ->
  exists h', forward_xor m h = Ok (tt, h') /\
    reads h' (a1 m) (layer A0 W1 B1 (cols (a0 m)) X1) /\
    reads h' (a2 m) (layer (layer A0 W1 B1 (cols (a0 m)) X1) W2 B2 (cols (a1 m)) X2) /\
    reads h' (a0 m) A0 /\
    reads h' (w1 m) W1 /\ reads h' (b1 m) B1 /\ reads h' (w2 m) W2 /\ reads h' (b2 m) B2.
Proof.
  intros Hwf H0 H1 H2 Hw1 Hb1 Hw2 Hb2.
  destruct (wf_shapes m Hwf) as [(Hn1 & Hr1 & Hc1) (Hrb1 & Hcb1) (Hn2 & Hr2 & Hc2) (Hrb2 & Hcb2)].
  assert (S10 : separate (a1 m) (a0 m)) by wf_sep Hwf.
  assert (S11 : separate (a1 m) (w1 m)) by wf_sep Hwf.
  assert (S12 : separate (a1 m) (b1 m)) by wf_sep Hwf.
  assert (S13 : separate (a1 m) (w2 m)) by wf_sep Hwf.
  assert (S14 : separate (a1 m) (b2 m)) by wf_sep Hwf.
  assert (S15 : separate (a1 m) (a2 m)) by wf_sep Hwf.
  assert (S20 : separate (a2 m) (a0 m)) by wf_sep Hwf.
  assert (S21 : separate (a2 m) (w1 m)) by wf_sep Hwf.
  assert (S22 : separate (a2 m) (b1 m)) by wf_sep Hwf.
  assert (S23 : separate (a2 m) (w2 m)) by wf_sep Hwf.
  assert (S24 : separate (a2 m) (b2 m)) by wf_sep Hwf.
  assert (S25 : separate (a2 m) (a1 m)) by wf_sep Hwf.
  destruct (layer_spec (a1 m) (a0 m) (w1 m) (b1 m) h X1 A0 W1 B1)
    as (h1 & h2 & h3 & Hd1 & Hs1 & Hg1 & HY1 & Hout1); try done; [apply (wf_stride1 m Hwf)|].
  destruct (layer_spec (a2 m) (a1 m) (w2 m) (b2 m) h3 X2
              (layer A0 W1 B1 (cols (a0 m)) X1) W2 B2)
    as (h4 & h5 & h6 & Hd2 & Hs2 & Hg2 & HY2 & Hout2); try done;
    [apply (wf_stride2 m Hwf) | by eapply reads_outside..|].
  exists h6. unfold forward_xor.
  rewrite (bind_ok _ _ _ _ _ Hd1), (bind_ok _ _ _ _ _ Hs1), (bind_ok _ _ _ _ _ Hg1),
    (bind_ok _ _ _ _ _ Hd2), (bind_ok _ _ _ _ _ Hs2).
  split; [done|]. split; [by eapply reads_outside|]. split; [done|].
  repeat split; eapply reads_outside; try exact Hout2; try done;
    eapply reads_outside; try exact Hout1; done.
Qed.

(** [reset_activations; forward_xor]: the activations it leaves are a function
    of the input and the parameters alone. *)
Lemma reset_forward_spec m h (A0 W1 B1 W2 B2 : nat -> nat -> F) :
  net_wf m ->
  reads h (a0 m) A0 -> accessible h (a1 m) -> accessible h (a2 m) ->
  reads h (w1 m) W1 -> reads h (b1 m) B1 -> reads h (w2 m) W2 -> reads h (b2 m) B2 ->
  exists h', (reset_activations m ;; forward_xor m) h = Ok (tt, h') /\
    reads h' (a1 m) (layer A0 W1 B1 (cols (a0 m)) (fun _ _ => fzero)) /\
    reads h' (a2 m) (layer (layer A0 W1 B1 (cols (a0 m)) (fun _ _ => fzero)) W2 B2
                       (cols (a1 m)) (fun _ _ => fzero)) /\
    reads h' (a0 m) A0 /\
    reads h' (w1 m) W1 /\ reads h' (b1 m) B1 /\ reads h' (w2 m) W2 /\ reads h' (b2 m) B2.
Proof.
  intros Hwf H0 H1 H2 Hw1 Hb1 Hw2 Hb2.
  assert (S10 : separate (a1 m) (a0 m)) by wf_sep Hwf.
  assert (S11 : separate (a1 m) (w1 m)) by wf_sep Hwf.
  assert (S12 : separate (a1 m) (b1 m)) by wf_sep Hwf.
  assert (S13 : separate (a1 m) (w2 m)) by wf_sep Hwf.
  assert (S14 : separate (a1 m) (b2 m)) by wf_sep Hwf.
  assert (S15 : separate (a1 m) (a2 m)) by wf_sep Hwf.
  assert (S20 : separate (a2 m) (a0 m)) by wf_sep Hwf.
  assert (S21 : separate (a2 m) (w1 m)) by wf_sep Hwf.
  assert (S22 : separate (a2 m) (b1 m)) by wf_sep Hwf.
  assert (S23 : separate (a2 m) (w2 m)) by wf_sep Hwf.
  assert (S24 : separate (a2 m) (b2 m)) by wf_sep Hwf.
  assert (S25 : separate (a2 m) (a1 m)) by wf_sep Hwf.
  destruct (mat_fill_spec (a1 m) fzero h (wf_stride1 m Hwf) H1) as (h1 & Hf1 & HZ1 & Hout1).
  destruct (mat_fill_spec (a2 m) fzero h1 (wf_stride2 m Hwf)) as (h2 & Hf2 & HZ2 & Hout2).
  { by eapply accessible_outside. }
  destruct (forward_xor_spec m h2 A0 (fun _ _ => fzero) (fun _ _ => fzero) W1 B1 W2 B2)
    as (h3 & Hfw & Hrest); try done;
    try (eapply reads_outside; [exact Hout2|done|]; eapply reads_outside; [exact Hout1|done..]).
  { by eapply reads_outside. }
  exists h3. split; [|done].
  unfold reset_activations, bind in *. by rewrite Hf1, Hf2.
Qed.

End Forward.

Section Completion.
Context {F : Type} {FO : FloatOps F}.
Implicit Types (h : gmap nat (option (list F))) (dst a src : Mat) (m g : Xor).

(** ** When the network functions return *)

Lemma fold_each_safe {A} (body : nat -> A -> M F A) (bound : nat) h :
  (forall i x h1, i < bound -> same_shape h h1 ->
     exists y h2, body i x h1 = Ok (y, h2) /\ same_shape h1 h2) ->
  forall n s acc h1, s + n <= bound -> same_shape h h1 ->
    exists y h', fold_each (seq s n) body acc h1 = Ok (y, h') /\ same_shape h h'.
Proof.
  intros Hbody. induction n as [|n IH]; intros s acc h1 Hle Hs1; cbn.
  - by exists acc, h1.
  - destruct (Hbody s acc h1) as (y & h2 & Hb & Hs2); [lia|done|].
    rewrite (bind_ok _ _ _ _ _ Hb).
    apply IH; [lia|]. by eapply same_shape_trans.
Qed.

Lemma fold_range_safe {A} (body : nat -> A -> M F A) n acc h :
  (forall i x h1, i < n -> same_shape h h1 ->
     exists y h2, body i x h1 = Ok (y, h2) /\ same_shape h1 h2) ->
  exists y h', fold_range n body acc h = Ok (y, h') /\ same_shape h h'.
Proof.
  intros Hbody. apply (fold_each_safe body n h Hbody n 0 acc h); [lia|].
  apply same_shape_refl.
Qed.

Lemma accessible_all_same_shape h h' (l : list Mat) :
  same_shape h h' -> Forall (accessible h) l -> Forall (accessible h') l.
Proof.
  intros Hs Ha. eapply Forall_impl; [exact Ha|]. intros mt. by apply accessible_same_shape.
Qed.

Lemma mat_sum_safe dst a h :
  rows dst = rows a -> cols dst = cols a -> accessible h dst -> accessible h a ->
  exists h', mat_sum dst a h = Ok (tt, h') /\ same_shape h h'.
Proof.
  intros Hr Hc Hd Ha. unfold mat_sum.
  rewrite (bind_ok _ _ _ _ _ (assert_true _ h (proj2 (Nat.eqb_eq _ _) Hr))).
  rewrite (bind_ok _ _ _ _ _ (assert_true _ h (proj2 (Nat.eqb_eq _ _) Hc))).
  apply for_range_safe. intros i h1 Hi Hs1.
  apply for_range_safe. intros j h2 Hj Hs2.
  assert (Hs : same_shape h h2) by eauto using same_shape_trans.
  destruct (mat_get_safe dst i j h2) as (d & Hgd).
  { by apply (accessible_same_shape h h2 dst Hs Hd). }
  destruct (mat_get_safe a i j h2) as (x & Hga).
  { apply (accessible_same_shape h h2 a Hs Ha); lia. }
  rewrite (bind_ok _ _ _ _ _ Hgd), (bind_ok _ _ _ _ _ Hga).
  apply mat_set_safe. by apply (accessible_same_shape h h2 dst Hs Hd).
Qed.

Lemma mat_sig_safe dst h :
  accessible h dst -> exists h', mat_sig dst h = Ok (tt, h') /\ same_shape h h'.
Proof.
  intros Hd. unfold mat_sig.
  apply for_range_safe. intros i h1 Hi Hs1.
  apply for_range_safe. intros j h2 Hj Hs2.
  assert (Hs : same_shape h h2) by eauto using same_shape_trans.
  destruct (mat_get_safe dst i j h2) as (d & Hgd).
  { by apply (accessible_same_shape h h2 dst Hs Hd). }
  rewrite (bind_ok _ _ _ _ _ Hgd).
  apply mat_set_safe. by apply (accessible_same_shape h h2 dst Hs Hd).
Qed.

Lemma mat_copy_safe dst src h :
  rows dst = rows src -> cols dst = cols src -> accessible h dst -> accessible h src ->
  exists h', mat_copy dst src h = Ok (tt, h') /\ same_shape h h'.
Proof.
  intros Hr Hc Hd Ha. unfold mat_copy.
  rewrite (bind_ok _ _ _ _ _ (assert_true _ h (proj2 (Nat.eqb_eq _ _) Hr))).
  rewrite (bind_ok _ _ _ _ _ (assert_true _ h (proj2 (Nat.eqb_eq _ _) Hc))).
  apply for_range_safe. intros i h1 Hi Hs1.
  apply for_range_safe. intros j h2 Hj Hs2.
  assert (Hs : same_shape h h2) by eauto using same_shape_trans.
  destruct (mat_get_safe src i j h2) as (x & Hga).
  { apply (accessible_same_shape h h2 src Hs Ha); lia. }
  rewrite (bind_ok _ _ _ _ _ Hga).
  apply mat_set_safe. by apply (accessible_same_shape h h2 dst Hs Hd).
Qed.

(** [forward_xor] returns on a network whose shapes fit and whose matrices
    can be accessed. *)
Lemma forward_xor_safe m h :
  net_shapes m -> Forall (accessible h) [a0 m; a1 m; a2 m; w1 m; b1 m; w2 m; b2 m] ->
  exists h', forward_xor m h = Ok (tt, h') /\ same_shape h h'.
Proof.
  intros [(Hn1 & Hr1 & Hc1) (Hrb1 & Hcb1) (Hn2 & Hr2 & Hc2) (Hrb2 & Hcb2)] Hacc.
  assert (Hstep : forall h1, same_shape h h1 ->
            accessible h1 (a0 m) /\ accessible h1 (a1 m) /\ accessible h1 (a2 m) /\
            accessible h1 (w1 m) /\ accessible h1 (b1 m) /\ accessible h1 (w2 m) /\
            accessible h1 (b2 m)).
  { intros h1 Hs1. pose proof (accessible_all_same_shape h h1 _ Hs1 Hacc) as Hacc1.
    repeat (apply Forall_cons in Hacc1 as [? Hacc1]). done. }
  destruct (Hstep h (same_shape_refl h)) as (A0 & A1 & A2 & W1 & B1 & W2 & B2).
  destruct (mat_dot_completes (a1 m) (a0 m) (w1 m) h) as (h1 & Hd1 & S1); try done.
  destruct (Hstep h1 S1) as (A0' & A1' & A2' & W1' & B1' & W2' & B2').
  destruct (mat_sum_safe (a1 m) (b1 m) h1) as (h2 & Hs1 & S2); try done.
  assert (S02 : same_shape h h2) by eauto using same_shape_trans.
  destruct (Hstep h2 S02) as (A0'' & A1'' & A2'' & W1'' & B1'' & W2'' & B2'').
  destruct (mat_sig_safe (a1 m) h2) as (h3 & Hg1 & S3); try done.
  assert (S03 : same_shape h h3) by eauto using same_shape_trans.
  destruct (Hstep h3 S03) as (A03 & A13 & A23 & W13 & B13 & W23 & B23).
  destruct (mat_dot_completes (a2 m) (a1 m) (w2 m) h3) as (h4 & Hd2 & S4); try done.
  assert (S04 : same_shape h h4) by eauto using same_shape_trans.
  destruct (Hstep h4 S04) as (A04 & A14 & A24 & W14 & B14 & W24 & B24).
  destruct (mat_sum_safe (a2 m) (b2 m) h4) as (h5 & Hs2 & S5); try done.
  assert (S05 : same_shape h h5) by eauto using same_shape_trans.
  destruct (Hstep h5 S05) as (A05 & A15 & A25 & W15 & B15 & W25 & B25).
  destruct (mat_sig_safe (a2 m) h5) as (h6 & Hg2 & S6); try done.
  exists h6. unfold forward_xor.
  rewrite (bind_ok _ _ _ _ _ Hd1), (bind_ok _ _ _ _ _ Hs1), (bind_ok _ _ _ _ _ Hg1),
    (bind_ok _ _ _ _ _ Hd2), (bind_ok _ _ _ _ _ Hs2).
  split; [done|]. eauto using same_shape_trans.
Qed.

(** A row of an accessible row-major matrix is accessible through its view. *)
Lemma mat_row_accessible h mt row :
  accessible h mt -> well_strided mt -> row < rows mt -> accessible h (mat_row mt row).
Proof.
  intros Ha Hw Hrow i j Hi Hj. cbn in Hi, Hj.
  assert (i = 0) as -> by lia.
  specialize (Ha row j Hrow Hj). unfold mat_cell, addr in *. cbn.
  destruct (es mt) as [q|]; [|done]. cbn.
  replace (off q + MAT_AT mt row 0 + MAT_AT (mat_row mt row) 0 j)
    with (off q + MAT_AT mt row j); [done|].
  rewrite (MAT_AT_exact mt row j Hw Hrow Hj), (MAT_AT_exact mt row 0 Hw Hrow) by lia.
  rewrite (MAT_AT_exact (mat_row mt row) 0 j); cbn; [lia| |lia|done].
  destruct Hw as [Hc Hfit]. split; [done|]. cbn.
  eapply N.le_trans; [|exact Hfit].
  pose proof (Nat.mul_le_mono_r 1 (rows mt) (stride mt)). lia.
Qed.

(** [cost] returns, and leaves the cells of the heap in place. *)
Lemma cost_safe m ti to h :
  cost_ready h m ti to ->
  exists c h', cost m ti to h = Ok (c, h') /\ same_shape h h'.
Proof.
  intros [Hsh H1 Hrows Hout Hin Hnet [Hti Wti] [Hto Wto]]. unfold cost.
  rewrite (bind_ok _ _ _ _ _ (assert_true _ h (proj2 (Nat.eqb_eq _ _) Hrows))).
  rewrite (bind_ok _ _ _ _ _ (assert_true _ h (proj2 (Nat.eqb_eq _ _) Hout))).
  rewrite (bind_ok _ _ _ _ _ (assert_true _ h (proj2 (Nat.eqb_eq _ _) Hin))).
  destruct (fold_range_safe
    (fun i c =>
       mat_copy (a0 m) (mat_row ti i) ;;
       forward_xor m ;;
       fold_range (cols to) (fun j c0 =>
         o <- mat_get (a2 m) 0 j ;;
         e <- mat_get (mat_row to i) 0 j ;;
         ret (fadd c0 (fmul (fsub o e) (fsub o e)))) c) (rows ti) fzero h)
    as (c & h' & Hrun & Hs').
  2:{ exists (fdiv c (of_size (rows ti))), h'. rewrite (bind_ok _ _ _ _ _ Hrun). done. }
  intros i c h1 Hi Hs1.
  pose proof (accessible_all_same_shape h h1 _ Hs1 Hnet) as Hnet1.
  assert (Ha0 : accessible h1 (a0 m)) by (by apply Forall_cons in Hnet1 as [? _]).
  destruct (mat_copy_safe (a0 m) (mat_row ti i) h1) as (h2 & Hcp & Hs2); [done|by cbn|done| |].
  { apply mat_row_accessible; [|done..]. by apply (accessible_same_shape h h1). }
  assert (Hs02 : same_shape h h2) by eauto using same_shape_trans.
  destruct (forward_xor_safe m h2 Hsh) as (h3 & Hfw & Hs3).
  { by apply (accessible_all_same_shape h h2). }
  assert (Hs03 : same_shape h h3) by eauto using same_shape_trans.
  rewrite (bind_ok _ _ _ _ _ Hcp), (bind_ok _ _ _ _ _ Hfw).
  destruct (fold_range_safe
    (fun j c0 =>
       o <- mat_get (a2 m) 0 j ;;
       e <- mat_get (mat_row to i) 0 j ;;
       ret (fadd c0 (fmul (fsub o e) (fsub o e)))) (cols to) c h3)
    as (c' & h4 & Hin4 & Hs4).
  2:{ exists c', h4. split; [done|]. eauto using same_shape_trans. }
  intros j c0 h5 Hj Hs5.
  assert (Hs05 : same_shape h h5) by eauto using same_shape_trans.
  pose proof (accessible_all_same_shape h h5 _ Hs05 Hnet) as Hnet5.
  assert (Ha2 : accessible h5 (a2 m)).
  { do 2 apply Forall_cons in Hnet5 as [_ Hnet5]. by apply Forall_cons in Hnet5 as [? _]. }
  destruct Hsh as [(_ & Hr1 & _) _ (_ & Hr2 & _) _].
  destruct (mat_get_safe (a2 m) 0 j h5) as (o & Ho); [apply Ha2; lia|].
  destruct (mat_get_safe (mat_row to i) 0 j h5) as (e & He).
  { apply mat_row_accessible; [by apply (accessible_same_shape h h5)|done|lia| cbn; lia | by cbn]. }
  rewrite (bind_ok _ _ _ _ _ Ho), (bind_ok _ _ _ _ _ He).
  eexists _, h5. split; [done|]. apply same_shape_refl.
Qed.

Lemma cost_ready_same_shape h h' m ti to :
  same_shape h h' -> cost_ready h m ti to -> cost_ready h' m ti to.
Proof.
  intros Hs [Hsh H1 Hrows Hout Hin Hnet [Hti Wti] [Hto Wto]].
  split; try done.
  - by apply (accessible_all_same_shape h h').
  - split; [|done]. by apply (accessible_same_shape h h').
  - split; [|done]. by apply (accessible_same_shape h h').
Qed.

Lemma slots_accessible_same_shape h h' pm pg :
  same_shape h h' -> slots_accessible h pm pg -> slots_accessible h' pm pg.
Proof.
  intros Hs Ha i j Hi Hj. destruct (Ha i j Hi Hj) as [Hm Hg]. unfold mat_cell in *.
  split.
  - destruct (addr pm i j) as [p|]; [|done]. by apply Hs.
  - destruct (addr pg i j) as [p|]; [|done]. by apply Hs.
Qed.

(** One loop nest of [finite_diff] returns when the slots it touches exist. *)
Lemma finite_diff_slots_safe m pm pg ti to (eps c : F) h :
  cost_ready h m ti to -> slots_accessible h pm pg ->
  exists h', finite_diff_slots m pm pg ti to eps c h = Ok (tt, h') /\ same_shape h h'.
Proof.
  intros Hc Hpm. unfold finite_diff_slots.
  apply for_range_safe. intros i h1 Hi Hs1.
  apply for_range_safe. intros j h2 Hj Hs2.
  assert (Hs : same_shape h h2) by eauto using same_shape_trans.
  destruct (mat_get_safe pm i j h2) as (saved & Hget).
  { by apply (slots_accessible_same_shape h h2 pm pg Hs Hpm). }
  destruct (mat_set_safe pm i j (fadd saved eps) h2) as (h3 & Hset & Hs3).
  { by apply (slots_accessible_same_shape h h2 pm pg Hs Hpm). }
  assert (Hs03 : same_shape h h3) by eauto using same_shape_trans.
  destruct (cost_safe m ti to h3) as (c1 & h4 & Hcost & Hs4).
  { by apply (cost_ready_same_shape h h3). }
  assert (Hs04 : same_shape h h4) by eauto using same_shape_trans.
  destruct (mat_set_safe pg i j (fdiv (fsub c1 c) eps) h4) as (h5 & Hsetg & Hs5).
  { by apply (slots_accessible_same_shape h h4 pm pg Hs04 Hpm). }
  assert (Hs05 : same_shape h h5) by eauto using same_shape_trans.
  destruct (mat_set_safe pm i j saved h5) as (h6 & Hrest & Hs6).
  { by apply (slots_accessible_same_shape h h5 pm pg Hs05 Hpm). }
  exists h6.
  rewrite (bind_ok _ _ _ _ _ Hget), (bind_ok _ _ _ _ _ Hset), (bind_ok _ _ _ _ _ Hcost),
    (bind_ok _ _ _ _ _ Hsetg).
  split; [done|]. eauto using same_shape_trans.
Qed.

(** [finite_diff] returns when every cell it touches exists. *)
Lemma finite_diff_safe m g ti to (eps : F) h :
  finite_diff_ready h m g ti to ->
  exists h', finite_diff m g ti to eps h = Ok (tt, h') /\ same_shape h h'.
Proof.
  intros [Hc Hw1 Hb1 Hw2 Hb2].
  unfold finite_diff.
  destruct (cost_safe m ti to h Hc) as (c & h0 & Hcost & Hs0).
  rewrite (bind_ok _ _ _ _ _ Hcost).
  destruct (finite_diff_slots_safe m (w1 m) (w1 g) ti to eps c h0) as (h1 & H1 & Hs1);
    eauto using cost_ready_same_shape, slots_accessible_same_shape.
  assert (Hs01 : same_shape h h1) by eauto using same_shape_trans.
  destruct (finite_diff_slots_safe m (b1 m) (b1 g) ti to eps c h1) as (h2 & H2 & Hs2);
    eauto using cost_ready_same_shape, slots_accessible_same_shape.
  assert (Hs02 : same_shape h h2) by eauto using same_shape_trans.
  destruct (finite_diff_slots_safe m (w2 m) (w2 g) ti to eps c h2) as (h3 & H3 & Hs3);
    eauto using cost_ready_same_shape, slots_accessible_same_shape.
  assert (Hs03 : same_shape h h3) by eauto using same_shape_trans.
  destruct (finite_diff_slots_safe m (b2 m) (b2 g) ti to eps c h3) as (h4 & H4 & Hs4);
    eauto using cost_ready_same_shape, slots_accessible_same_shape.
  exists h4.
  rewrite (bind_ok _ _ _ _ _ H1), (bind_ok _ _ _ _ _ H2), (bind_ok _ _ _ _ _ H3).
  split; [done|]. eauto using same_shape_trans.
Qed.

End Completion.

Section Allocation.
Context {F : Type} {FO : FloatOps F}.
Implicit Types (h : gmap nat (option (list F))) (m : Mat).

(** ** Allocation and release *)

Lemma fresh_block_unused h : h !! fresh (dom h) = None.
Proof. apply not_elem_of_dom. apply is_fresh. Qed.

(** The byte count of [mat_alloc] does not wrap below [2^62] elements. *)
Lemma mat_alloc_count r c :
  (N.of_nat r * N.of_nat c < 2 ^ 62)%N ->
  N.to_nat (((4 * N.of_nat r * N.of_nat c) mod 2 ^ 64) / 4)%N = r * c.
Proof.
  intros Hlt. rewrite <- N.mul_assoc.
  rewrite N.mod_small.
  - rewrite N.mul_comm, N.div_mul by done. by rewrite <- Nat2N.inj_mul, Nat2N.id.
  - change (2 ^ 64)%N with (4 * 2 ^ 62)%N. by apply N.mul_lt_mono_pos_l.
Qed.

Lemma mat_alloc_ok r c (junk : nat -> F) h :
  (N.of_nat r * N.of_nat c < 2 ^ 62)%N ->
  mat_alloc r c (Some junk) h
  = Ok (mkMat r c c (Some (Ptr (fresh (dom h)) 0)),
        <[fresh (dom h) := Some (junk <$> seq 0 (r * c))]> h).
Proof.
  intros Hlt. unfold mat_alloc, malloc, bind. by rewrite (mat_alloc_count r c Hlt).
Qed.

(** When [malloc] returns [NULL], [NN_ASSERT(m.es != NULL)] fails. *)
Lemma mat_alloc_null r c h : mat_alloc (F := F) r c None h = Err AssertFailed.
Proof. reflexivity. Qed.

(** [mat_alloc] returns only when [malloc] granted its request. *)
Lemma mat_alloc_granted r c (grant : option (nat -> F)) h m h' :
  mat_alloc r c grant h = Ok (m, h') -> exists junk, grant = Some junk.
Proof.
  destruct grant as [junk|]; [by exists junk|]. by rewrite mat_alloc_null.
Qed.

(** A matrix that fills a block of [rows * cols] cells row by row. *)
Lemma reads_whole_block h b r c (V : nat -> F) :
  (N.of_nat r * N.of_nat c < 2 ^ 62)%N ->
  h !! b = Some (Some (V <$> seq 0 (r * c))) ->
  reads h (mkMat r c c (Some (Ptr b 0))) (fun i j => V (i * c + j)).
Proof.
  intros Hlt Hb i j Hi Hj. cbn in Hi, Hj. unfold mat_cell, addr; cbn.
  rewrite MAT_AT_exact; cbn; [| |done..].
  - unfold cell_at; cbn. rewrite Hb, list_lookup_fmap, lookup_seq_lt; [done|].
    pose proof (Nat.mul_le_mono_r (S i) r c Hi). lia.
  - split; [cbn; lia|]. cbn. rewrite Nat2N.inj_mul.
    eapply N.le_trans; [apply N.lt_le_incl, Hlt|]. by vm_compute.
Qed.

(** From [2^62] elements on the byte count wraps: what is left of it is at
    least [2^62] elements short. *)
Lemma wrapped_count (p : N) :
  (2 ^ 62 <= p < 2 ^ 64)%N -> (((4 * p) mod 2 ^ 64) / 4 + 2 ^ 62 <= p)%N.
Proof.
  intros Hp. change (2 ^ 62)%N with 4611686018427387904%N in *.
  change (2 ^ 64)%N with 18446744073709551616%N in *.
  zify. Z.to_euclidean_division_equations. lia.
Qed.

(** The index of the last element of an [r x c] matrix of stride [c]. *)
Lemma last_index r c :
  (0 < N.of_nat r * N.of_nat c < 2 ^ 64)%N ->
  N.of_nat (MAT_AT (mkMat r c c None) (r - 1) (c - 1)) = (N.of_nat r * N.of_nat c - 1)%N.
Proof.
  intros [Hpos Hlt]. unfold MAT_AT; cbn. rewrite N2Nat.id.
  assert (0 < r /\ 0 < c) as [Hr Hc].
  { destruct r, c; cbn in Hpos; lia. }
  assert (E : (N.of_nat (r - 1) * N.of_nat c + N.of_nat (c - 1)
              = N.of_nat r * N.of_nat c - 1)%N) by nia.
  rewrite E. apply N.mod_small. lia.
Qed.

(** The seven allocations of [xor_alloc], in the order they are made: seven
    blocks unused before, pairwise distinct, each of [rows * cols] cells. *)
Lemma xor_alloc_blocks (junk : XorJunk) h :
  exists k0 k1 k2 k3 k4 k5 k6,
    NoDup [k0; k1; k2; k3; k4; k5; k6] /\
    Forall (fun k => h !! k = None) [k0; k1; k2; k3; k4; k5; k6] /\
    xor_alloc (granted junk) h
    = Ok (mkXor (mkMat 1 2 2 (Some (Ptr k0 0))) (mkMat 1 2 2 (Some (Ptr k3 0)))
                (mkMat 1 1 1 (Some (Ptr k6 0)))
                (mkMat 2 2 2 (Some (Ptr k1 0))) (mkMat 1 2 2 (Some (Ptr k2 0)))
                (mkMat 2 1 1 (Some (Ptr k4 0))) (mkMat 1 1 1 (Some (Ptr k5 0))) 1,
          <[k6 := Some (j_a2 junk <$> seq 0 1)]>
            (<[k5 := Some (j_b2 junk <$> seq 0 1)]>
              (<[k4 := Some (j_w2 junk <$> seq 0 2)]>
                (<[k3 := Some (j_a1 junk <$> seq 0 2)]>
                  (<[k2 := Some (j_b1 junk <$> seq 0 2)]>
                    (<[k1 := Some (j_w1 junk <$> seq 0 4)]>
                      (<[k0 := Some (j_a0 junk <$> seq 0 2)]> h))))))).
Proof.
  unfold xor_alloc, granted; cbn [g_a0 g_w1 g_b1 g_a1 g_w2 g_b2 g_a2].
  repeat (erewrite bind_ok; [|apply mat_alloc_ok; by vm_compute]).
  cbn [Nat.mul Nat.add].
  repeat match goal with
  | |- context [fresh (dom ?h1)] =>
      let k := fresh "k" in let Hk := fresh "Hk" in
      pose proof (fresh_block_unused h1) as Hk;
      set (k := fresh (dom h1)) in *; clearbody k
  end.
  repeat match goal with
  | H : <[_ := _]> _ !! _ = None |- _ => apply lookup_insert_None in H as [H ?]
  end.
  eexists _, _, _, _, _, _, _. split; [|split]. 3: reflexivity.
  - apply NoDup_ListNoDup. repeat (constructor; [cbn; intuition congruence|]). constructor.
  - repeat constructor; assumption.
Qed.

(** [xor_alloc] returns only when [malloc] granted all seven requests. *)
Lemma xor_alloc_granted (gr : XorGrants) h (x : Xor) h' :
  xor_alloc gr h = Ok (x, h') -> exists junk, gr = granted junk.
Proof.
  destruct gr as [g0 g1 g2 g3 g4 g5 g6]. unfold xor_alloc; cbn. intros Hrun.
  repeat (let Ha := fresh "Ha" in
          apply bind_inv in Hrun as (? & ? & Ha & Hrun);
          apply mat_alloc_granted in Ha as [? ->]).
  by eexists (mkXorJunk _ _ _ _ _ _ _).
Qed.

(** As soon as [malloc] refuses one of the seven requests, [xor_alloc] fails
    the assertion of that [mat_alloc]. *)
Lemma xor_alloc_refused (gr : XorGrants) h :
  (forall junk, gr <> granted junk) -> xor_alloc gr h = Err AssertFailed.
Proof.
  destruct gr as [g0 g1 g2 g3 g4 g5 g6]. unfold xor_alloc; cbn. intros Hno.
  repeat match goal with
  | |- bind (mat_alloc _ _ ?g) _ _ = _ =>
      destruct g as [?|]; [erewrite bind_ok by (apply mat_alloc_ok; by vm_compute)|done]
  end.
  exfalso. by eapply (Hno (mkXorJunk _ _ _ _ _ _ _)).
Qed.

Lemma mat_free_result m h m' h' :
  mat_free m h = Ok (m', h') -> m' = mkMat 0 0 0 None.
Proof.
  unfold mat_free. destruct (es m).
  - intros Hf. apply bind_inv in Hf as (? & ? & _ & Hf). by injection Hf as <- _.
  - by intros [= <- _].
Qed.

(** What [xor_free] returns for a network whose flag is set. *)
Lemma xor_free_released (x : Xor) h x' h' :
  owns_matrices x <> 0%Z -> xor_free x h = Ok (x', h') ->
  x' = mkXor (mkMat 0 0 0 None) (mkMat 0 0 0 None) (mkMat 0 0 0 None)
             (mkMat 0 0 0 None) (mkMat 0 0 0 None) (mkMat 0 0 0 None)
             (mkMat 0 0 0 None) 0.
Proof.
  intros Hown. unfold xor_free. rewrite bool_decide_eq_true_2 by done. intros Hrun.
  repeat (let Hf := fresh "Hf" in
          apply bind_inv in Hrun as (? & ? & Hf & Hrun);
          apply mat_free_result in Hf as ->).
  by injection Hrun as <- _.
Qed.

End Allocation.

Section Blocks.
Context {F : Type} {FO : FloatOps F}.
Implicit Types (h : gmap nat (option (list F))) (m : Xor) (mt pm pg : Mat).

(** ** Reasoning by blocks *)

(** A matrix of the list [l] lies outside every block that is not the block
    of a matrix of [l]. *)
Lemma mat_avoids_other_blocks (l : list Mat) mt :
  mt ∈ l -> mat_avoids (fun bk => bk ∉ mat_block <$> l) mt.
Proof.
  intros Hin q Eq Hout. apply Hout.
  replace (blk q) with (mat_block mt) by (unfold mat_block; by rewrite Eq).
  by apply list_elem_of_fmap_2.
Qed.

Lemma mat_cell_same_block h h' mt i j :
  h' !! mat_block mt = h !! mat_block mt -> mat_cell h' mt i j = mat_cell h mt i j.
Proof.
  unfold mat_cell, addr, mat_block, cell_at. destruct (es mt) as [q|]; cbn; [|done].
  by intros ->.
Qed.

Lemma reads_same_block h h' mt (V : nat -> nat -> F) :
  h' !! mat_block mt = h !! mat_block mt -> reads h mt V -> reads h' mt V.
Proof.
  intros Hb HV i j Hi Hj. rewrite (mat_cell_same_block h h' mt i j Hb). by apply HV.
Qed.

(** Matrices in different blocks share no element. *)
Lemma separate_blocks (m1 m2 : Mat) : mat_block m1 <> mat_block m2 -> separate m1 m2.
Proof.
  intros Hne p (i & j & _ & _ & E1) (i' & j' & _ & _ & E2). apply Hne.
  unfold addr, mat_block in *.
  destruct (es m1) as [q1|], (es m2) as [q2|]; try done. cbn. congruence.
Qed.

Lemma mat_block_row mt row : mat_block (mat_row mt row) = mat_block mt.
Proof. unfold mat_block, mat_row; cbn. by destruct (es mt). Qed.

(** A store into an existing element: the cell it changes, and what it leaves. *)
Lemma mat_set_full mt i j (v : F) h :
  is_Some (mat_cell h mt i j) ->
  exists h', mat_set mt i j v h = Ok (tt, h') /\
    (forall a, cell_at h' a = if decide (Some a = addr mt i j) then Some v else cell_at h a) /\
    same_shape h h' /\
    (forall bk, bk <> mat_block mt -> h' !! bk = h !! bk).
Proof.
  intros Hs. destruct (mat_set_ok mt i j v h Hs) as (h' & Hset & Hupd).
  exists h'. split; [done|]. split; [done|]. split.
  - intros p. rewrite Hupd. case_decide as E; [|done].
    unfold mat_cell in Hs. rewrite <- E in Hs. split; [done|]. by intros _.
  - intros bk Hne. apply store_inv in Hset as (q & cells & Eq & _ & _ & ->).
    apply lookup_insert_ne. unfold mat_block in Hne. rewrite Eq in Hne. cbn in Hne. congruence.
Qed.

Lemma writes_outside_xor_learn_slots (P : nat -> Prop) pm pg (rate : F) :
  mat_avoids P pm -> writes_outside P (xor_learn_slots pm pg rate).
Proof.
  intros Hpm. unfold xor_learn_slots, for_range.
  repeat first
    [ apply writes_outside_mat_get
    | apply writes_outside_mat_set; assumption
    | apply writes_outside_bind; [|intros ?]
    | apply writes_outside_for_each; intros ? ].
Qed.

(** [xor_learn] writes [w1], [b1], [w2], [b2] of its first argument only. *)
Lemma writes_outside_xor_learn (P : nat -> Prop) m g (rate : F) :
  Forall (mat_avoids P) [w1 m; b1 m; w2 m; b2 m] ->
  writes_outside P (xor_learn m g rate).
Proof.
  intros Hav. repeat (apply Forall_cons in Hav as [? Hav]). unfold xor_learn.
  repeat (apply writes_outside_bind; [by apply writes_outside_xor_learn_slots|intros _]).
  by apply writes_outside_xor_learn_slots.
Qed.

End Blocks.

Section Elementwise.
Context {F : Type} {FO : FloatOps F}.
Implicit Types (h : gmap nat (option (list F))) (m mt dst a src : Mat).

(** ** More element-wise operations *)

Lemma no_abort_mat_get m i j : no_abort (@mat_get F m i j).
Proof. apply no_abort_load. Qed.

Lemma no_abort_mat_set m i j (v : F) : no_abort (mat_set m i j v).
Proof. apply no_abort_store. Qed.

(** Loops over loads and stores contain no assertion. *)
Ltac no_abort_loops :=
  unfold for_range;
  repeat first
    [ apply no_abort_ret
    | apply no_abort_mat_get
    | apply no_abort_mat_set
    | apply no_abort_for_each; intros ?
    | apply no_abort_bind; [|intros ?] ].

Lemma no_abort_mat_sum_loops dst a :
  no_abort (for_range (rows dst) (fun i =>
    for_range (cols dst) (fun j =>
      d <- mat_get dst i j ;;
      x <- mat_get a i j ;;
      mat_set dst i j (fadd d x)))).
Proof. no_abort_loops. Qed.

Lemma no_abort_mat_copy_loops dst src :
  no_abort (for_range (rows dst) (fun i =>
    for_range (cols dst) (fun j =>
      x <- @mat_get F src i j ;;
      mat_set dst i j x))).
Proof. no_abort_loops. Qed.

(** The two assertions that open [mat_sum] and [mat_copy]. *)
Lemma two_asserts (r1 r2 c1 c2 : nat) (body : M F unit) h :
  no_abort body ->
  (NN_ASSERT (r1 =? r2) ;; NN_ASSERT (c1 =? c2) ;; body) h = Err AssertFailed
  <-> r1 <> r2 \/ c1 <> c2.
Proof.
  intros Hbody.
  destruct (decide (r1 = r2)) as [Hr|Hr].
  2:{ rewrite (bind_err _ _ _ _ (assert_false _ h (proj2 (Nat.eqb_neq _ _) Hr))). tauto. }
  rewrite (bind_ok _ _ _ _ _ (assert_true _ h (proj2 (Nat.eqb_eq _ _) Hr))).
  destruct (decide (c1 = c2)) as [Hc|Hc].
  2:{ rewrite (bind_err _ _ _ _ (assert_false _ h (proj2 (Nat.eqb_neq _ _) Hc))). tauto. }
  rewrite (bind_ok _ _ _ _ _ (assert_true _ h (proj2 (Nat.eqb_eq _ _) Hc))).
  split; [|tauto]. intros Habs. by apply Hbody in Habs.
Qed.

Lemma mat_copy_spec dst src h (S : nat -> nat -> F) :
  rows dst = rows src -> cols dst = cols src -> well_strided dst ->
  separate dst src -> accessible h dst -> reads h src S ->
  exists h', mat_copy dst src h = Ok (tt, h') /\
    reads h' dst S /\ same_outside dst h h'.
Proof.
  intros Hr Hc Hs Hsep Hd HS. unfold mat_copy.
  rewrite (bind_ok _ _ _ _ _ (assert_true _ h (proj2 (Nat.eqb_eq _ _) Hr))).
  rewrite (bind_ok _ _ _ _ _ (assert_true _ h (proj2 (Nat.eqb_eq _ _) Hc))).
  apply (for_cells dst (fun i j _ => S i j) _ h (entry h dst) Hs (accessible_reads _ _ Hd)).
  intros i j h1 v Hi Hj Hout Hv.
  assert (HS1 : mat_cell h1 src i j = Some (S i j)).
  { rewrite (mat_cell_outside h h1 dst src i j Hout Hsep) by lia. apply HS; lia. }
  rewrite (bind_ok _ _ _ _ _ (mat_get_ok _ _ _ _ _ HS1)).
  apply mat_set_ok. by rewrite Hv.
Qed.

(** The index of [row[0][j]] in a row view, counted from the base of the
    matrix. *)
Lemma mat_row_index mt row j :
  well_strided mt -> row < rows mt -> j < cols mt ->
  MAT_AT mt row 0 + MAT_AT (mat_row mt row) 0 j = MAT_AT mt row j.
Proof.
  intros Hw Hrow Hj.
  rewrite (MAT_AT_exact mt row j Hw Hrow Hj), (MAT_AT_exact mt row 0 Hw Hrow) by lia.
  rewrite (MAT_AT_exact (mat_row mt row) 0 j); cbn; [lia| |lia|done].
  destruct Hw as [Hc Hfit]. split; [done|]. cbn.
  eapply N.le_trans; [|exact Hfit].
  pose proof (Nat.mul_le_mono_r 1 (rows mt) (stride mt)). lia.
Qed.

(** [row[0][j]] of a row view is [m[row][j]]. *)
Lemma mat_cell_row h mt row j :
  well_strided mt -> row < rows mt -> j < cols mt ->
  mat_cell h (mat_row mt row) 0 j = mat_cell h mt row j.
Proof.
  intros Hw Hrow Hj. pose proof (mat_row_index mt row j Hw Hrow Hj) as E.
  unfold mat_cell, addr. destruct (es mt) as [q|] eqn:Eq; cbn; rewrite Eq; [|done].
  cbn. by rewrite <- Nat.add_assoc, E.
Qed.

Lemma reads_row h mt (V : nat -> nat -> F) row :
  well_strided mt -> row < rows mt -> reads h mt V ->
  reads h (mat_row mt row) (fun _ j => V row j).
Proof.
  intros Hw Hrow HV i j Hi Hj. cbn in Hi, Hj. assert (i = 0) as -> by lia.
  rewrite mat_cell_row by done. by apply HV.
Qed.

Lemma bind_assoc {A B C} (c : M F A) (k1 : A -> M F B) (k2 : B -> M F C) h :
  bind (bind c k1) k2 h = bind c (fun x => bind (k1 x) k2) h.
Proof. unfold bind. by destruct (c h) as [[x h1]|e]. Qed.

(** A loop that counts its iterations in a local variable, as a plain loop. *)
Lemma fold_each_counting (body : nat -> nat -> M F unit) k0 n s h :
  fold_each (seq s n) (fun j k => body j k ;; ret (S k)) (k0 + s) h
  = (for_each (seq s n) (fun j => body j (k0 + j)) ;; ret (k0 + s + n)) h.
Proof.
  revert s h. induction n as [|n IH]; intros s h; cbn [seq fold_each for_each].
  - unfold bind, ret. by rewrite Nat.add_0_r.
  - rewrite !bind_assoc. destruct (body s (k0 + s) h) as [[u h1]|e] eqn:Hb.
    + rewrite !(bind_ok _ _ _ _ _ Hb). unfold ret at 1. unfold bind at 1.
      rewrite <- Nat.add_succ_r, IH.
      by replace (k0 + S s + n) with (k0 + s + S n) by lia.
    + by rewrite !(bind_err _ _ _ _ Hb).
Qed.

Lemma fold_each_counting_rows (body : nat -> nat -> nat -> M F unit) c k0 n s h :
  fold_each (seq s n)
    (fun i k => fold_range c (fun j k1 => body i j k1 ;; ret (S k1)) k) (k0 + s * c) h
  = (for_each (seq s n) (fun i => for_range c (fun j => body i j (k0 + i * c + j))) ;;
     ret (k0 + (s + n) * c)) h.
Proof.
  revert s h. induction n as [|n IH]; intros s h; cbn [seq fold_each for_each].
  - unfold bind, ret. by rewrite Nat.add_0_r.
  - pose proof (fun h0 => fold_each_counting (body s) (k0 + s * c) c 0 h0) as Hin.
    unfold fold_range at 1. unfold bind at 1.
    rewrite <- (Nat.add_0_r (k0 + s * c)) at 1. rewrite Hin.
    rewrite bind_assoc. unfold for_range at 1.
    destruct (for_each (seq 0 c) (fun j => body s j (k0 + s * c + j)) h) as [[u h1]|e] eqn:Hb.
    + rewrite ?bind_assoc, !(bind_ok _ _ _ _ _ Hb). cbn.
      replace (k0 + s * c + 0 + c) with (k0 + S s * c) by lia.
      rewrite IH. by replace (S s + n) with (s + S n) by lia.
    + by rewrite ?bind_assoc, !(bind_err _ _ _ _ Hb).
Qed.

End Elementwise.

Section Slots.
Context {F : Type} {FO : FloatOps F}.
Implicit Types (h : gmap nat (option (list F))) (m : Xor) (pm pg : Mat).

(** ** The loop nests of [finite_diff] and [xor_learn] *)

Lemma for_each_ext (body body' : nat -> M F unit) l h :
  (forall i h1, body i h1 = body' i h1) -> for_each l body h = for_each l body' h.
Proof.
  intros Hext. revert h. induction l as [|i l IH]; intros h; cbn; [done|].
  unfold bind. rewrite Hext. destruct (body' i h) as [[u h1]|e]; [apply IH|done].
Qed.

Lemma for_range_one (body : nat -> M F unit) h : for_range 1 body h = body 0 h.
Proof.
  unfold for_range; cbn. unfold bind. by destruct (body 0 h) as [[[] h1]|e].
Qed.

(** The loop nests of [finite_diff] and [xor_learn] run [i] to [cols] and [j]
    to [rows].  On a square matrix that is the row-major traversal; so it is
    on a column, when the body does at [(0, j)] what it does at [(j, 0)]. *)
Lemma transposed_loops (r c : nat) (body : nat -> nat -> M F unit) h :
  r = c \/ (c = 1 /\ forall j h1, body 0 j h1 = body j 0 h1) ->
  for_range c (fun i => for_range r (body i)) h
  = for_range r (fun i => for_range c (body i)) h.
Proof.
  intros [->|[-> Hbody]]; [done|].
  rewrite for_range_one. unfold for_range at 1 2. apply for_each_ext.
  intros j h1. by rewrite for_range_one.
Qed.

(** In a column of stride [1], [MAT_AT(m, 0, j)] and [MAT_AT(m, j, 0)] are the
    same index. *)
Lemma MAT_AT_column pm j : stride pm = 1 -> MAT_AT pm 0 j = MAT_AT pm j 0.
Proof.
  intros Hs. unfold MAT_AT. rewrite Hs. do 2 f_equal. lia.
Qed.

(** A row-major double loop, with an invariant indexed by the number of
    elements done. *)
Lemma for_grid_inv (I : nat -> gmap nat (option (list F)) -> Prop)
    (body : nat -> nat -> M F unit) r c h :
  I 0 h ->
  (forall i j h1, i < r -> j < c -> I (i * c + j) h1 ->
     exists h2, body i j h1 = Ok (tt, h2) /\ I (S (i * c + j)) h2) ->
  exists h', for_range r (fun i => for_range c (body i)) h = Ok (tt, h') /\ I (r * c) h'.
Proof.
  intros H0 Hstep.
  apply (for_range_inv (fun i h1 => I (i * c) h1)); [done|].
  intros i h1 Hi Hinv.
  destruct (for_range_inv (fun j h2 => I (i * c + j) h2) (body i) c h1) as (h2 & Hrun & Hfin).
  - by rewrite Nat.add_0_r.
  - intros j h2 Hj Hinv2. destruct (Hstep i j h2 Hi Hj Hinv2) as (h3 & Hb & H3).
    exists h3. split; [done|]. by rewrite Nat.add_succ_r.
  - exists h2. split; [done|]. by replace (S i * c) with (i * c + c) by lia.
Qed.

Lemma grid_index_inj c i j i' j' :
  j < c -> j' < c -> i' * c + j' = i * c + j -> i' = i /\ j' = j.
Proof.
  intros Hj Hj' E.
  destruct (lt_eq_lt_dec i i') as [[Hlt|Heq]|Hgt].
  - pose proof (Nat.mul_le_mono_r (S i) i' c Hlt). lia.
  - subst i'. lia.
  - pose proof (Nat.mul_le_mono_r (S i') i c Hgt). lia.
Qed.

Lemma grid_index_bound r c i j : i < r -> j < c -> i * c + j < r * c.
Proof. intros Hi Hj. pose proof (Nat.mul_le_mono_r (S i) r c Hi). lia. Qed.

(** One loop nest of [xor_learn] over a square matrix or a column of
    stride [1]: the gradient step on every element. *)
Lemma xor_learn_slots_spec pm pg (rate : F) h (P G : nat -> nat -> F) :
  rows pm = cols pm \/ (cols pm = 1 /\ stride pm = 1 /\ stride pg = 1) ->
  rows pg = rows pm -> cols pg = cols pm ->
  well_strided pm -> separate pm pg ->
  reads h pm P -> reads h pg G ->
  exists h', xor_learn_slots pm pg rate h = Ok (tt, h') /\
    reads h' pm (fun i j => fsub (P i j) (fmul rate (G i j))) /\
    same_outside pm h h'.
Proof.
  intros Hshape Hr Hc Hw Hsep HP HG. unfold xor_learn_slots.
  rewrite (transposed_loops (rows pm) (cols pm)
             (fun i j => p <- mat_get pm i j ;; gr <- mat_get pg i j ;;
                         mat_set pm i j (fsub p (fmul rate gr)))).
  2:{ destruct Hshape as [?|(Hc1 & Hs & Hsg)]; [by left|right]. split; [done|].
      intros j h1. unfold mat_get, mat_set.
      by rewrite (MAT_AT_column pm j Hs), (MAT_AT_column pg j Hsg). }
  apply (for_cells pm (fun i j v => fsub v (fmul rate (G i j))) _ h P Hw HP).
  intros i j h1 v Hi Hj Hout Hv.
  rewrite (bind_ok _ _ _ _ _ (mat_get_ok _ _ _ _ _ Hv)).
  assert (HG1 : mat_cell h1 pg i j = Some (G i j)).
  { rewrite (mat_cell_outside h h1 pm pg i j Hout Hsep) by lia. apply HG; lia. }
  rewrite (bind_ok _ _ _ _ _ (mat_get_ok _ _ _ _ _ HG1)).
  apply mat_set_ok. by rewrite Hv.
Qed.

(** One loop nest of [finite_diff] over a square matrix or a column of
    stride [1]: every gradient slot receives the finite difference of its
    parameter, and the parameters end as they started. *)
Lemma finite_diff_slots_spec m pm pg ti to (eps c : F) h (P : nat -> nat -> F) :
  rows pm = cols pm \/ (cols pm = 1 /\ stride pm = 1 /\ stride pg = 1) ->
  rows pg = rows pm -> cols pg = cols pm ->
  well_strided pm -> well_strided pg ->
  mat_block pm ∉ mat_block <$> [a0 m; a1 m; a2 m; pg] ->
  mat_block pg ∉ mat_block <$> [a0 m; a1 m; a2 m] ->
  cost_ready h m ti to -> reads h pm P -> accessible h pg ->
  exists h', finite_diff_slots m pm pg ti to eps c h = Ok (tt, h') /\
    same_shape h h' /\
    (forall bk, bk ∉ mat_block <$> [a0 m; a1 m; a2 m; pg] -> h' !! bk = h !! bk) /\
    forall i j, i < rows pm -> j < cols pm ->
      finite_difference m pm pg ti to eps c h P i j (mat_cell h' pg i j).
Proof.
  intros Hshape Hr Hc Hwm Hwg Hbm Hbg Hready HP Hg.
  set (Bfull := mat_block <$> [a0 m; a1 m; a2 m; pg]) in *.
  assert (Hmg : mat_block pg <> mat_block pm).
  { intros E. apply Hbm. rewrite <- E. unfold Bfull. cbn. repeat constructor. }
  unfold finite_diff_slots.
  rewrite (transposed_loops (rows pm) (cols pm)
             (fun i j => saved <- mat_get pm i j ;;
                         mat_set pm i j (fadd saved eps) ;;
                         c1 <- cost m ti to ;;
                         mat_set pg i j (fdiv (fsub c1 c) eps) ;;
                         mat_set pm i j saved)).
  2:{ destruct Hshape as [?|(Hc1 & Hs & Hsg)]; [by left|right]. split; [done|].
      intros j h1. unfold mat_get, mat_set.
      by rewrite (MAT_AT_column pm j Hs), (MAT_AT_column pg j Hsg). }
  set (Inv := fun (k : nat) (hc : gmap nat (option (list F))) =>
    same_shape h hc /\
    (forall bk, bk ∉ Bfull -> hc !! bk = h !! bk) /\
    forall i j, i < rows pm -> j < cols pm -> i * cols pm + j < k ->
      finite_difference m pm pg ti to eps c h P i j (mat_cell hc pg i j)).
  destruct (for_grid_inv Inv
              (fun i j => saved <- mat_get pm i j ;;
                          mat_set pm i j (fadd saved eps) ;;
                          c1 <- cost m ti to ;;
                          mat_set pg i j (fdiv (fsub c1 c) eps) ;;
                          mat_set pm i j saved)
              (rows pm) (cols pm) h) as (h' & Hrun & Hs' & Hfr' & Hq').
  - split; [apply same_shape_refl|]. split; [done|]. intros i j _ _ Hlt. lia.
  - intros i j hc Hi Hj (Hsc & Hfrc & Hqc).
    assert (Hpmc : forall i' j', mat_cell hc pm i' j' = mat_cell h pm i' j').
    { intros i' j'. apply mat_cell_same_block. by apply Hfrc. }
    assert (Hsaved : mat_cell hc pm i j = Some (P i j)) by (rewrite Hpmc; by apply HP).
    destruct (mat_set_full pm i j (fadd (P i j) eps) hc) as (h1 & Hset1 & Hupd1 & Hs1 & Hfr1);
      [by rewrite Hsaved|].
    assert (Hs01 : same_shape h h1) by eauto using same_shape_trans.
    destruct (cost_safe m ti to h1) as (c1 & h2 & Hcost & Hs2);
      [by apply (cost_ready_same_shape h h1)|].
    assert (Hs02 : same_shape h h2) by eauto using same_shape_trans.
    pose proof (writes_outside_cost (fun bk => bk ∉ mat_block <$> [a0 m; a1 m; a2 m]) m ti to
                  (mat_avoids_other_blocks [a0 m; a1 m; a2 m] (a0 m) ltac:(repeat constructor))
                  (mat_avoids_other_blocks [a0 m; a1 m; a2 m] (a1 m) ltac:(repeat constructor))
                  (mat_avoids_other_blocks [a0 m; a1 m; a2 m] (a2 m) ltac:(repeat constructor))
                  h1 c1 h2 Hcost) as Hfr2.
    destruct (mat_set_full pg i j (fdiv (fsub c1 c) eps) h2) as (h3 & Hset3 & Hupd3 & Hs3 & Hfr3).
    { apply (accessible_same_shape h h2 pg Hs02 Hg); lia. }
    assert (Hs03 : same_shape h h3) by eauto using same_shape_trans.
    destruct (mat_set_full pm i j (P i j) h3) as (h4 & Hset4 & Hupd4 & Hs4 & Hfr4).
    { apply (accessible_same_shape h h3 pm Hs03 (reads_accessible _ _ _ HP)); lia. }
    assert (Hbody : (saved <- mat_get pm i j ;;
                     mat_set pm i j (fadd saved eps) ;;
                     c1 <- cost m ti to ;;
                     mat_set pg i j (fdiv (fsub c1 c) eps) ;;
                     mat_set pm i j saved) hc = Ok (tt, h4)).
    { rewrite (bind_ok _ _ _ _ _ (mat_get_ok _ _ _ _ _ Hsaved)).
      rewrite (bind_ok _ _ _ _ _ Hset1), (bind_ok _ _ _ _ _ Hcost), (bind_ok _ _ _ _ _ Hset3).
      exact Hset4. }
    exists h4. split; [exact Hbody|].
    assert (Hfr4c : forall bk, bk ∉ Bfull -> h4 !! bk = hc !! bk).
    { apply (finite_diff_slot_restored (fun bk => bk ∉ Bfull) m pm pg ti to eps c i j
               (mat_avoids_other_blocks [a0 m; a1 m; a2 m; pg] (a0 m) ltac:(repeat constructor))
               (mat_avoids_other_blocks [a0 m; a1 m; a2 m; pg] (a1 m) ltac:(repeat constructor))
               (mat_avoids_other_blocks [a0 m; a1 m; a2 m; pg] (a2 m) ltac:(repeat constructor))
               (mat_avoids_other_blocks [a0 m; a1 m; a2 m; pg] pg ltac:(repeat constructor))
               hc tt h4 Hbody). }
    assert (Hpg43 : forall i' j', mat_cell h4 pg i' j' = mat_cell h3 pg i' j').
    { intros i' j'. apply mat_cell_same_block. by apply Hfr4. }
    assert (Hpg2c : forall i' j', mat_cell h2 pg i' j' = mat_cell hc pg i' j').
    { intros i' j'. apply mat_cell_same_block. rewrite (Hfr2 _ Hbg). by apply Hfr1. }
    split; [by eapply same_shape_trans|]. split.
    { intros bk Hbk. rewrite (Hfr4c bk Hbk). by apply Hfrc. }
    intros i' j' Hi' Hj' Hlt.
    assert (Hi'g : i' < rows pg) by lia. assert (Hj'g : j' < cols pg) by lia.
    rewrite Hpg43.
    rewrite (mat_cell_updated h2 h3 pg i j (fdiv (fsub c1 c) eps) i' j' Hwg
               ltac:(lia) Hi'g ltac:(lia) Hj'g Hupd3)
      by (by apply (accessible_same_shape h h2 pg Hs02 Hg)).
    destruct (decide (i' = i /\ j' = j)) as [[-> ->]|Hne].
    + exists h1, c1, h2. split; [|split; [|split; [exact Hcost|done]]].
      * intros i2 j2 Hi2 Hj2.
        rewrite (mat_cell_updated hc h1 pm i j (fadd (P i j) eps) i2 j2 Hwm Hi Hi2 Hj Hj2 Hupd1)
          by (rewrite Hpmc; by rewrite (HP i2 j2 Hi2 Hj2)).
        case_decide; [done|]. rewrite Hpmc. by apply HP.
      * intros bk Hbk. cbn in Hbk.
        repeat (apply not_elem_of_cons in Hbk as [? Hbk]).
        rewrite Hfr1 by done. apply Hfrc. unfold Bfull. cbn.
        repeat (apply not_elem_of_cons; split; [done|]). apply not_elem_of_nil.
    + rewrite Hpg2c. apply Hqc; [done..|].
      assert (i' * cols pm + j' <> i * cols pm + j); [|lia].
      intros E. apply Hne. by eapply grid_index_inj.
  - exists h'. split; [done|]. split; [done|]. split; [done|].
    intros i j Hi Hj. apply Hq'; [done..|]. by apply grid_index_bound.
Qed.

End Slots.

Section CostValue.
Context {F : Type} {FO : FloatOps F}.
Implicit Types (h : gmap nat (option (list F))) (m : Xor) (mt : Mat).

(** ** What [cost] checks and what it returns *)

(** The first iteration of [cost] stops at the first assertion of [mat_copy]
    unless [a0] has one row, as the row views of [ti] have. *)
Lemma cost_needs_one_row m ti to h :
  rows ti = rows to -> cols to = cols (a2 m) -> cols ti = cols (a0 m) ->
  0 < rows ti -> rows (a0 m) <> 1 -> cost m ti to h = Err AssertFailed.
Proof.
  intros Hrows Hout Hin Hpos Hone. unfold cost.
  rewrite (bind_ok _ _ _ _ _ (assert_true _ h (proj2 (Nat.eqb_eq _ _) Hrows))).
  rewrite (bind_ok _ _ _ _ _ (assert_true _ h (proj2 (Nat.eqb_eq _ _) Hout))).
  rewrite (bind_ok _ _ _ _ _ (assert_true _ h (proj2 (Nat.eqb_eq _ _) Hin))).
  apply bind_err. unfold fold_range. destruct (rows ti) as [|n]; [lia|]. cbn [seq fold_each].
  apply bind_err. apply bind_err. unfold mat_copy. apply bind_err.
  apply assert_false. cbn. by apply Nat.eqb_neq.
Qed.

Lemma cost_shape_mismatch m ti to h :
  rows ti <> rows to \/ cols to <> cols (a2 m) \/ cols ti <> cols (a0 m) ->
  cost m ti to h = Err AssertFailed.
Proof.
  intros Hbad. unfold cost.
  destruct (decide (rows ti = rows to)) as [Hrows|Hrows].
  2:{ by rewrite (bind_err _ _ _ _ (assert_false _ h (proj2 (Nat.eqb_neq _ _) Hrows))). }
  rewrite (bind_ok _ _ _ _ _ (assert_true _ h (proj2 (Nat.eqb_eq _ _) Hrows))).
  destruct (decide (cols to = cols (a2 m))) as [Hout|Hout].
  2:{ by rewrite (bind_err _ _ _ _ (assert_false _ h (proj2 (Nat.eqb_neq _ _) Hout))). }
  rewrite (bind_ok _ _ _ _ _ (assert_true _ h (proj2 (Nat.eqb_eq _ _) Hout))).
  destruct (decide (cols ti = cols (a0 m))) as [Hin|Hin]; [tauto|].
  by rewrite (bind_err _ _ _ _ (assert_false _ h (proj2 (Nat.eqb_neq _ _) Hin))).
Qed.

(** The inner loop of [cost] reads and leaves the heap as it is. *)
Lemma cost_row_error (out y : Mat) h (Y T : nat -> nat -> F) q c :
  0 < rows out -> q <= cols out -> 0 < rows y -> q <= cols y ->
  reads h out Y -> reads h y T ->
  fold_range q (fun j c0 =>
      o <- mat_get out 0 j ;;
      e <- mat_get y 0 j ;;
      ret (fadd c0 (fmul (fsub o e) (fsub o e)))) c h
  = Ok (row_error (Y 0) (T 0) q c, h).
Proof.
  intros Hro Hco Hry Hcy HY HT. unfold fold_range, row_error.
  assert (Hgen : forall n s c1, s + n <= q ->
    fold_each (seq s n) (fun j c0 =>
      o <- mat_get out 0 j ;;
      e <- mat_get y 0 j ;;
      ret (fadd c0 (fmul (fsub o e) (fsub o e)))) c1 h
    = Ok (fold_left (fun acc j => fadd acc (fmul (fsub (Y 0 j) (T 0 j)) (fsub (Y 0 j) (T 0 j))))
            (seq s n) c1, h)).
  { induction n as [|n IH]; intros s c1 Hle; cbn; [done|].
    erewrite bind_ok; [apply IH; lia|].
    rewrite (bind_ok _ _ _ _ _ (mat_get_ok out 0 s h _ (HY 0 s Hro ltac:(lia)))).
    by rewrite (bind_ok _ _ _ _ _ (mat_get_ok y 0 s h _ (HT 0 s Hry ltac:(lia)))). }
  apply Hgen. lia.
Qed.

(** Shapes that fit, row-major activations in blocks of their own: a
    network [forward_xor] computes on. *)
Lemma activations_apart_wf m ti to :
  net_shapes m -> well_strided (a1 m) -> well_strided (a2 m) ->
  activations_apart m ti to -> net_wf m.
Proof.
  intros Hsh Hw1 Hw2 [Hnd Hout]. cbn in Hnd, Hout.
  repeat (apply NoDup_cons in Hnd as [? Hnd]).
  repeat match goal with H : _ ∉ _ :: _ |- _ => apply not_elem_of_cons in H as [? ?] end.
  repeat (apply Forall_cons in Hout as [? Hout]).
  repeat match goal with H : _ ∉ _ :: _ |- _ => apply not_elem_of_cons in H as [? ?] end.
  split; [done..| |]; repeat constructor; apply separate_blocks; congruence.
Qed.

End CostValue.

(** What [cost] returns, and what it leaves. *)
Lemma cost_spec {F : Type} {FO : FloatOps F}
    (m : Xor) (ti to : Mat) (h : gmap nat (option (list F)))
    (TI TO W1 B1 W2 B2 X1 X2 : nat -> nat -> F) :
  net_shapes m -> rows (a0 m) = 1 ->
  rows ti = rows to -> cols to = cols (a2 m) -> cols ti = cols (a0 m) ->
  well_strided (a0 m) -> well_strided (a1 m) -> well_strided (a2 m) ->
  well_strided ti -> well_strided to ->
  activations_apart m ti to ->
  accessible h (a0 m) -> reads h (a1 m) X1 -> reads h (a2 m) X2 ->
  reads h (w1 m) W1 -> reads h (b1 m) B1 -> reads h (w2 m) W2 -> reads h (b2 m) B2 ->
  reads h ti TI -> reads h to TO ->
  exists h', cost m ti to h
    = Ok (fdiv (cost_rows W1 B1 W2 B2 TI TO (cols (a0 m)) (cols (a1 m)) (cols to)
                  (seq 0 (rows ti)) X1 X2 fzero) (of_size (rows ti)), h') /\
    (forall bk, bk ∉ mat_block <$> [a0 m; a1 m; a2 m] -> h' !! bk = h !! bk).
Proof.
  intros Hsh Hone Hrows Hout Hin Hs0 Hs1 Hs2 Hsti Hsto Hapart Ha0 HX1 HX2 HW1 HB1 HW2 HB2 HTI HTO.
  pose proof (activations_apart_wf m ti to Hsh Hs1 Hs2 Hapart) as Hwf.
  destruct Hapart as [Hnd Hparts].
  set (Bact := mat_block <$> [a0 m; a1 m; a2 m]) in *.
  assert (Hpart : forall mt, mt ∈ [w1 m; b1 m; w2 m; b2 m; ti; to] -> mat_block mt ∉ Bact).
  { by apply Forall_forall. }
  unfold Bact in Hnd. cbn in Hnd.
  apply NoDup_cons in Hnd as [Hn0 Hnd]. apply NoDup_cons in Hnd as [Hn1 _].
  apply not_elem_of_cons in Hn0 as [Hb01 Hn0]. apply not_elem_of_cons in Hn0 as [Hb02 _].
  apply not_elem_of_cons in Hn1 as [Hb12 _].
  assert (Hrows_a2 : 0 < rows (a2 m)).
  { destruct Hsh as [(_ & Hr1 & _) _ (_ & Hr2 & _) _]. lia. }
  unfold cost.
  rewrite (bind_ok _ _ _ _ _ (assert_true _ h (proj2 (Nat.eqb_eq _ _) Hrows))).
  rewrite (bind_ok _ _ _ _ _ (assert_true _ h (proj2 (Nat.eqb_eq _ _) Hout))).
  rewrite (bind_ok _ _ _ _ _ (assert_true _ h (proj2 (Nat.eqb_eq _ _) Hin))).
  set (body := fun (i : nat) (c : F) =>
    mat_copy (a0 m) (mat_row ti i) ;;
    forward_xor m ;;
    fold_range (cols to) (fun j c0 =>
      o <- mat_get (a2 m) 0 j ;;
      e <- mat_get (mat_row to i) 0 j ;;
      ret (fadd c0 (fmul (fsub o e) (fsub o e)))) c).
  assert (Hloop : forall n s hc Y1 Y2 c, s + n <= rows ti ->
    accessible hc (a0 m) -> reads hc (a1 m) Y1 -> reads hc (a2 m) Y2 ->
    (forall bk, bk ∉ Bact -> hc !! bk = h !! bk) ->
    exists h', fold_each (seq s n) body c hc
      = Ok (cost_rows W1 B1 W2 B2 TI TO (cols (a0 m)) (cols (a1 m)) (cols to)
              (seq s n) Y1 Y2 c, h') /\
      (forall bk, bk ∉ Bact -> h' !! bk = h !! bk)).
  { induction n as [|n IH]; intros s hc Y1 Y2 c Hle Hc0 Hc1 Hc2 Hfr; cbn [seq fold_each cost_rows].
    { by exists hc. }
    assert (Hkeep : forall mt V, mat_block mt ∉ Bact -> reads h mt V -> reads hc mt V).
    { intros mt V Hmt. apply reads_same_block. by apply Hfr. }
    (* mat_copy *)
    destruct (mat_copy_spec (a0 m) (mat_row ti s) hc (fun _ k => TI s k))
      as (h1 & Hcopy & Hr10 & Hout1).
    { by rewrite Hone. } { by cbn. } { done. }
    { apply separate_blocks. rewrite mat_block_row.
      intros E. apply (Hpart ti); [repeat constructor|].
      rewrite <- E. unfold Bact. cbn. repeat constructor. }
    { done. }
    { apply reads_row; [done|lia|]. apply Hkeep; [|done]. apply Hpart. repeat constructor. }
    pose proof (writes_outside_mat_copy (fun bk => bk ∉ mat_block <$> [a0 m])
                  (a0 m) (mat_row ti s)
                  (mat_avoids_other_blocks [a0 m] (a0 m) ltac:(repeat constructor))
                  hc tt h1 Hcopy) as Hfr1.
    assert (Hkeep1 : forall mt V, mat_block mt <> mat_block (a0 m) ->
              reads hc mt V -> reads h1 mt V).
    { intros mt V Hmt. apply reads_same_block. apply Hfr1. cbn.
      apply not_elem_of_cons. split; [done|apply not_elem_of_nil]. }
    assert (Hnot0 : forall mt, mat_block mt ∉ Bact -> mat_block mt <> mat_block (a0 m)).
    { intros mt Hmt E. apply Hmt. rewrite E. unfold Bact. cbn. repeat constructor. }
    (* forward_xor *)
    destruct (forward_xor_spec m h1 (fun _ k => TI s k) Y1 Y2 W1 B1 W2 B2 Hwf)
      as (h2 & Hfw & Hr21 & Hr22 & Hr20 & _); try done;
      try (apply Hkeep1; [congruence|done]);
      try (apply Hkeep1; [apply Hnot0|apply Hkeep; [|done]]; apply Hpart; repeat constructor).
    pose proof (writes_outside_forward_xor (fun bk => bk ∉ mat_block <$> [a1 m; a2 m]) m
                  (mat_avoids_other_blocks [a1 m; a2 m] (a1 m) ltac:(repeat constructor))
                  (mat_avoids_other_blocks [a1 m; a2 m] (a2 m) ltac:(repeat constructor))
                  h1 tt h2 Hfw) as Hfr2.
    assert (Hfr02 : forall bk, bk ∉ Bact -> h2 !! bk = h !! bk).
    { intros bk Hbk. unfold Bact in Hbk. cbn in Hbk.
      repeat (apply not_elem_of_cons in Hbk as [? Hbk]).
      rewrite Hfr2, Hfr1.
      - apply Hfr. unfold Bact. cbn.
        repeat (apply not_elem_of_cons; split; [done|]). apply not_elem_of_nil.
      - cbn. apply not_elem_of_cons. split; [done|apply not_elem_of_nil].
      - cbn. repeat (apply not_elem_of_cons; split; [done|]). apply not_elem_of_nil. }
    (* the error of this row *)
    assert (Hto2 : reads h2 (mat_row to s) (fun _ j => TO s j)).
    { apply reads_row; [done|lia|].
      apply (reads_same_block h h2); [|done]. apply Hfr02, Hpart. repeat constructor. }
    pose proof (cost_row_error (a2 m) (mat_row to s) h2
                  (layer (layer (fun _ k => TI s k) W1 B1 (cols (a0 m)) Y1) W2 B2
                         (cols (a1 m)) Y2)
                  (fun _ j => TO s j) (cols to) c
                  Hrows_a2 ltac:(lia) ltac:(cbn; lia) ltac:(cbn; lia) Hr22 Hto2) as Herr.
    destruct (IH (S s) h2
                (layer (fun _ k => TI s k) W1 B1 (cols (a0 m)) Y1)
                (layer (layer (fun _ k => TI s k) W1 B1 (cols (a0 m)) Y1) W2 B2
                       (cols (a1 m)) Y2)
                (row_error
                (layer (layer (fun _ k => TI s k) W1 B1 (cols (a0 m)) Y1) W2 B2
                       (cols (a1 m)) Y2 0) (TO s) (cols to) c))
      as (h' & Hrest & Hfr'); [lia|by eapply reads_accessible|done..|].
    exists h'. split; [|done].
    unfold body at 1. rewrite <- Hrest.
    unfold bind at 1. unfold bind at 1. rewrite Hcopy. unfold bind at 1. rewrite Hfw.
    by rewrite Herr. }
  destruct (Hloop (rows ti) 0 h X1 X2 fzero) as (h' & Hrun & Hfr'); [lia|done..|].
  exists h'. split; [|done]. unfold fold_range. by rewrite (bind_ok _ _ _ _ _ Hrun).
Qed.

Section CostResult.
Context {F : Type} {FO : FloatOps F}.



End CostResult.

(** ** Binary32 as scalars: signs

    Rounding keeps the sign it is given, so a sum of squares is never
    negative, whatever the operands. *)








(** ** The reals as scalars

    Exact arithmetic.  What is proved of it about values (as opposed to
    structure) need not survive rounding: in binary32 [1.f + expf(-x)] is
    [1.f] as soon as [expf(-x)] is below [2^-25], so [sigmoidf] returns
    exactly [1.f] there. *)

Lemma R_ExactAdd : ExactAdd R.
Proof.
  split; cbn; intros.
  - apply Rplus_assoc.
  - apply Rplus_0_l.
  - apply Rplus_0_r.
  - lra.
Qed.

(** Over the reals [sigmoidf] is the logistic function, strictly between [0]
    and [1] and strictly increasing. *)
Lemma sigmoidf_R (x : R) : sigmoidf x = (1 / (1 + exp (- x)))%R.
Proof. unfold sigmoidf; cbn. by rewrite Rexp_unseal. Qed.

Lemma sigmoidf_R_bounds (x : R) : (0 < sigmoidf x < 1)%R.
Proof.
  rewrite sigmoidf_R. pose proof (exp_pos (- x)) as He.
  split.
  - apply Rdiv_lt_0_compat; lra.
  - apply (Rmult_lt_reg_r (1 + exp (- x))); [lra|].
    unfold Rdiv. rewrite Rmult_assoc, Rinv_l by lra. lra.
Qed.

Lemma sigmoidf_R_increasing (x y : R) : (x < y)%R -> (sigmoidf x < sigmoidf y)%R.
Proof.
  intros Hxy. rewrite !sigmoidf_R.
  pose proof (exp_pos (- x)) as Hx. pose proof (exp_pos (- y)) as Hy.
  assert (exp (- y) < exp (- x))%R by (apply exp_increasing; lra).
  unfold Rdiv. rewrite !Rmult_1_l. apply Rinv_lt_contravar; [|lra].
  apply Rmult_lt_0_compat; lra.
Qed.



(** Checking the cells and the layout of a concrete matrix, and that two
    concrete matrices lie in different blocks. *)
Ltac solve_cells :=
  let i := fresh "i" in let j := fresh "j" in
  intros i j ? ?; cbn in *;
  repeat (destruct i as [|i]; [|try lia]);
  repeat (destruct j as [|j]; [|try lia]);
  vm_compute; eauto.

Ltac solve_strided := split; [cbn; lia | by vm_compute].

Ltac solve_slots :=
  let i := fresh "i" in let j := fresh "j" in
  intros i j ? ?; cbn in *;
  repeat (destruct i as [|i]; [|try lia]);
  repeat (destruct j as [|j]; [|try lia]);
  split; vm_compute; eauto.

Ltac solve_cost_ready :=
  split;
    [ split; cbn; repeat split; lia
    | reflexivity | reflexivity | reflexivity | reflexivity
    | repeat constructor; solve_cells
    | split; [solve_cells | solve_strided]
    | split; [solve_cells | solve_strided] ].

Ltac solve_separate :=
  let E := fresh in let E' := fresh in
  intros ? (? & ? & _ & _ & E) (? & ? & _ & _ & E');
  cbn in E, E'; congruence.

(** Checking that a concrete matrix lies outside the parameter blocks of a
    concrete network. *)
Ltac solve_avoids :=
  let Eq := fresh in let Hin := fresh in let Eq' := fresh in let Eb := fresh in
  intros ? Eq (? & ? & Hin & Eq' & Eb);
  cbn in Eq; injection Eq as <-;
  repeat (apply elem_of_cons in Hin as [->|Hin];
          [cbn in Eq'; injection Eq' as <-; cbn in Eb; discriminate|]);
  by apply elem_of_nil in Hin.

Ltac solve_net_wf :=
  split; [split; cbn; repeat split; lia
         | solve_strided | solve_strided
         | repeat constructor; solve_separate
         | repeat constructor; solve_separate].

(** ** The claims *)

(** C1 (the code breaks it).  Even when the allocator leaves a spare cell
    after [b1], so that no access faults, [finite_diff] returns with
    [g.b1[0][1]] holding what the buffer held before the call: the gradient
    slot of the second bias is never set. *)
Theorem finite_diff_never_sets_second_bias {F : Type} {FO : FloatOps F}
    (jm jg : XorJunk) (eps : F) :
  eval (mg <- main_alloc_padded jm jg ;;
        finite_diff mg.1 mg.2 ti to eps ;;
        mat_get (b1 mg.2) 0 1) td_heap
  = Ok (j_b1 jg 1).
Proof. vm_compute. reflexivity. Qed.

(** C2 (the code breaks it).  On the networks [main] allocates, [b1] is
    [1 x 2] in a buffer of two cells, and both [finite_diff] and [xor_learn]
    run [i] to [cols] and [j] to [rows]: [cost] and the [w1] loop nest of
    [finite_diff] return, then [MAT_AT(b1, 1, 0)] is cell [2] of that buffer
    and the access faults, whatever the buffers hold. *)
Theorem param_loops_leave_b1_buffer {F : Type} {FO : FloatOps F}
    (jm jg : XorJunk) (eps rate : F) :
  exists m g h0,
    main_alloc jm jg td_heap = Ok ((m, g), h0) /\
    rows (b1 m) = 1 /\ cols (b1 m) = 2 /\
    h0 !! mat_block (b1 m) = Some (Some [j_b1 jm 0; j_b1 jm 1]) /\
    MAT_AT (b1 m) 1 0 = 2 /\
    succeeds (c <- cost m ti to ;;
              finite_diff_slots m (w1 m) (w1 g) ti to eps c) h0 = true /\
    finite_diff m g ti to eps h0 = Err OutOfBounds /\
    xor_learn m g rate h0 = Err OutOfBounds.
Proof.
  do 3 eexists. split; [vm_compute; reflexivity|].
  repeat split; vm_compute; reflexivity.
Qed.

(** C3 (the code breaks it).  With the same spare cell, [xor_learn] returns
    having updated [b1[0][0]] by [- rate * g.b1[0][0]], left [b1[0][1]] as
    it was, and updated the spare cell [MAT_AT(b1, 1, 0)] instead: the second
    bias is never updated. *)
Theorem xor_learn_never_updates_second_bias {F : Type} {FO : FloatOps F}
    (jm jg : XorJunk) (rate : F) :
  eval (mg <- main_alloc_padded jm jg ;;
        xor_learn mg.1 mg.2 rate ;;
        x0 <- mat_get (b1 mg.1) 0 0 ;;
        x1 <- mat_get (b1 mg.1) 0 1 ;;
        x2 <- mat_get (b1 mg.1) 1 0 ;;
        ret (x0, x1, x2)) td_heap
  = Ok (fsub (j_b1 jm 0) (fmul rate (j_b1 jg 0)),
        j_b1 jm 1,
        fsub (j_b1 jm 2) (fmul rate (j_b1 jg 2))).
Proof. vm_compute. reflexivity. Qed.

(** C4 as stated fails.  On a freshly allocated network whose buffers all hold
    zeros (input, parameters and activations), the first [forward_xor] leaves
    [a2 = sigmoidf 0 = 1/2]; the second starts from that stale [a2] and from
    the stale [a1], and leaves [a2 = sigmoidf (1/2)], about [0.62].  The
    values are computed in exact arithmetic; they are too far apart for
    rounding to make them equal. *)
Lemma forward_xor_twice_differs :
  exists v1 v2 : R,
    eval (m <- xor_alloc (granted zero_junk) ;;
          forward_xor m ;;
          v1 <- mat_get (a2 m) 0 0 ;;
          forward_xor m ;;
          v2 <- mat_get (a2 m) 0 0 ;;
          ret (v1, v2)) ∅ = Ok (v1, v2) /\ v1 <> v2.
Proof.
  do 2 eexists. split; [vm_compute; reflexivity|].
  set (z := (0 + 0 * 0 + 0 * 0 + 0)%R).
  set (y := (sigmoidf z + 0 * 0 + 0 * 0 + 0)%R).
  change (sigmoidf (0 + sigmoidf z * 0 + sigmoidf z * 0 + 0)
          <> sigmoidf (sigmoidf (0 + sigmoidf z * 0 + sigmoidf z * 0 + 0)
                       + sigmoidf y * 0 + sigmoidf y * 0 + 0))%R.
  replace (0 + sigmoidf z * 0 + sigmoidf z * 0 + 0)%R with 0%R by ring.
  replace (sigmoidf 0 + sigmoidf y * 0 + sigmoidf y * 0 + 0)%R
    with (sigmoidf 0%R) by ring.
  pose proof (sigmoidf_R_bounds 0) as [Hpos _].
  pose proof (sigmoidf_R_increasing 0 (sigmoidf 0%R) Hpos). lra.
Qed.

(** C4 (amended).  For a network whose shapes fit and whose activation
    matrices [a1], [a2] share no cell with any other of its matrices: when [a1]
    and [a2] are zeroed before each call, [forward_xor] run twice with the
    same input [a0] and the same parameters returns both times, and [a2] holds
    after the second call exactly what it held after the first. *)
Theorem forward_xor_repeatable_after_reset {F : Type} {FO : FloatOps F}
    (m : Xor) (h : gmap nat (option (list F))) :
  net_wf m -> Forall (accessible h) (xor_mats m) ->
  exists h1 h2,
    (reset_activations m ;; forward_xor m) h = Ok (tt, h1) /\
    (reset_activations m ;; forward_xor m) h1 = Ok (tt, h2) /\
    forall i j, i < rows (a2 m) -> j < cols (a2 m) ->
      is_Some (mat_cell h1 (a2 m) i j) /\
      mat_cell h2 (a2 m) i j = mat_cell h1 (a2 m) i j.
Proof.
  intros Hwf Hacc. unfold xor_mats in Hacc.
  apply Forall_cons in Hacc as [H0 Hacc]. apply Forall_cons in Hacc as [H1 Hacc].
  apply Forall_cons in Hacc as [H2 Hacc]. apply Forall_cons in Hacc as [Hw1 Hacc].
  apply Forall_cons in Hacc as [Hb1 Hacc]. apply Forall_cons in Hacc as [Hw2 Hacc].
  apply Forall_cons in Hacc as [Hb2 _].
  destruct (reset_forward_spec m h (entry h (a0 m)) (entry h (w1 m)) (entry h (b1 m))
              (entry h (w2 m)) (entry h (b2 m)) Hwf)
    as (h1 & Hrun1 & HY1 & HZ1 & HA1 & HW1 & HB1 & HW2 & HB2);
    auto using accessible_reads.
  destruct (reset_forward_spec m h1 (entry h (a0 m)) (entry h (w1 m)) (entry h (b1 m))
              (entry h (w2 m)) (entry h (b2 m)) Hwf)
    as (h2 & Hrun2 & _ & HZ2 & _); eauto using reads_accessible.
  exists h1, h2. split; [done|]. split; [done|].
  intros i j Hi Hj. rewrite (HZ1 i j Hi Hj), (HZ2 i j Hi Hj). eauto.
Qed.

(** [forward_xor_repeatable_after_reset] on the network [xor_alloc] builds. *)
Lemma forward_xor_repeatable_after_reset_witness :
  exists m h0, xor_alloc (granted zero_junk) (∅ : gmap nat (option (list R))) = Ok (m, h0) /\
    exists h1 h2,
      (reset_activations m ;; forward_xor m) h0 = Ok (tt, h1) /\
      (reset_activations m ;; forward_xor m) h1 = Ok (tt, h2) /\
      mat_cell h2 (a2 m) 0 0 = mat_cell h1 (a2 m) 0 0.
Proof.
  do 2 eexists. split; [vm_compute; reflexivity|].
  match goal with |- exists h1 h2, bind _ (fun _ => forward_xor ?m) ?h0 = _ /\ _ =>
    destruct (forward_xor_repeatable_after_reset m h0) as (h1 & h2 & Hrun1 & Hrun2 & Hsame)
  end.
  - solve_net_wf.
  - repeat constructor; solve_cells.
  - exists h1, h2. split; [exact Hrun1|]. split; [exact Hrun2|].
    apply (Hsame 0 0); cbn; lia.
Defined.

(** C5 as stated fails, in binary32 and whatever [expf] is.
    - The shape preconditions allow [dst] to be [a] or [b]: on a [2 x 2]
      matrix of ones, [mat_dot(sq, sq, sq)] leaves [3 8 8 4290], where the
      old value plus the product term is [3] in every entry.
    - For three separate matrices, [dst = [2^24]], [a = [1 1]], [b = [1; 1]]:
      the loop adds [1] twice and each sum rounds back to [2^24], so [dst]
      is unchanged, while the old value plus the product term [2] is
      [2^24 + 2].
    - With [dst = [2^-30]] instead, the first sum rounds to [1] and [dst] ends
      as [2], the dense product, although it was not zero before. *)
Lemma mat_dot_is_not_old_plus_product :
  (forall e : spec_float -> spec_float,
     eval
       (mat_dot (FO := binary32 e) sq32 sq32 sq32 ;;
        x00 <- mat_get sq32 0 0 ;; x01 <- mat_get sq32 0 1 ;;
        x10 <- mat_get sq32 1 0 ;; x11 <- mat_get sq32 1 1 ;;
        ret [x00; x01; x10; x11]) sq32_heap
     = Ok [b32 3; b32 8; b32 8; b32 4290] /\
     forall i j,
       fadd (FloatOps := binary32 e) (b32 1)
         (dot_product (FO := binary32 e) (fun _ _ => b32 1) (fun _ _ => b32 1) 2 i j)
       = b32 3) /\
  (forall e : spec_float -> spec_float,
     eval (mat_dot (FO := binary32 e) ex_dst ex_a ex_b ;; mat_get ex_dst 0 0) big32_heap
     = Ok (b32 16777216) /\
     fadd (FloatOps := binary32 e) (b32 16777216)
       (dot_product (FO := binary32 e) (fun _ _ => b32 1) (fun _ _ => b32 1) 2 0 0)
     = b32 16777218 /\
     b32 16777216 <> b32 16777218) /\
  (forall e : spec_float -> spec_float,
     eval (mat_dot (FO := binary32 e) ex_dst ex_a ex_b ;; mat_get ex_dst 0 0) tiny32_heap
     = Ok (dot_product (FO := binary32 e) (fun _ _ => b32 1) (fun _ _ => b32 1) 2 0 0) /\
     S754_finite false 8388608 (-53) <> fzero (FloatOps := binary32 e)).
Proof.
  split; [|split]; intros e.
  - split; [vm_compute; reflexivity|]. intros i j. vm_compute. reflexivity.
  - split; [vm_compute; reflexivity|]. split; [vm_compute; reflexivity|].
    vm_compute. discriminate.
  - split; [vm_compute; reflexivity|]. discriminate.
Qed.

(** C5 (amended).  [mat_dot(dst, a, b)] accumulates rather than overwrites.
    Under the shape preconditions, for accessible matrices with [dst] laid
    out row-major and sharing no cell with [a] or [b]: the call returns, and
    every entry [dst[i][j]] then holds its value before the call with the
    terms [a[i][k] * b[k][j]], [k = 0 .. a.cols - 1], added to it one after
    the other in that order, each sum in the arithmetic of [float].  When
    [dst] was all zeros this is the dense product, summed in the same order.
    Only where addition is exact is the entry the old value plus the product
    term, and equal to the product term only when the old value was zero. *)
Theorem mat_dot_accumulates {F : Type} {FO : FloatOps F}
    (dst a b : Mat) (h : gmap nat (option (list F))) (D A B : nat -> nat -> F) :
  cols a = rows b -> rows dst = rows a -> cols dst = cols b ->
  well_strided dst ->
  separate dst a -> separate dst b ->
  reads h dst D -> reads h a A -> reads h b B ->
  exists h', mat_dot dst a b h = Ok (tt, h') /\
    reads h' dst (fun i j => dot_acc A B (cols a) i j (D i j)) /\
    ((forall i j, D i j = fzero) -> reads h' dst (dot_product A B (cols a))) /\
    (ExactAdd F -> forall i j,
       dot_acc A B (cols a) i j (D i j) = fadd (D i j) (dot_product A B (cols a) i j) /\
       (dot_acc A B (cols a) i j (D i j) = dot_product A B (cols a) i j <-> D i j = fzero)).
Proof.
  intros Hn Hr Hc Hs Hsa Hsb HD HA HB.
  destruct (mat_dot_spec dst a b h D A B Hn Hr Hc Hs Hsa Hsb HD HA HB) as (h' & Hrun & Hd & _).
  exists h'. split; [done|]. split; [done|]. split.
  - intros Hz i j Hi Hj. rewrite (Hd i j Hi Hj). unfold dot_product. by rewrite Hz.
  - intros E i j. rewrite (dot_acc_exact A B (cols a) i j (D i j) E). split; [done|]. split.
    + apply (fadd_cancel_r F E).
    + intros ->. apply (fadd_zero_l F E).
Qed.

(** [mat_dot_accumulates] on [ex_dst += ex_a * ex_b]: the entry [5] becomes
    [5 + (2 * 4 + 3 * 6)]. *)
Lemma mat_dot_accumulates_witness :
  exists h', mat_dot ex_dst ex_a ex_b ex_heap = Ok (tt, h') /\
    mat_cell h' ex_dst 0 0 = Some (5 + (0 + 2 * 4 + 3 * 6))%R.
Proof.
  destruct (mat_dot_accumulates ex_dst ex_a ex_b ex_heap
              (entry ex_heap ex_dst) (entry ex_heap ex_a) (entry ex_heap ex_b))
    as (h' & Hrun & Hd & _ & Hex);
    [reflexivity | reflexivity | reflexivity | solve_strided
    | solve_separate | solve_separate
    | solve_cells | solve_cells | solve_cells |].
  exists h'. split; [exact Hrun|].
  rewrite (Hd 0 0) by (cbn; lia).
  rewrite (proj1 (Hex R_ExactAdd 0 0)). vm_compute. reflexivity.
Defined.

(** C6. [finite_diff] leaves the trainable parameters as it found them.  When
    the activations of [m] and the matrices of [g] lie outside the blocks of
    [w1 m], [b1 m], [w2 m], [b2 m]: whenever the call returns, every such
    block holds exactly what it held before the call, so every position
    [finite_diff] perturbed reads as before (each [+= eps] was undone by
    storing the saved value); and the call does return when every cell it
    touches exists. *)
Theorem finite_diff_restores_parameters {F : Type} {FO : FloatOps F}
    (m g : Xor) (ti to : Mat) (eps : F) (h : gmap nat (option (list F))) :
  Forall (mat_avoids (param_block m)) [a0 m; a1 m; a2 m; w1 g; b1 g; w2 g; b2 g] ->
  (forall h', finite_diff m g ti to eps h = Ok (tt, h') ->
     (forall bk, param_block m bk -> h' !! bk = h !! bk) /\
     (forall pm i j, pm ∈ [w1 m; b1 m; w2 m; b2 m] ->
        mat_cell h' pm i j = mat_cell h pm i j)) /\
  (finite_diff_ready h m g ti to ->
     exists h', finite_diff m g ti to eps h = Ok (tt, h')).
Proof.
  intros Hav. split.
  - intros h' Hrun.
    assert (Hblocks : forall bk, param_block m bk -> h' !! bk = h !! bk).
    { repeat (apply Forall_cons in Hav as [? Hav]).
      assert (W : writes_outside (param_block m) (finite_diff m g ti to eps)).
      { unfold finite_diff.
        apply writes_outside_bind; [by apply writes_outside_cost|intros c].
        repeat (apply writes_outside_bind; [by apply writes_outside_finite_diff_slots|intros _]).
        by apply writes_outside_finite_diff_slots. }
      exact (W h tt h' Hrun). }
    split; [done|].
    intros pm i j Hpm. unfold mat_cell, addr. destruct (es pm) as [q|] eqn:Eq; [|done].
    unfold cell_at; cbn. rewrite (Hblocks (blk q)); [done|]. by exists pm, q.
  - intros Hready. destruct (finite_diff_safe m g ti to eps h Hready) as (h' & Hrun & _).
    eauto.
Qed.

(** [finite_diff_restores_parameters] on the networks of [main], padded by one
    cell after [b1] so that every cell the call touches exists, with
    [eps = 1e-1f]. *)
Lemma finite_diff_restores_parameters_witness :
  exists m g h0,
    main_alloc_padded zero_junk zero_junk (td_heap : gmap nat (option (list R)))
    = Ok ((m, g), h0) /\
    exists h', finite_diff m g ti to (1 / 10)%R h0 = Ok (tt, h') /\
      forall bk, param_block m bk -> h' !! bk = h0 !! bk.
Proof.
  do 3 eexists. split; [vm_compute; reflexivity|].
  match goal with |- exists h', finite_diff ?m ?g _ _ ?eps ?h0 = _ /\ _ =>
    destruct (finite_diff_restores_parameters m g ti to eps h0) as [Hframe Hreturns]
  end.
  - repeat constructor; solve_avoids.
  - destruct Hreturns as (h' & Hrun).
    + split; [solve_cost_ready | solve_slots..].
    + exists h'. split; [exact Hrun|]. apply (Hframe h' Hrun).
Defined.




(** C8 as stated fails.  In binary32 [1.f + expf(-x)] rounds to [1.f] as soon
    as [expf(-x)] is small enough, and [sigmoidf(x)] is then exactly [1.f]:
    not inside the open interval, and the same for different inputs.  This is
    so at [x = 17] and [x = 18] for an [expf] that returns the binary32
    numbers nearest to [e^-17] and [e^-18], and at [x = 200] and [x = 300]
    for an [expf] that underflows to [0]. *)
Lemma sigmoidf_saturates_in_binary32 :
  (forall e : spec_float -> spec_float,
     e (SFopp (b32 17)) = S754_finite false 11652889 (-48) ->
     e (SFopp (b32 18)) = S754_finite false 8573716 (-49) ->
     sigmoidf (FO := binary32 e) (b32 17) = b32 1 /\
     sigmoidf (FO := binary32 e) (b32 18) = b32 1) /\
  (forall e : spec_float -> spec_float,
     e (SFopp (b32 200)) = S754_zero false ->
     e (SFopp (b32 300)) = S754_zero false ->
     sigmoidf (FO := binary32 e) (b32 200) = b32 1 /\
     sigmoidf (FO := binary32 e) (b32 300) = b32 1) /\
  SFltb (b32 17) (b32 18) = true /\ SFltb (b32 200) (b32 300) = true /\
  SFltb (b32 1) (b32 1) = false.
Proof.
  split; [|split; [|by vm_compute]]; intros e E1 E2; unfold sigmoidf; cbn [expf fneg binary32];
    rewrite ?E1, ?E2; by vm_compute.
Qed.

(** C8 (amended).  [mat_sig(m)] on an accessible row-major matrix returns, and
    every entry that held [x] then holds [sigmoidf(x) = 1.f / (1.f + expf(-x))]
    as the arithmetic of [float] evaluates it.  In exact arithmetic this is
    [1 / (1 + e^-x)], which lies strictly inside [(0, 1)] and is strictly
    increasing in [x]. *)
Theorem mat_sig_is_logistic_in_exact_arithmetic :
  (forall (F : Type) (FO : FloatOps F) (dst : Mat) (h : gmap nat (option (list F)))
          (D : nat -> nat -> F),
     well_strided dst -> reads h dst D ->
     exists h', mat_sig dst h = Ok (tt, h') /\
       reads h' dst (fun i j => sigmoidf (D i j))) /\
  (forall x : R, sigmoidf x = (1 / (1 + exp (- x)))%R /\ (0 < sigmoidf x < 1)%R) /\
  (forall x y : R, (x < y)%R -> (sigmoidf x < sigmoidf y)%R).
Proof.
  split; [|split].
  - intros F FO dst h D Hs HD.
    destruct (mat_sig_spec dst h D Hs HD) as (h' & Hrun & Hd & _). by exists h'.
  - intros x. split; [apply sigmoidf_R|apply sigmoidf_R_bounds].
  - apply sigmoidf_R_increasing.
Qed.

(** [mat_sig_is_logistic_in_exact_arithmetic] on [ex_a = [2 3]]. *)
Lemma mat_sig_is_logistic_in_exact_arithmetic_witness :
  exists h', mat_sig ex_a ex_heap = Ok (tt, h') /\
    mat_cell h' ex_a 0 0 = Some (sigmoidf 2%R) /\
    mat_cell h' ex_a 0 1 = Some (sigmoidf 3%R) /\
    (0 < sigmoidf 2 < 1)%R /\ (sigmoidf 2 < sigmoidf 3)%R.
Proof.
  destruct mat_sig_is_logistic_in_exact_arithmetic as (Hsig & Hval & Hmono).
  destruct (Hsig R R_FloatOps ex_a ex_heap (entry ex_heap ex_a))
    as (h' & Hrun & Hd); [solve_strided | solve_cells |].
  exists h'. split; [exact Hrun|].
  split; [rewrite (Hd 0 0) by (cbn; lia); by vm_compute|].
  split; [rewrite (Hd 0 1) by (cbn; lia); by vm_compute|].
  split; [apply Hval|apply Hmono; lra].
Defined.

(** C9. [mat_dot(dst, a, b)] fails an assertion exactly when
    [a.cols != b.rows], [dst.rows != a.rows] or [dst.cols != b.cols]; for
    conforming shapes and accessible matrices it returns without any fault. *)
Theorem mat_dot_shape_check {F : Type} {FO : FloatOps F}
    (dst a b : Mat) (h : gmap nat (option (list F))) :
  (mat_dot dst a b h = Err AssertFailed <->
     cols a <> rows b \/ rows dst <> rows a \/ cols dst <> cols b) /\
  (cols a = rows b -> rows dst = rows a -> cols dst = cols b ->
   accessible h dst -> accessible h a -> accessible h b ->
   exists h', mat_dot dst a b h = Ok (tt, h')).
Proof.
  split.
  - unfold mat_dot.
    destruct (decide (cols a = rows b)) as [Hn|Hn].
    2:{ rewrite (bind_err _ _ _ _ (assert_false _ h (proj2 (Nat.eqb_neq _ _) Hn))). tauto. }
    rewrite (bind_ok _ _ _ _ _ (assert_true _ h (proj2 (Nat.eqb_eq _ _) Hn))).
    destruct (decide (rows dst = rows a)) as [Hr|Hr].
    2:{ rewrite (bind_err _ _ _ _ (assert_false _ h (proj2 (Nat.eqb_neq _ _) Hr))). tauto. }
    rewrite (bind_ok _ _ _ _ _ (assert_true _ h (proj2 (Nat.eqb_eq _ _) Hr))).
    destruct (decide (cols dst = cols b)) as [Hc|Hc].
    2:{ rewrite (bind_err _ _ _ _ (assert_false _ h (proj2 (Nat.eqb_neq _ _) Hc))). tauto. }
    rewrite (bind_ok _ _ _ _ _ (assert_true _ h (proj2 (Nat.eqb_eq _ _) Hc))).
    split; [|tauto]. intros Habs. by apply no_abort_mat_dot_loops in Habs.
  - intros Hn Hr Hc Hd Ha Hb.
    destruct (mat_dot_completes dst a b h Hn Hr Hc Hd Ha Hb) as (h' & Hrun & _). eauto.
Qed.

(** [mat_dot_shape_check] on the same matrices, and on a [1 x 2] destination
    that does not fit the [1 x 1] product. *)
Lemma mat_dot_shape_check_witness :
  (exists h', mat_dot ex_dst ex_a ex_b ex_heap = Ok (tt, h')) /\
  mat_dot ex_a ex_a ex_b ex_heap = Err AssertFailed.
Proof.
  split.
  - apply (proj2 (mat_dot_shape_check ex_dst ex_a ex_b ex_heap));
      [reflexivity | reflexivity | reflexivity | solve_cells..].
  - apply (proj1 (mat_dot_shape_check ex_a ex_a ex_b ex_heap)). cbn. lia.
Defined.

(** C10. Release leaves a defined state.  [mat_free] on an owning matrix
    returns the matrix [{0, 0, 0, NULL}] and frees its buffer, touching no
    other block.  [xor_free] on a network owning seven distinct live buffers
    returns with all seven matrices in that state, the flag cleared and each
    of the seven buffers freed.  After any [xor_free] that returned, [xor_free]
    again returns the same network and the same heap: it frees nothing. *)
Theorem release_is_defined_and_single {F : Type} {FO : FloatOps F} :
  (forall (mt : Mat) (h : gmap nat (option (list F))), owns_buffer h mt ->
     exists h', mat_free mt h = Ok (mkMat 0 0 0 None, h') /\
       h' !! mat_block mt = Some None /\
       forall bk, bk <> mat_block mt -> h' !! bk = h !! bk) /\
  (forall (m : Xor) (h : gmap nat (option (list F))), owns_matrices m <> 0%Z ->
     Forall (owns_buffer h) (xor_mats m) -> NoDup (mat_block <$> xor_mats m) ->
     exists m' h', xor_free m h = Ok (m', h') /\
       Forall (fun mt => mt = mkMat 0 0 0 None) (xor_mats m') /\
       owns_matrices m' = 0%Z /\
       (forall mt, mt ∈ xor_mats m -> h' !! mat_block mt = Some None) /\
       xor_free m' h' = Ok (m', h')) /\
  (forall (m : Xor) (h : gmap nat (option (list F))) m' h', xor_free m h = Ok (m', h') ->
     owns_matrices m' = 0%Z /\ xor_free m' h' = Ok (m', h')).
Proof.
  split; [|split].
  - intros mt h Hown. destruct (owns_buffer_block h mt Hown) as (cells & Em & Hb).
    exists (<[mat_block mt := None]> h). split; [by eapply mat_free_owned|].
    split; [apply lookup_insert_eq|]. intros bk Hne. by apply lookup_insert_ne.
  - intros m h Hflag Hall Hnd.
    destruct (xor_free_owned m h Hflag Hall Hnd) as (h' & Hrun & Hfreed & _).
    eexists _, h'. split; [exact Hrun|]. split; [by repeat constructor|].
    split; [done|]. split; [done|]. by apply (xor_free_again m h).
  - apply xor_free_again.
Qed.

(** [release_is_defined_and_single] on the network [xor_alloc] builds. *)
Lemma release_is_defined_and_single_witness :
  exists m h0, xor_alloc (granted zero_junk) (∅ : gmap nat (option (list R))) = Ok (m, h0) /\
    exists m' h', xor_free m h0 = Ok (m', h') /\
      Forall (fun mt => mt = mkMat 0 0 0 None) (xor_mats m') /\
      owns_matrices m' = 0%Z /\
      xor_free m' h' = Ok (m', h').
Proof.
  do 2 eexists. split; [vm_compute; reflexivity|].
  match goal with |- exists m' h', xor_free ?m ?h0 = _ /\ _ =>
    destruct (proj1 (proj2 release_is_defined_and_single) m h0)
      as (m' & h' & Hrun & Hrel & Hflag & _ & Hagain)
  end.
  - cbn. lia.
  - repeat constructor; (eexists _, _; split; [reflexivity|vm_compute; reflexivity]).
  - cbn. apply NoDup_ListNoDup. repeat (constructor; [cbn; lia|]). constructor.
  - exists m', h'. done.
Defined.

(** ** Further properties of the engine *)

(** X1. [mat_alloc(rows, cols)], for fewer than [2^62] elements.  When
    [malloc] returns [NULL], the call fails [NN_ASSERT(m.es != NULL)].  When
    [malloc] grants the request, the call returns: the matrix is
    [rows x cols] of stride [cols], and its buffer is a block that did not
    exist before, of exactly [rows * cols] cells, which hold whatever the
    allocator left there; element [(i, j)] is cell [i * cols + j]; no other
    block changes. *)
Theorem mat_alloc_fresh_matrix {F : Type} {FO : FloatOps F}
    (r c : nat) (grant : option (nat -> F)) (h : gmap nat (option (list F))) :
  (N.of_nat r * N.of_nat c < 2 ^ 62)%N ->
  match grant with
  | None => mat_alloc r c grant h = Err AssertFailed
  | Some junk =>
    exists bk h',
      mat_alloc r c grant h = Ok (mkMat r c c (Some (Ptr bk 0)), h') /\
      h !! bk = None /\
      h' !! bk = Some (Some (junk <$> seq 0 (r * c))) /\
      (forall bk', bk' <> bk -> h' !! bk' = h !! bk') /\
      reads h' (mkMat r c c (Some (Ptr bk 0))) (fun i j => junk (i * c + j))
  end.
Proof.
  intros Hlt. destruct grant as [junk|]; [|apply mat_alloc_null].
  eexists _, _. split; [by apply mat_alloc_ok|].
  split; [apply fresh_block_unused|].
  split; [apply lookup_insert_eq|].
  split; [intros bk' Hne; by apply lookup_insert_ne|].
  apply reads_whole_block; [done|]. apply lookup_insert_eq.
Qed.

(** [mat_alloc_fresh_matrix] for a [2 x 2] matrix allocated next to [td],
    when [malloc] grants the request and when it does not. *)
Lemma mat_alloc_fresh_matrix_witness :
  (exists bk h',
     mat_alloc 2 2 (Some INR) (td_heap : gmap nat (option (list R)))
     = Ok (mkMat 2 2 2 (Some (Ptr bk 0)), h') /\
     mat_cell h' (mkMat 2 2 2 (Some (Ptr bk 0))) 1 0 = Some (INR 2)) /\
  mat_alloc 2 2 None (td_heap : gmap nat (option (list R))) = Err AssertFailed.
Proof.
  split.
  - destruct (mat_alloc_fresh_matrix 2 2 (Some INR) (td_heap : gmap nat (option (list R))))
      as (bk & h' & Hrun & _ & _ & _ & Hreads); [by vm_compute|].
    exists bk, h'. split; [exact Hrun|].
    by rewrite (Hreads 1 0) by (cbn; lia).
  - apply (mat_alloc_fresh_matrix 2 2 None (td_heap : gmap nat (option (list R)))).
    by vm_compute.
Defined.

(** X2. [mat_alloc] does not check its size computation.  For
    [2^62 <= rows * cols < 2^64] elements the byte count
    [sizeof(float) * rows * cols] wraps: when [malloc] grants the wrapped
    request, the call returns a matrix that claims [rows x cols] elements
    over a buffer at least [2^62] elements shorter, and the access to its
    last element is out of bounds. *)
Theorem mat_alloc_size_wraps {F : Type} {FO : FloatOps F}
    (r c : nat) (junk : nat -> F) (h : gmap nat (option (list F))) :
  (2 ^ 62 <= N.of_nat r * N.of_nat c < 2 ^ 64)%N ->
  exists bk h' cells,
    mat_alloc r c (Some junk) h = Ok (mkMat r c c (Some (Ptr bk 0)), h') /\
    h' !! bk = Some (Some cells) /\
    (N.of_nat (length cells) + 2 ^ 62 <= N.of_nat r * N.of_nat c)%N /\
    mat_get (mkMat r c c (Some (Ptr bk 0))) (r - 1) (c - 1) h' = Err OutOfBounds.
Proof.
  intros Hp. pose proof (wrapped_count _ Hp) as Hshort.
  unfold mat_alloc, malloc, bind. cbn.
  set (n := N.to_nat (((4 * N.of_nat r * N.of_nat c) mod 2 ^ 64) / 4)%N).
  assert (Hn : (N.of_nat n + 2 ^ 62 <= N.of_nat r * N.of_nat c)%N).
  { unfold n. rewrite N2Nat.id, <- N.mul_assoc. exact Hshort. }
  eexists _, _, _. split; [done|]. split; [apply lookup_insert_eq|].
  rewrite length_fmap, length_seq. split; [done|].
  unfold mat_get, load; cbn. rewrite lookup_insert_eq.
  rewrite lookup_ge_None_2; [done|]. rewrite length_fmap, length_seq.
  assert (Hl : N.of_nat (MAT_AT (mkMat r c c (Some (Ptr (fresh (dom h)) 0))) (r - 1) (c - 1))
               = (N.of_nat r * N.of_nat c - 1)%N).
  { apply (last_index r c). change (2 ^ 62)%N with 4611686018427387904%N in Hp. lia. }
  change (2 ^ 62)%N with 4611686018427387904%N in Hn. lia.
Qed.

(** [mat_alloc_size_wraps] for [2^62 + 1] rows of one column: the request is
    for [4] bytes, and the buffer has one cell. *)
Lemma mat_alloc_size_wraps_witness :
  exists bk h' cells,
    mat_alloc (N.to_nat (2 ^ 62 + 1)) 1 (Some INR) (∅ : gmap nat (option (list R)))
    = Ok (mkMat (N.to_nat (2 ^ 62 + 1)) 1 1 (Some (Ptr bk 0)), h') /\
    h' !! bk = Some (Some cells) /\
    (N.of_nat (length cells) + 2 ^ 62 <= 2 ^ 62 + 1)%N.
Proof.
  destruct (mat_alloc_size_wraps (N.to_nat (2 ^ 62 + 1)) 1 INR
              (∅ : gmap nat (option (list R))))
    as (bk & h' & cells & Hrun & Hb & Hlen & _).
  { rewrite N2Nat.id. split; by vm_compute. }
  exists bk, h', cells. split; [exact Hrun|]. split; [exact Hb|].
  rewrite N2Nat.id, N.mul_1_r in Hlen. exact Hlen.
Defined.

(** X3. [mat_fill(m, x)] on an accessible row-major matrix returns, leaves
    [x] in every element of [m], and changes no cell that is not an element
    of [m] (the padding between rows, when [stride > cols], included). *)
Theorem mat_fill_sets_every_entry {F : Type} {FO : FloatOps F}
    (dst : Mat) (x : F) (h : gmap nat (option (list F))) :
  well_strided dst -> accessible h dst ->
  exists h', mat_fill dst x h = Ok (tt, h') /\
    reads h' dst (fun _ _ => x) /\ same_outside dst h h'.
Proof. apply mat_fill_spec. Qed.

(** [mat_fill_sets_every_entry] on [ex_a]: [ex_a] becomes [[7 7]] and [ex_b]
    keeps its [6]. *)
Lemma mat_fill_sets_every_entry_witness :
  exists h', mat_fill ex_a 7%R ex_heap = Ok (tt, h') /\
    mat_cell h' ex_a 0 1 = Some 7%R /\ mat_cell h' ex_b 1 0 = Some 6%R.
Proof.
  destruct (mat_fill_sets_every_entry ex_a 7%R ex_heap) as (h' & Hrun & Hd & Hout);
    [solve_strided | solve_cells |].
  exists h'. split; [exact Hrun|]. split; [apply (Hd 0 1); cbn; lia|].
  change (mat_cell h' ex_b 1 0) with (cell_at h' (2, 1)).
  rewrite (Hout (2, 1)); [by vm_compute|].
  intros (i & j & _ & _ & E). cbn in E. congruence.
Defined.

(** X4. [mat_sum(dst, a)] fails an assertion exactly when the two shapes
    differ.  For equal shapes, [dst] row-major and sharing no cell with [a]:
    it returns, every [dst[i][j]] then holds its old value plus [a[i][j]]
    (in that order), [a] is unchanged, and so is every cell outside [dst]. *)
Theorem mat_sum_adds_entrywise {F : Type} {FO : FloatOps F}
    (dst a : Mat) (h : gmap nat (option (list F))) (D A : nat -> nat -> F) :
  (mat_sum dst a h = Err AssertFailed <-> rows dst <> rows a \/ cols dst <> cols a) /\
  (rows dst = rows a -> cols dst = cols a -> well_strided dst -> separate dst a ->
   reads h dst D -> reads h a A ->
   exists h', mat_sum dst a h = Ok (tt, h') /\
     reads h' dst (fun i j => fadd (D i j) (A i j)) /\
     reads h' a A /\ same_outside dst h h').
Proof.
  split.
  - apply two_asserts, no_abort_mat_sum_loops.
  - intros Hr Hc Hs Hsep HD HA.
    destruct (mat_sum_spec dst a h D A Hr Hc Hs Hsep HD HA) as (h' & Hrun & Hd & Hout).
    exists h'. split; [done|]. split; [done|]. split; [|done].
    by eapply reads_outside.
Qed.

(** [mat_sum_adds_entrywise] on [ex_a += ex_c], and on [ex_a += ex_b], whose
    shapes differ. *)
Lemma mat_sum_adds_entrywise_witness :
  (exists h', mat_sum ex_a ex_c ex_heap = Ok (tt, h') /\
     mat_cell h' ex_a 0 1 = Some (3 + 6)%R /\ mat_cell h' ex_c 0 1 = Some 6%R) /\
  mat_sum ex_a ex_b ex_heap = Err AssertFailed.
Proof.
  split.
  - destruct (proj2 (mat_sum_adds_entrywise ex_a ex_c ex_heap
                       (entry ex_heap ex_a) (entry ex_heap ex_c)))
      as (h' & Hrun & Hd & Ha & _);
      [reflexivity | reflexivity | solve_strided | solve_separate
      | solve_cells | solve_cells |].
    exists h'. split; [exact Hrun|]. split.
    + rewrite (Hd 0 1) by (cbn; lia). by vm_compute.
    + rewrite (Ha 0 1) by (cbn; lia). by vm_compute.
  - apply (proj1 (mat_sum_adds_entrywise ex_a ex_b ex_heap
                    (entry ex_heap ex_a) (entry ex_heap ex_b))).
    cbn. lia.
Defined.

(** X5. [mat_sum] tolerates aliasing: [mat_sum(m, m)] on an accessible
    row-major matrix returns with every element added to itself, and changes
    nothing else. *)
Theorem mat_sum_onto_itself_doubles {F : Type} {FO : FloatOps F}
    (m : Mat) (h : gmap nat (option (list F))) (D : nat -> nat -> F) :
  well_strided m -> reads h m D ->
  exists h', mat_sum m m h = Ok (tt, h') /\
    reads h' m (fun i j => fadd (D i j) (D i j)) /\ same_outside m h h'.
Proof.
  intros Hs HD. unfold mat_sum.
  rewrite (bind_ok _ _ _ _ _ (assert_true _ h (Nat.eqb_refl _))).
  rewrite (bind_ok _ _ _ _ _ (assert_true _ h (Nat.eqb_refl _))).
  apply (for_cells m (fun i j v => fadd v v) _ h D Hs HD).
  intros i j h1 v Hi Hj Hout Hv.
  rewrite (bind_ok _ _ _ _ _ (mat_get_ok _ _ _ _ _ Hv)).
  rewrite (bind_ok _ _ _ _ _ (mat_get_ok _ _ _ _ _ Hv)).
  apply mat_set_ok. by rewrite Hv.
Qed.

(** [mat_sum_onto_itself_doubles] on [ex_a]. *)
Lemma mat_sum_onto_itself_doubles_witness :
  exists h', mat_sum ex_a ex_a ex_heap = Ok (tt, h') /\
    mat_cell h' ex_a 0 0 = Some (2 + 2)%R.
Proof.
  destruct (mat_sum_onto_itself_doubles ex_a ex_heap (entry ex_heap ex_a))
    as (h' & Hrun & Hd & _); [solve_strided | solve_cells |].
  exists h'. split; [exact Hrun|].
  rewrite (Hd 0 0) by (cbn; lia). by vm_compute.
Defined.

(** X6. [mat_sig(m)] on an accessible row-major matrix returns, replaces
    every element [x] by [sigmoidf(x) = 1.f / (1.f + expf(-x))], and changes
    nothing else. *)
Theorem mat_sig_applies_sigmoidf {F : Type} {FO : FloatOps F}
    (dst : Mat) (h : gmap nat (option (list F))) (D : nat -> nat -> F) :
  well_strided dst -> reads h dst D ->
  exists h', mat_sig dst h = Ok (tt, h') /\
    reads h' dst (fun i j => fdiv fone (fadd fone (expf (fneg (D i j))))) /\
    same_outside dst h h'.
Proof. apply mat_sig_spec. Qed.

(** [mat_sig_applies_sigmoidf] on [ex_a]. *)
Lemma mat_sig_applies_sigmoidf_witness :
  exists h', mat_sig ex_a ex_heap = Ok (tt, h') /\
    mat_cell h' ex_a 0 1 = Some (sigmoidf 3%R).
Proof.
  destruct (mat_sig_applies_sigmoidf ex_a ex_heap (entry ex_heap ex_a))
    as (h' & Hrun & Hd & _); [solve_strided | solve_cells |].
  exists h'. split; [exact Hrun|].
  rewrite (Hd 0 1) by (cbn; lia). by vm_compute.
Defined.

(** X7. [mat_copy(dst, src)] fails an assertion exactly when the two shapes
    differ.  For equal shapes, [dst] accessible, row-major and sharing no
    cell with [src]: it returns, [dst] then holds what [src] holds, [src] is
    unchanged, and so is every cell outside [dst]. *)
Theorem mat_copy_copies_entries {F : Type} {FO : FloatOps F}
    (dst src : Mat) (h : gmap nat (option (list F))) (S : nat -> nat -> F) :
  (mat_copy dst src h = Err AssertFailed <-> rows dst <> rows src \/ cols dst <> cols src) /\
  (rows dst = rows src -> cols dst = cols src -> well_strided dst -> separate dst src ->
   accessible h dst -> reads h src S ->
   exists h', mat_copy dst src h = Ok (tt, h') /\
     reads h' dst S /\ reads h' src S /\ same_outside dst h h').
Proof.
  split.
  - apply two_asserts, no_abort_mat_copy_loops.
  - intros Hr Hc Hs Hsep Hd HS.
    destruct (mat_copy_spec dst src h S Hr Hc Hs Hsep Hd HS) as (h' & Hrun & Hd' & Hout).
    exists h'. split; [done|]. split; [done|]. split; [|done].
    by eapply reads_outside.
Qed.

(** [mat_copy_copies_entries] on [ex_a = ex_c], and on [ex_a = ex_b], whose
    shapes differ. *)
Lemma mat_copy_copies_entries_witness :
  (exists h', mat_copy ex_a ex_c ex_heap = Ok (tt, h') /\
     mat_cell h' ex_a 0 1 = Some 6%R) /\
  mat_copy ex_a ex_b ex_heap = Err AssertFailed.
Proof.
  split.
  - destruct (proj2 (mat_copy_copies_entries ex_a ex_c ex_heap (entry ex_heap ex_c)))
      as (h' & Hrun & Hd & _);
      [reflexivity | reflexivity | solve_strided | solve_separate
      | solve_cells | solve_cells |].
    exists h'. split; [exact Hrun|].
    rewrite (Hd 0 1) by (cbn; lia). by vm_compute.
  - apply (proj1 (mat_copy_copies_entries ex_a ex_b ex_heap (entry ex_heap ex_b))).
    cbn. lia.
Defined.

(** X8. [mat_row(m, row)] is a view, not a copy.  For a row-major [m] and
    [row < m.rows] it is a [1 x m.cols] matrix whose element [(0, j)] is the
    very cell of [m[row][j]]: reading or writing the one does, on every heap,
    exactly what reading or writing the other does. *)
Theorem mat_row_is_a_view {F : Type} {FO : FloatOps F}
    (m : Mat) (row j : nat) (v : F) (h : gmap nat (option (list F))) :
  well_strided m -> row < rows m -> j < cols m ->
  rows (mat_row m row) = 1 /\ cols (mat_row m row) = cols m /\
  mat_get (mat_row m row) 0 j h = mat_get m row j h /\
  mat_set (mat_row m row) 0 j v h = mat_set m row j v h.
Proof.
  intros Hw Hrow Hj. split; [done|]. split; [done|].
  pose proof (mat_row_index m row j Hw Hrow Hj) as E.
  unfold mat_get, mat_set, load, store. destruct (es m) as [q|] eqn:Eq; cbn; rewrite Eq; [|done].
  cbn. by rewrite <- Nat.add_assoc, E.
Qed.

(** [mat_row_is_a_view] on the second row of [to], the expected output [1]
    of the input [(0, 1)]. *)
Lemma mat_row_is_a_view_witness :
  mat_get (mat_row to 1) 0 0 (td_heap : gmap nat (option (list R)))
  = mat_get to 1 0 td_heap /\
  mat_get (mat_row to 1) 0 0 (td_heap : gmap nat (option (list R))) = Ok (1%R, td_heap).
Proof.
  destruct (mat_row_is_a_view to 1 0 0%R (td_heap : gmap nat (option (list R))))
    as (_ & _ & Hget & _); [solve_strided | cbn; lia | cbn; lia |].
  split; [exact Hget|]. by vm_compute.
Defined.

(** X9. [mat_rand(m, low, high)] on an accessible row-major matrix returns
    having drawn [rows * cols] numbers from [rand()], one per element in
    row-major order, and having overwritten every element with
    [rand_float() * (high - low) + low] for its number; what the matrix held
    before plays no part, and nothing outside it changes. *)
Theorem mat_rand_overwrites_every_entry {F : Type} {FO : FloatOps F}
    (rand_max : nat) (rnd : nat -> nat) (m : Mat) (low high : F) (k : nat)
    (h : gmap nat (option (list F))) :
  well_strided m -> accessible h m ->
  exists h', mat_rand rand_max rnd m low high k h = Ok (k + rows m * cols m, h') /\
    reads h' m (fun i j =>
      fadd (fmul (fdiv (of_size (rnd (k + i * cols m + j))) (of_size rand_max))
                 (fsub high low)) low) /\
    same_outside m h h'.
Proof.
  intros Hw Ha.
  destruct (for_cells m
    (fun i j _ =>
       fadd (fmul (fdiv (of_size (rnd (k + i * cols m + j))) (of_size rand_max))
                  (fsub high low)) low)
    (fun i j => mat_set m i j
       (fadd (fmul (fdiv (of_size (rnd (k + i * cols m + j))) (of_size rand_max))
                   (fsub high low)) low))
    h (entry h m) Hw (accessible_reads _ _ Ha)) as (h' & Hrun & Hreads & Hout).
  { intros i j h1 v Hi Hj _ Hv. apply mat_set_ok. by rewrite Hv. }
  exists h'. split; [|done].
  unfold mat_rand, rand_float. unfold fold_range at 1.
  pose proof (fold_each_counting_rows
    (fun i j k1 => mat_set m i j
       (fadd (fmul (fdiv (of_size (rnd k1)) (of_size rand_max)) (fsub high low)) low))
    (cols m) k (rows m) 0 h) as Hcount.
  cbn [Nat.mul Nat.add] in Hcount. rewrite Nat.add_0_r in Hcount.
  rewrite Hcount. unfold for_range in Hrun. by rewrite (bind_ok _ _ _ _ _ Hrun).
Qed.

(** [mat_rand_overwrites_every_entry] on [ex_a], with [RAND_MAX = 10] and a
    generator that returns [3], [4], ...: two numbers are drawn and
    [ex_a[0][1]] receives the second. *)
Lemma mat_rand_overwrites_every_entry_witness :
  exists h', mat_rand 10 (fun k => 3 + k) ex_a 0%R 1%R 0 ex_heap = Ok (2, h') /\
    mat_cell h' ex_a 0 1 = Some (INR 4 / INR 10 * (1 - 0) + 0)%R.
Proof.
  destruct (mat_rand_overwrites_every_entry 10 (fun k => 3 + k) ex_a 0%R 1%R 0 ex_heap)
    as (h' & Hrun & Hd & _); [solve_strided | solve_cells |].
  exists h'. split; [exact Hrun|].
  by rewrite (Hd 0 1) by (cbn; lia).
Defined.

(** The network [xor_alloc] returns when [malloc] grants its requests, and the
    heap it leaves. *)
Lemma xor_alloc_spec {F : Type} {FO : FloatOps F}
    (junk : XorJunk) (h : gmap nat (option (list F))) :
  exists m h', xor_alloc (granted junk) h = Ok (m, h') /\
    owns_matrices m = 1%Z /\
    (fun mt => (rows mt, cols mt, stride mt)) <$> xor_mats m
    = [(1, 2, 2); (1, 2, 2); (1, 1, 1); (2, 2, 2); (1, 2, 2); (2, 1, 1); (1, 1, 1)] /\
    net_wf m /\
    Forall (owns_buffer h') (xor_mats m) /\
    NoDup (mat_block <$> xor_mats m) /\
    (forall mt, mt ∈ xor_mats m -> h !! mat_block mt = None) /\
    (forall bk, bk ∉ mat_block <$> xor_mats m -> h' !! bk = h !! bk) /\
    reads h' (a0 m) (fun i j => j_a0 junk (i * 2 + j)) /\
    reads h' (a1 m) (fun i j => j_a1 junk (i * 2 + j)) /\
    reads h' (a2 m) (fun i j => j_a2 junk (i * 1 + j)) /\
    reads h' (w1 m) (fun i j => j_w1 junk (i * 2 + j)) /\
    reads h' (b1 m) (fun i j => j_b1 junk (i * 2 + j)) /\
    reads h' (w2 m) (fun i j => j_w2 junk (i * 1 + j)) /\
    reads h' (b2 m) (fun i j => j_b2 junk (i * 1 + j)).
Proof.
  destruct (xor_alloc_blocks junk h)
    as (k0 & k1 & k2 & k3 & k4 & k5 & k6 & Hnd & Hnew & Hrun).
  eexists _, _. split; [exact Hrun|]. clear Hrun.
  repeat (apply NoDup_cons in Hnd as [? Hnd]).
  repeat match goal with H : _ ∉ _ :: _ |- _ => apply not_elem_of_cons in H as [? ?] end.
  repeat (apply Forall_cons in Hnew as [? Hnew]).
  split; [done|]. split; [done|].
  split; [solve_net_wf|].
  split.
  { repeat constructor;
      (eexists _, _; split; [reflexivity|];
       rewrite ?lookup_insert_ne by congruence; apply lookup_insert_eq). }
  split.
  { cbn. apply NoDup_ListNoDup. repeat (constructor; [cbn; intuition congruence|]). constructor. }
  split.
  { intros mt Hmt. cbn in Hmt.
    repeat (apply elem_of_cons in Hmt as [->|Hmt]; [done|]). by apply elem_of_nil in Hmt. }
  split.
  { intros bk Hbk. cbn in Hbk. repeat (apply not_elem_of_cons in Hbk as [? Hbk]).
    by rewrite !lookup_insert_ne by congruence. }
  repeat split;
    (apply reads_whole_block; [by vm_compute|];
     rewrite ?lookup_insert_ne by congruence; apply lookup_insert_eq).
Qed.

(** X10. [xor_alloc], on any heap.  It returns exactly when [malloc] grants
    all seven requests; when [malloc] refuses one, it fails the
    [NN_ASSERT(m.es != NULL)] of that [mat_alloc].  Whenever it returns, the
    network has the ownership flag set and its matrices [a0], [a1], [a2],
    [w1], [b1], [w2], [b2] are [1x2], [1x2], [1x1], [2x2], [1x2], [2x1],
    [1x1] of stride [cols]; the shapes fit the forward pass; each matrix owns
    a block of its own that did not exist before, the seven blocks are
    distinct, and no other block changes.  Nothing is initialised: every
    element holds what the allocator left in its buffer. *)
Theorem xor_alloc_builds_a_network {F : Type} {FO : FloatOps F}
    (gr : XorGrants) (h : gmap nat (option (list F))) :
  ((exists junk, gr = granted junk) -> exists m h', xor_alloc gr h = Ok (m, h')) /\
  ((forall junk, gr <> granted junk) -> xor_alloc gr h = Err AssertFailed) /\
  (forall m h', xor_alloc gr h = Ok (m, h') ->
   exists junk, gr = granted junk /\
    owns_matrices m = 1%Z /\
    (fun mt => (rows mt, cols mt, stride mt)) <$> xor_mats m
    = [(1, 2, 2); (1, 2, 2); (1, 1, 1); (2, 2, 2); (1, 2, 2); (2, 1, 1); (1, 1, 1)] /\
    net_wf m /\
    Forall (owns_buffer h') (xor_mats m) /\
    NoDup (mat_block <$> xor_mats m) /\
    (forall mt, mt ∈ xor_mats m -> h !! mat_block mt = None) /\
    (forall bk, bk ∉ mat_block <$> xor_mats m -> h' !! bk = h !! bk) /\
    reads h' (a0 m) (fun i j => j_a0 junk (i * 2 + j)) /\
    reads h' (a1 m) (fun i j => j_a1 junk (i * 2 + j)) /\
    reads h' (a2 m) (fun i j => j_a2 junk (i * 1 + j)) /\
    reads h' (w1 m) (fun i j => j_w1 junk (i * 2 + j)) /\
    reads h' (b1 m) (fun i j => j_b1 junk (i * 2 + j)) /\
    reads h' (w2 m) (fun i j => j_w2 junk (i * 1 + j)) /\
    reads h' (b2 m) (fun i j => j_b2 junk (i * 1 + j))).
Proof.
  split; [|split].
  - intros [junk ->]. destruct (xor_alloc_spec junk h) as (m & h' & Hrun & _). by exists m, h'.
  - apply xor_alloc_refused.
  - intros m h' Hrun. destruct (xor_alloc_granted gr h m h' Hrun) as [junk ->].
    exists junk. split; [done|].
    destruct (xor_alloc_spec junk h) as (m0 & h0 & Hrun0 & Hspec).
    rewrite Hrun in Hrun0. injection Hrun0 as <- <-. exact Hspec.
Qed.

(** [xor_alloc_builds_a_network] on the empty heap: with all seven requests
    granted, and with the third one (the buffer of [b1]) refused. *)
Lemma xor_alloc_builds_a_network_witness :
  (exists m h', xor_alloc (granted zero_junk) (∅ : gmap nat (option (list R))) = Ok (m, h') /\
     net_wf m /\ NoDup (mat_block <$> xor_mats m) /\
     reads h' (b1 m) (fun _ _ => 0%R)) /\
  xor_alloc (mkXorGrants (Some INR) (Some INR) None (Some INR) (Some INR) (Some INR) (Some INR))
            (∅ : gmap nat (option (list R)))
  = Err AssertFailed.
Proof.
  split.
  - destruct (proj1 (xor_alloc_builds_a_network (granted zero_junk)
                       (∅ : gmap nat (option (list R)))))
      as (m & h' & Hrun); [by exists zero_junk|].
    destruct (proj2 (proj2 (xor_alloc_builds_a_network (granted zero_junk)
                              (∅ : gmap nat (option (list R))))) m h' Hrun)
      as (junk & Hj & _ & _ & Hwf & _ & Hnd & _ & _ & _ & _ & _ & _ & Hb1 & _).
    exists m, h'. split; [exact Hrun|]. split; [exact Hwf|]. split; [exact Hnd|].
    injection Hj as _ _ Eb1 _ _ _ _. rewrite <- Eb1 in Hb1. exact Hb1.
  - apply (proj1 (proj2 (xor_alloc_builds_a_network
             (mkXorGrants (Some INR) (Some INR) None (Some INR) (Some INR) (Some INR) (Some INR))
             (∅ : gmap nat (option (list R)))))).
    intros junk. discriminate.
Defined.

(** X11. [xor_free] releases what [xor_alloc] obtained.  Whenever
    [xor_alloc] returns a network, on any heap, [xor_free] on that network
    returns one with the flag cleared and all seven matrices
    [{0, 0, 0, NULL}]; every block that existed before [xor_alloc] is as it
    was, and every other block is either absent or freed: no live block is
    left behind. *)
Theorem xor_alloc_xor_free_round_trip {F : Type} {FO : FloatOps F}
    (gr : XorGrants) (h : gmap nat (option (list F))) (m : Xor)
    (h1 : gmap nat (option (list F))) :
  xor_alloc gr h = Ok (m, h1) ->
  exists m' h', xor_free m h1 = Ok (m', h') /\
    owns_matrices m' = 0%Z /\
    Forall (fun mt => mt = mkMat 0 0 0 None) (xor_mats m') /\
    (forall bk, is_Some (h !! bk) -> h' !! bk = h !! bk) /\
    (forall bk, h !! bk = None -> h' !! bk = None \/ h' !! bk = Some None).
Proof.
  intros Hret. destruct (xor_alloc_granted gr h m h1 Hret) as [junk ->].
  destruct (xor_alloc_blocks junk h)
    as (k0 & k1 & k2 & k3 & k4 & k5 & k6 & Hnd & Hnew & Hrun).
  rewrite Hret in Hrun. injection Hrun as -> ->. clear Hret.
  repeat (apply NoDup_cons in Hnd as [? Hnd]).
  repeat match goal with H : _ ∉ _ :: _ |- _ => apply not_elem_of_cons in H as [? ?] end.
  repeat (apply Forall_cons in Hnew as [? Hnew]).
  match goal with |- exists m' h', xor_free ?m ?h1 = _ /\ _ =>
    destruct (xor_free_owned m h1) as (h' & Hfree & Hfreed & Hrest)
  end.
  { done. }
  { repeat constructor;
      (eexists _, _; split; [reflexivity|];
       rewrite ?lookup_insert_ne by congruence; apply lookup_insert_eq). }
  { cbn. apply NoDup_ListNoDup. repeat (constructor; [cbn; intuition congruence|]). constructor. }
  eexists _, h'. split; [exact Hfree|]. split; [done|]. split; [by repeat constructor|].
  assert (Hcases : forall bk, bk ∈ [k0; k3; k6; k1; k2; k4; k5] \/
                     h' !! bk = h !! bk).
  { intros bk. destruct (decide (bk ∈ [k0; k3; k6; k1; k2; k4; k5])) as [Hin|Hout]; [by left|].
    right. rewrite (Hrest bk Hout).
    repeat (apply not_elem_of_cons in Hout as [? Hout]).
    by rewrite !lookup_insert_ne by congruence. }
  split.
  - intros bk [v Hv]. destruct (Hcases bk) as [Hin|E]; [|done].
    repeat (apply elem_of_cons in Hin as [->|Hin]; [congruence|]). by apply elem_of_nil in Hin.
  - intros bk Hbk. destruct (Hcases bk) as [Hin|E]; [|left; congruence].
    right.
    repeat (apply elem_of_cons in Hin as [->|Hin];
      [match goal with |- _ !! ?k = _ =>
         eapply (Hfreed (mkMat _ _ _ (Some (Ptr k 0))))
       end; cbn; repeat constructor|]).
    by apply elem_of_nil in Hin.
Qed.

(** [xor_alloc_xor_free_round_trip] for a network allocated next to [td]:
    [td] is still there, and the first block [xor_alloc] obtained is freed. *)
Lemma xor_alloc_xor_free_round_trip_witness :
  exists m h1 m' h',
    xor_alloc (granted zero_junk) (td_heap : gmap nat (option (list R))) = Ok (m, h1) /\
    xor_free m h1 = Ok (m', h') /\
    owns_matrices m' = 0%Z /\
    h' !! 0 = Some (Some td) /\
    h1 !! 1 = Some (Some [0%R; 0%R]) /\
    (h' !! 1 = None \/ h' !! 1 = Some None).
Proof.
  destruct (xor_alloc (granted zero_junk) (td_heap : gmap nat (option (list R))))
    as [[m h1]|e] eqn:Hrun; [|exfalso; vm_compute in Hrun; discriminate].
  destruct (xor_alloc_xor_free_round_trip (granted zero_junk)
              (td_heap : gmap nat (option (list R))) m h1 Hrun)
    as (m' & h' & Hfree & Hflag & _ & Hold & Hnew).
  exists m, h1, m', h'. split; [reflexivity|]. split; [exact Hfree|]. split; [exact Hflag|].
  split; [|split].
  - rewrite (Hold 0); [reflexivity | by eexists].
  - vm_compute in Hrun. injection Hrun as <- <-. reflexivity.
  - apply Hnew. reflexivity.
Defined.

(** X12. A released network is inert.  After [xor_free] on a network whose
    flag was set, every matrix of the network is [0 x 0] with a null buffer,
    so on any heap [forward_xor] and [xor_learn] return at once without
    touching memory, while [cost] and [finite_diff] fail the check of the
    output width whenever the expected output has a column: no call
    dereferences a freed buffer. *)
Theorem released_network_is_inert {F : Type} {FO : FloatOps F}
    (m m' g : Xor) (h h' h2 : gmap nat (option (list F))) (ti to : Mat) (rate eps : F) :
  owns_matrices m <> 0%Z -> xor_free m h = Ok (m', h') ->
  forward_xor m' h2 = Ok (tt, h2) /\
  xor_learn m' g rate h2 = Ok (tt, h2) /\
  (cols to <> 0 ->
   cost m' ti to h2 = Err AssertFailed /\ finite_diff m' g ti to eps h2 = Err AssertFailed).
Proof.
  intros Hown Hfree. rewrite (xor_free_released m h m' h' Hown Hfree).
  split; [done|]. split; [done|]. intros Hc.
  assert (Hcost : forall h3, cost (mkXor (mkMat 0 0 0 None) (mkMat 0 0 0 None) (mkMat 0 0 0 None)
             (mkMat 0 0 0 None) (mkMat 0 0 0 None) (mkMat 0 0 0 None)
             (mkMat 0 0 0 None) 0) ti to h3 = Err AssertFailed).
  { intros h3. unfold cost, bind. destruct (rows ti =? rows to); [|done]. cbn.
    by rewrite (proj2 (Nat.eqb_neq _ _) Hc). }
  split; [apply Hcost|]. unfold finite_diff. by rewrite (bind_err _ _ _ _ (Hcost h2)).
Qed.

(** [released_network_is_inert] on [ex_net], released in [ex_net_heap]. *)
Lemma released_network_is_inert_witness :
  exists m' h', xor_free ex_net ex_net_heap = Ok (m', h') /\
    forward_xor m' h' = Ok (tt, h') /\
    cost m' ti to h' = Err AssertFailed.
Proof.
  destruct (xor_free ex_net ex_net_heap) as [[m' h']|e] eqn:Hfree;
    [|exfalso; vm_compute in Hfree; discriminate].
  exists m', h'. split; [reflexivity|].
  destruct (released_network_is_inert ex_net m' ex_grad ex_net_heap h' h' ti to 0%R 0%R)
    as (Hfw & _ & Hcost); [cbn; lia | exact Hfree |].
  split; [exact Hfw|]. apply Hcost. cbn. lia.
Defined.

(** X13. What [forward_xor] computes.  On a network whose shapes fit and
    whose activations [a1], [a2] are row-major and share no cell with any other
    of its matrices, from a heap where the matrices hold [A0] (input), [X1],
    [X2] (whatever the activations held) and [W1], [B1], [W2], [B2]:
    [forward_xor] returns; [a1] holds
    [sigmoidf((X1 + sum_k A0[.][k] * W1[k][.]) + B1)], [a2] holds
    [sigmoidf((X2 + sum_k a1[.][k] * W2[k][.]) + B2)] for that new [a1], the
    sums added onto the old contents term by term; input and parameters are
    unchanged. *)
Theorem forward_xor_computes_two_layers {F : Type} {FO : FloatOps F}
    (m : Xor) (h : gmap nat (option (list F))) (A0 X1 X2 W1 B1 W2 B2 : nat -> nat -> F) :
  net_wf m ->
  reads h (a0 m) A0 -> reads h (a1 m) X1 -> reads h (a2 m) X2 ->
  reads h (w1 m) W1 -> reads h (b1 m) B1 -> reads h (w2 m) W2 -> reads h (b2 m) B2 ->
  exists h', forward_xor m h = Ok (tt, h') /\
    reads h' (a1 m) (fun i j =>
      sigmoidf (fadd (dot_acc A0 W1 (cols (a0 m)) i j (X1 i j)) (B1 i j))) /\
    reads h' (a2 m) (fun i j =>
      sigmoidf (fadd (dot_acc (fun i' k =>
                        sigmoidf (fadd (dot_acc A0 W1 (cols (a0 m)) i' k (X1 i' k)) (B1 i' k)))
                      W2 (cols (a1 m)) i j (X2 i j)) (B2 i j))) /\
    reads h' (a0 m) A0 /\
    reads h' (w1 m) W1 /\ reads h' (b1 m) B1 /\ reads h' (w2 m) W2 /\ reads h' (b2 m) B2.
Proof. apply forward_xor_spec. Qed.

(** [forward_xor_computes_two_layers] on [ex_net] with input [(1, 0)]:
    the second hidden unit becomes [sigmoidf(0 + 1 * 2 + 0 * 4 + 6)]. *)
Lemma forward_xor_computes_two_layers_witness :
  exists h', forward_xor ex_net ex_net_heap = Ok (tt, h') /\
    mat_cell h' (a1 ex_net) 0 1 = Some (sigmoidf (0 + 1 * 2 + 0 * 4 + 6)%R).
Proof.
  destruct (forward_xor_computes_two_layers ex_net ex_net_heap
              (entry ex_net_heap (a0 ex_net)) (entry ex_net_heap (a1 ex_net))
              (entry ex_net_heap (a2 ex_net)) (entry ex_net_heap (w1 ex_net))
              (entry ex_net_heap (b1 ex_net)) (entry ex_net_heap (w2 ex_net))
              (entry ex_net_heap (b2 ex_net)))
    as (h' & Hrun & H1 & _); [solve_net_wf | solve_cells..|].
  exists h'. split; [exact Hrun|].
  rewrite (H1 0 1) by (cbn; lia). by vm_compute.
Defined.

(** X14. [forward_xor] writes the activations [a1] and [a2] only: whenever it
    returns, on any network and any heap, every block other than the blocks
    of [a1] and [a2] holds what it held before. *)
Theorem forward_xor_writes_only_activations {F : Type} {FO : FloatOps F}
    (m : Xor) (h h' : gmap nat (option (list F))) :
  forward_xor m h = Ok (tt, h') ->
  forall bk, bk ∉ mat_block <$> [a1 m; a2 m] -> h' !! bk = h !! bk.
Proof.
  intros Hrun.
  apply (writes_outside_forward_xor (fun bk => bk ∉ mat_block <$> [a1 m; a2 m]) m
           (mat_avoids_other_blocks [a1 m; a2 m] (a1 m) ltac:(repeat constructor))
           (mat_avoids_other_blocks [a1 m; a2 m] (a2 m) ltac:(repeat constructor))
           h tt h' Hrun).
Qed.

(** [forward_xor_writes_only_activations] on [ex_net]: the weights [w1]
    (block [2]) are untouched. *)
Lemma forward_xor_writes_only_activations_witness :
  exists h', forward_xor ex_net ex_net_heap = Ok (tt, h') /\
    h' !! 2 = ex_net_heap !! 2.
Proof.
  destruct (forward_xor_safe ex_net ex_net_heap) as (h' & Hrun & _);
    [split; cbn; repeat split; lia | repeat constructor; solve_cells |].
  exists h'. split; [exact Hrun|].
  apply (forward_xor_writes_only_activations ex_net ex_net_heap h' Hrun).
  cbn. intros Hin.
  repeat (apply elem_of_cons in Hin as [Hin|Hin]; [discriminate|]).
  by apply elem_of_nil in Hin.
Defined.

(** X15. Nothing zeroes the accumulators between [xor_alloc] and the first
    forward pass.  Whenever [xor_alloc] returns a network, on any heap,
    [forward_xor] run on that network does return, and the activations it
    leaves are computed from the indeterminate contents of all seven buffers,
    those of [a1] and [a2] included: [mat_dot] starts its sums from them. *)
Theorem forward_xor_on_fresh_network_starts_from_junk {F : Type} {FO : FloatOps F}
    (gr : XorGrants) (h : gmap nat (option (list F))) (m : Xor)
    (h1 : gmap nat (option (list F))) :
  xor_alloc gr h = Ok (m, h1) ->
  exists junk h2, gr = granted junk /\ forward_xor m h1 = Ok (tt, h2) /\
    reads h2 (a1 m) (fun _ j =>
      sigmoidf (fadd (fadd (fadd (j_a1 junk j)
                                 (fmul (j_a0 junk 0) (j_w1 junk j)))
                           (fmul (j_a0 junk 1) (j_w1 junk (2 + j))))
                     (j_b1 junk j))) /\
    exists y0 y1, mat_cell h2 (a1 m) 0 0 = Some y0 /\ mat_cell h2 (a1 m) 0 1 = Some y1 /\
      mat_cell h2 (a2 m) 0 0
      = Some (sigmoidf (fadd (fadd (fadd (j_a2 junk 0) (fmul y0 (j_w2 junk 0)))
                                   (fmul y1 (j_w2 junk 1)))
                             (j_b2 junk 0))).
Proof.
  intros Hret. destruct (xor_alloc_granted gr h m h1 Hret) as [junk ->].
  destruct (xor_alloc_spec junk h)
    as (m0 & h0 & Hrun & _ & Hshapes & Hwf & _ & _ & _ & _ & H0 & H1 & H2 & Hw1 & Hb1 & Hw2 & Hb2).
  rewrite Hret in Hrun. injection Hrun as <- <-.
  destruct (forward_xor_spec m h1 _ _ _ _ _ _ _ Hwf H0 H1 H2 Hw1 Hb1 Hw2 Hb2)
    as (h2 & Hfw & Hy1 & Hy2 & _).
  cbn in Hshapes.
  assert (Hr0 : rows (a0 m) = 1) by congruence.
  assert (Hc0 : cols (a0 m) = 2) by congruence.
  assert (Hr1 : rows (a1 m) = 1) by congruence.
  assert (Hc1 : cols (a1 m) = 2) by congruence.
  assert (Hr2 : rows (a2 m) = 1) by congruence.
  assert (Hc2 : cols (a2 m) = 1) by congruence.
  exists junk, h2. split; [done|]. split; [done|]. split.
  - intros i j Hi Hj. rewrite (Hy1 i j Hi Hj). assert (i = 0) as -> by lia.
    unfold layer. rewrite Hc0. cbn. done.
  - eexists _, _. split; [apply (Hy1 0 0); lia|]. split; [apply (Hy1 0 1); lia|].
    rewrite (Hy2 0 0) by lia. unfold layer at 1. rewrite Hc1. cbn. done.
Qed.

(** [forward_xor_on_fresh_network_starts_from_junk] for buffers that happen
    to hold [a0 = [1 1]], weights [1], biases [0], and [3] in both cells of
    [a1]: the first activation is [sigmoidf (3 + 1 * 1 + 1 * 1 + 0)], not
    [sigmoidf (1 * 1 + 1 * 1 + 0)]. *)
Lemma forward_xor_on_fresh_network_starts_from_junk_witness :
  exists m h1 h2,
    xor_alloc (granted (mkXorJunk (fun _ => 1%R) (fun _ => 1%R) (fun _ => 0%R) (fun _ => 3%R)
                                  (fun _ => 1%R) (fun _ => 0%R) (fun _ => 3%R)))
              (∅ : gmap nat (option (list R))) = Ok (m, h1) /\
    forward_xor m h1 = Ok (tt, h2) /\
    mat_cell h2 (a1 m) 0 0 = Some (sigmoidf (3 + 1 * 1 + 1 * 1 + 0)%R).
Proof.
  set (gr := granted (mkXorJunk (fun _ => 1%R) (fun _ => 1%R) (fun _ => 0%R) (fun _ => 3%R)
                                (fun _ => 1%R) (fun _ => 0%R) (fun _ => 3%R))).
  destruct (xor_alloc gr (∅ : gmap nat (option (list R))))
    as [[m h1]|e] eqn:Hrun; [|exfalso; vm_compute in Hrun; discriminate].
  destruct (forward_xor_on_fresh_network_starts_from_junk gr
              (∅ : gmap nat (option (list R))) m h1 Hrun)
    as (junk & h2 & Hj & Hfw & Ha1 & _).
  exists m, h1, h2. split; [reflexivity|]. split; [exact Hfw|].
  assert (Hr : rows (a1 m) = 1 /\ cols (a1 m) = 2).
  { vm_compute in Hrun. injection Hrun as <- _. by split. }
  rewrite (Ha1 0 0) by lia.
  unfold gr in Hj. injection Hj as E0 E1 E2 E3 _ _ _.
  rewrite <- E0, <- E1, <- E2, <- E3. reflexivity.
Defined.

(** X16. What [cost] checks before it computes.  Whatever the heap, [cost]
    fails an assertion when the training matrices differ in their row count,
    when the expected output is not as wide as [a2], or when the training
    input is not as wide as [a0].  When these three fit and there is a
    training row, it still fails an assertion, the first of [mat_copy], unless
    [a0] has exactly one row: each training row is copied into [a0] whole. *)
Theorem cost_checks_shapes_first {F : Type} {FO : FloatOps F}
    (m : Xor) (ti to : Mat) (h : gmap nat (option (list F))) :
  (rows ti <> rows to \/ cols to <> cols (a2 m) \/ cols ti <> cols (a0 m) ->
   cost m ti to h = Err AssertFailed) /\
  (rows ti = rows to -> cols to = cols (a2 m) -> cols ti = cols (a0 m) ->
   0 < rows ti -> rows (a0 m) <> 1 -> cost m ti to h = Err AssertFailed).
Proof. split; [apply cost_shape_mismatch | apply cost_needs_one_row]. Qed.

(** [cost_checks_shapes_first] on [ex_net]: with [to] as the input (one
    column where [a0] has two), and with the [2 x 2] matrix [w1] in the place
    of [a0]. *)
Lemma cost_checks_shapes_first_witness :
  cost ex_net to to ex_net_heap = Err AssertFailed /\
  cost (mkXor (w1 ex_net) (a1 ex_net) (a2 ex_net) (w1 ex_net) (b1 ex_net)
              (w2 ex_net) (b2 ex_net) 1) ti to ex_net_heap
  = Err AssertFailed.
Proof.
  split.
  - apply (proj1 (cost_checks_shapes_first ex_net to to ex_net_heap)).
    right. right. cbn. lia.
  - apply (proj2 (cost_checks_shapes_first
                    (mkXor (w1 ex_net) (a1 ex_net) (a2 ex_net) (w1 ex_net) (b1 ex_net)
                           (w2 ex_net) (b2 ex_net) 1) ti to ex_net_heap)); cbn; lia.
Defined.

(** X17. When [cost] returns and what it leaves.  [cost] returns whenever its
    assertions hold and every cell it touches exists ([cost_ready]).
    Whenever it returns, every block other than those of the activations
    [a0], [a1], [a2] holds what it held before: parameters and training data
    are read, never written. *)
Theorem cost_returns_and_keeps_the_rest {F : Type} {FO : FloatOps F}
    (m : Xor) (ti to : Mat) (h : gmap nat (option (list F))) :
  (cost_ready h m ti to -> exists c h', cost m ti to h = Ok (c, h')) /\
  (forall c h', cost m ti to h = Ok (c, h') ->
     forall bk, bk ∉ mat_block <$> [a0 m; a1 m; a2 m] -> h' !! bk = h !! bk).
Proof.
  split.
  - intros Hready. destruct (cost_safe m ti to h Hready) as (c & h' & Hrun & _). eauto.
  - intros c h' Hrun.
    apply (writes_outside_cost (fun bk => bk ∉ mat_block <$> [a0 m; a1 m; a2 m]) m ti to
             (mat_avoids_other_blocks [a0 m; a1 m; a2 m] (a0 m) ltac:(repeat constructor))
             (mat_avoids_other_blocks [a0 m; a1 m; a2 m] (a1 m) ltac:(repeat constructor))
             (mat_avoids_other_blocks [a0 m; a1 m; a2 m] (a2 m) ltac:(repeat constructor))
             h c h' Hrun).
Qed.

(** [cost_returns_and_keeps_the_rest] on [ex_net] and the training set of
    [main]: [w1] (block [2]) and [td] (block [0]) are untouched. *)
Lemma cost_returns_and_keeps_the_rest_witness :
  exists c h', cost ex_net ti to ex_net_heap = Ok (c, h') /\
    h' !! 2 = ex_net_heap !! 2 /\ h' !! 0 = ex_net_heap !! 0.
Proof.
  destruct (cost_returns_and_keeps_the_rest ex_net ti to ex_net_heap) as [Hreturns Hframe].
  destruct Hreturns as (c & h' & Hrun); [solve_cost_ready|].
  exists c, h'. split; [exact Hrun|].
  split; apply (Hframe c h' Hrun); cbn; intros Hin;
    repeat (apply elem_of_cons in Hin as [Hin|Hin]; [discriminate|]);
    by apply elem_of_nil in Hin.
Defined.

(** X18. [cost] on an empty training set: when [ti] and [to] have no row and
    the column counts fit, [cost] touches no memory, whatever the network and
    the heap, and returns [0.f / (float)0]. *)
Theorem cost_of_no_rows {F : Type} {FO : FloatOps F}
    (m : Xor) (ti to : Mat) (h : gmap nat (option (list F))) :
  rows ti = 0 -> rows to = 0 -> cols to = cols (a2 m) -> cols ti = cols (a0 m) ->
  cost m ti to h = Ok (fdiv fzero (of_size 0), h).
Proof. apply cost_no_rows. Qed.

(** [cost_of_no_rows] on [ex_net] and the first zero rows of [td]. *)
Lemma cost_of_no_rows_witness :
  cost ex_net (mkMat 0 2 3 (Some (Ptr 0 0))) (mkMat 0 1 3 (Some (Ptr 0 2))) ex_net_heap
  = Ok (fdiv fzero (of_size 0), ex_net_heap).
Proof.
  apply (cost_of_no_rows ex_net (mkMat 0 2 3 (Some (Ptr 0 0))) (mkMat 0 1 3 (Some (Ptr 0 2)))
           ex_net_heap); reflexivity.
Defined.

(** X19. What [cost] returns.  For a network whose shapes fit, with a
    one-row input [a0], row-major activations each in a block of its own that
    holds neither a parameter nor training data, and row-major training
    matrices of fitting shapes: [cost] returns [c / (float)n], where [n] is
    the number of training rows and [c] is accumulated from [0] row after
    row, each row [i] adding, column by column, the squares of
    [a2[0][j] - to[i][j]] for the [a2] that [forward_xor] leaves on input
    [ti[i]].  That [a2] depends on what [a1] and [a2] held before the row
    ([X1], [X2] at first, then what the row before left): [cost_rows] threads
    them.  What [a0] held before the call plays no part.  Only the blocks of
    the activations change. *)
Theorem cost_is_the_mean_of_the_row_errors {F : Type} {FO : FloatOps F}
    (m : Xor) (ti to : Mat) (h : gmap nat (option (list F)))
    (TI TO W1 B1 W2 B2 X1 X2 : nat -> nat -> F) :
  net_shapes m -> rows (a0 m) = 1 ->
  rows ti = rows to -> cols to = cols (a2 m) -> cols ti = cols (a0 m) ->
  well_strided (a0 m) -> well_strided (a1 m) -> well_strided (a2 m) ->
  well_strided ti -> well_strided to ->
  activations_apart m ti to ->
  accessible h (a0 m) -> reads h (a1 m) X1 -> reads h (a2 m) X2 ->
  reads h (w1 m) W1 -> reads h (b1 m) B1 -> reads h (w2 m) W2 -> reads h (b2 m) B2 ->
  reads h ti TI -> reads h to TO ->
  exists h', cost m ti to h
    = Ok (fdiv (cost_rows W1 B1 W2 B2 TI TO (cols (a0 m)) (cols (a1 m)) (cols to)
                  (seq 0 (rows ti)) X1 X2 fzero) (of_size (rows ti)), h') /\
    (forall bk, bk ∉ mat_block <$> [a0 m; a1 m; a2 m] -> h' !! bk = h !! bk).
Proof. apply cost_spec. Qed.

(** [cost_is_the_mean_of_the_row_errors] on [ex_net] and the training set of
    [main]. *)
Lemma cost_is_the_mean_of_the_row_errors_witness :
  exists h', cost ex_net ti to ex_net_heap
    = Ok (fdiv (cost_rows (entry ex_net_heap (w1 ex_net)) (entry ex_net_heap (b1 ex_net))
                  (entry ex_net_heap (w2 ex_net)) (entry ex_net_heap (b2 ex_net))
                  (entry ex_net_heap ti) (entry ex_net_heap to) 2 2 1 [0; 1; 2; 3]
                  (entry ex_net_heap (a1 ex_net)) (entry ex_net_heap (a2 ex_net)) fzero)
               (of_size 4), h').
Proof.
  destruct (cost_is_the_mean_of_the_row_errors ex_net ti to ex_net_heap
              (entry ex_net_heap ti) (entry ex_net_heap to)
              (entry ex_net_heap (w1 ex_net)) (entry ex_net_heap (b1 ex_net))
              (entry ex_net_heap (w2 ex_net)) (entry ex_net_heap (b2 ex_net))
              (entry ex_net_heap (a1 ex_net)) (entry ex_net_heap (a2 ex_net)))
    as (h' & Hrun & _);
    [ split; cbn; repeat split; lia
    | reflexivity | reflexivity | reflexivity | reflexivity
    | solve_strided | solve_strided | solve_strided | solve_strided | solve_strided
    | split; [apply NoDup_ListNoDup; repeat (constructor; [cbn; lia|]); constructor
             | repeat constructor; cbn; intros Hin;
               repeat (apply elem_of_cons in Hin as [Hin|Hin]; [discriminate|]);
               by apply elem_of_nil in Hin]
    | solve_cells.. |].
  exists h'. exact Hrun.
Defined.

(** X20. The loop nests of [finite_diff] that are right.  A nest runs [i] to
    [cols] and [j] to [rows]; over a square parameter matrix, or a column of
    stride [1] ([w1], [b2] and [w2] of the program's network), it visits every
    element once.  For such a [pm] with gradient matrix [pg] of the same
    shape, both row-major, in blocks apart from each other and from the
    activations, on a heap where [cost] is ready to run: the nest returns;
    [pm] holds what it held before; and every gradient slot [pg[i][j]] holds
    [(c1 - c) / eps], where [c1] is what [cost] returned on a heap in which
    [pm[i][j]], and no other parameter, was raised by [eps]. *)
Theorem finite_diff_sets_square_and_column_slots {F : Type} {FO : FloatOps F}
    (m : Xor) (pm pg ti to : Mat) (eps c : F) (h : gmap nat (option (list F)))
    (P : nat -> nat -> F) :
  rows pm = cols pm \/ (cols pm = 1 /\ stride pm = 1 /\ stride pg = 1) ->
  rows pg = rows pm -> cols pg = cols pm ->
  well_strided pm -> well_strided pg ->
  mat_block pm ∉ mat_block <$> [a0 m; a1 m; a2 m; pg] ->
  mat_block pg ∉ mat_block <$> [a0 m; a1 m; a2 m] ->
  cost_ready h m ti to -> reads h pm P -> accessible h pg ->
  exists h', finite_diff_slots m pm pg ti to eps c h = Ok (tt, h') /\
    reads h' pm P /\
    forall i j, i < rows pm -> j < cols pm ->
      exists hp c1 hq,
        (forall i' j', i' < rows pm -> j' < cols pm ->
           mat_cell hp pm i' j'
           = Some (if decide (i' = i /\ j' = j) then fadd (P i j) eps else P i' j')) /\
        (forall bk, bk ∉ mat_block <$> [a0 m; a1 m; a2 m; pg; pm] -> hp !! bk = h !! bk) /\
        cost m ti to hp = Ok (c1, hq) /\
        mat_cell h' pg i j = Some (fdiv (fsub c1 c) eps).
Proof.
  intros Hshape Hr Hc Hwm Hwg Hbm Hbg Hready HP Hg.
  destruct (finite_diff_slots_spec m pm pg ti to eps c h P Hshape Hr Hc Hwm Hwg Hbm Hbg
              Hready HP Hg) as (h' & Hrun & _ & Hframe & Hslots).
  exists h'. split; [done|]. split; [|exact Hslots].
  apply (reads_same_block h h'); [|done]. by apply Hframe.
Qed.

(** [finite_diff_sets_square_and_column_slots] on the column [w2] of
    [ex_net], with [eps = 1e-1f]. *)
Lemma finite_diff_sets_square_and_column_slots_witness :
  exists h', finite_diff_slots ex_net (w2 ex_net) (w2 ex_grad) ti to (1 / 10)%R 0%R
               ex_train_heap = Ok (tt, h') /\
    mat_cell h' (w2 ex_net) 1 0 = Some 8%R /\
    exists c1, mat_cell h' (w2 ex_grad) 1 0 = Some ((c1 - 0) / (1 / 10))%R.
Proof.
  destruct (finite_diff_sets_square_and_column_slots ex_net (w2 ex_net) (w2 ex_grad) ti to
              (1 / 10)%R 0%R ex_train_heap (entry ex_train_heap (w2 ex_net)))
    as (h' & Hrun & Hpm & Hslots);
    [ right; repeat split; reflexivity | reflexivity | reflexivity
    | solve_strided | solve_strided
    | cbn; intros Hin; repeat (apply elem_of_cons in Hin as [Hin|Hin]; [discriminate|]);
      by apply elem_of_nil in Hin
    | cbn; intros Hin; repeat (apply elem_of_cons in Hin as [Hin|Hin]; [discriminate|]);
      by apply elem_of_nil in Hin
    | solve_cost_ready | solve_cells | solve_cells |].
  exists h'. split; [exact Hrun|]. split.
  - rewrite (Hpm 1 0) by (cbn; lia). by vm_compute.
  - destruct (Hslots 1 0) as (hp & c1 & hq & _ & _ & _ & Hslot); [cbn; lia..|].
    exists c1. exact Hslot.
Defined.

(** X21. The loop nests of [xor_learn] that are right.  Over a square
    parameter matrix or a column of stride [1] ([w1], [b2] and [w2] of the
    program's network), with a gradient matrix [pg] of the same shape that
    shares no cell with it: the nest returns, every [pm[i][j]] holds its old
    value minus [rate * pg[i][j]], and no cell outside [pm] changes. *)
Theorem xor_learn_steps_square_and_column_slots {F : Type} {FO : FloatOps F}
    (pm pg : Mat) (rate : F) (h : gmap nat (option (list F))) (P G : nat -> nat -> F) :
  rows pm = cols pm \/ (cols pm = 1 /\ stride pm = 1 /\ stride pg = 1) ->
  rows pg = rows pm -> cols pg = cols pm ->
  well_strided pm -> separate pm pg ->
  reads h pm P -> reads h pg G ->
  exists h', xor_learn_slots pm pg rate h = Ok (tt, h') /\
    reads h' pm (fun i j => fsub (P i j) (fmul rate (G i j))) /\
    reads h' pg G /\
    same_outside pm h h'.
Proof.
  intros Hshape Hr Hc Hw Hsep HP HG.
  destruct (xor_learn_slots_spec pm pg rate h P G Hshape Hr Hc Hw Hsep HP HG)
    as (h' & Hrun & Hpm & Hout).
  exists h'. split; [done|]. split; [done|]. split; [|done].
  by eapply reads_outside.
Qed.

(** [xor_learn_steps_square_and_column_slots] on the square [w1] of [ex_net],
    with [rate = 1e-1f] and a gradient of ones. *)
Lemma xor_learn_steps_square_and_column_slots_witness :
  exists h', xor_learn_slots (w1 ex_net) (w1 ex_grad) (1 / 10)%R ex_train_heap = Ok (tt, h') /\
    mat_cell h' (w1 ex_net) 1 0 = Some (3 - 1 / 10 * 1)%R.
Proof.
  destruct (xor_learn_steps_square_and_column_slots (w1 ex_net) (w1 ex_grad) (1 / 10)%R
              ex_train_heap (entry ex_train_heap (w1 ex_net)) (entry ex_train_heap (w1 ex_grad)))
    as (h' & Hrun & Hpm & _);
    [ left; reflexivity | reflexivity | reflexivity | solve_strided | solve_separate
    | solve_cells | solve_cells |].
  exists h'. split; [exact Hrun|].
  rewrite (Hpm 1 0) by (cbn; lia). by vm_compute.
Defined.

(** X22. [xor_learn] writes the parameters of its first argument only:
    whenever it returns, every block other than those of [w1], [b1], [w2],
    [b2] of [m] holds what it held before; the gradient network and the
    activations are never written. *)
Theorem xor_learn_writes_only_parameters {F : Type} {FO : FloatOps F}
    (m g : Xor) (rate : F) (h h' : gmap nat (option (list F))) :
  xor_learn m g rate h = Ok (tt, h') ->
  forall bk, bk ∉ mat_block <$> [w1 m; b1 m; w2 m; b2 m] -> h' !! bk = h !! bk.
Proof.
  intros Hrun.
  apply (writes_outside_xor_learn
           (fun bk => bk ∉ mat_block <$> [w1 m; b1 m; w2 m; b2 m]) m g rate) in Hrun; [done|].
  repeat constructor; apply mat_avoids_other_blocks; repeat constructor.
Qed.

(** [xor_learn_writes_only_parameters] on [ex_net] and [ex_grad], each with a
    spare cell after [b1] so that the call returns: the gradient [w1] of
    [ex_grad] (block [9]) is untouched. *)
Lemma xor_learn_writes_only_parameters_witness :
  exists h',
    xor_learn ex_net ex_grad (1 / 10)%R
      (<[3 := Some [5%R; 6%R; 0%R]]> (<[10 := Some [1%R; 1%R; 1%R]]> ex_train_heap))
    = Ok (tt, h') /\
    h' !! 9 = ex_train_heap !! 9.
Proof.
  destruct (xor_learn ex_net ex_grad (1 / 10)%R
              (<[3 := Some [5%R; 6%R; 0%R]]> (<[10 := Some [1%R; 1%R; 1%R]]> ex_train_heap)))
    as [[[] h']|e] eqn:Hrun; [|exfalso; vm_compute in Hrun; discriminate].
  exists h'. split; [reflexivity|].
  rewrite (xor_learn_writes_only_parameters ex_net ex_grad (1 / 10)%R _ h' Hrun 9).
  - by vm_compute.
  - cbn. intros Hin.
    repeat (apply elem_of_cons in Hin as [Hin|Hin]; [discriminate|]).
    by apply elem_of_nil in Hin.
Defined.

(** X23. [mat_dot] writes [dst] only.  Whenever [mat_dot(dst, a, b)] returns,
    every block other than the block of [dst] holds what it held before.
    Under the shape preconditions, with [dst] row-major and sharing no cell
    with [a] or [b], it returns with [a] and [b] unchanged and with every
    cell that is not an element of [dst] unchanged, the cells of [dst]'s own
    block between its rows included. *)
Theorem mat_dot_writes_dst_only {F : Type} {FO : FloatOps F}
    (dst a b : Mat) (h : gmap nat (option (list F))) :
  (forall h', mat_dot dst a b h = Ok (tt, h') ->
     forall bk, bk <> mat_block dst -> h' !! bk = h !! bk) /\
  (forall D A B : nat -> nat -> F,
     cols a = rows b -> rows dst = rows a -> cols dst = cols b ->
     well_strided dst -> separate dst a -> separate dst b ->
     reads h dst D -> reads h a A -> reads h b B ->
     exists h', mat_dot dst a b h = Ok (tt, h') /\
       reads h' a A /\ reads h' b B /\ same_outside dst h h').
Proof.
  split.
  - intros h' Hrun bk Hbk.
    apply (writes_outside_mat_dot (fun bk => bk ∉ mat_block <$> [dst]) dst a b
             (mat_avoids_other_blocks [dst] dst ltac:(repeat constructor)) h tt h' Hrun).
    cbn. apply not_elem_of_cons. split; [done|apply not_elem_of_nil].
  - intros D A B Hn Hr Hc Hs Hsa Hsb HD HA HB.
    destruct (mat_dot_spec dst a b h D A B Hn Hr Hc Hs Hsa Hsb HD HA HB)
      as (h' & Hrun & _ & Hout).
    exists h'. split; [done|]. split; [by eapply reads_outside|].
    split; [by eapply reads_outside|done].
Qed.

(** [mat_dot_writes_dst_only] on [ex_dst += ex_a * ex_b]: [ex_b] keeps its
    [6]. *)
Lemma mat_dot_writes_dst_only_witness :
  exists h', mat_dot ex_dst ex_a ex_b ex_heap = Ok (tt, h') /\
    mat_cell h' ex_b 1 0 = Some 6%R /\ h' !! 1 = ex_heap !! 1.
Proof.
  destruct (mat_dot_writes_dst_only ex_dst ex_a ex_b ex_heap) as [Hblocks Hcells].
  destruct (Hcells (entry ex_heap ex_dst) (entry ex_heap ex_a) (entry ex_heap ex_b))
    as (h' & Hrun & _ & Hb & _);
    [reflexivity | reflexivity | reflexivity | solve_strided
    | solve_separate | solve_separate
    | solve_cells | solve_cells | solve_cells |].
  exists h'. split; [exact Hrun|]. split.
  - rewrite (Hb 1 0) by (cbn; lia). by vm_compute.
  - apply (Hblocks h' Hrun). cbn. lia.
Defined.

(** X24. [mat_free] is safe to repeat.  On a matrix whose buffer pointer is
    null it frees nothing and returns [{0, 0, 0, NULL}] with the heap as it
    was; and whenever [mat_free] returns, what it returns is
    [{0, 0, 0, NULL}], on which a second [mat_free] returns the same matrix
    and the same heap. *)
Theorem mat_free_twice_is_safe {F : Type} {FO : FloatOps F}
    (m : Mat) (h : gmap nat (option (list F))) :
  (es m = None -> mat_free m h = Ok (mkMat 0 0 0 None, h)) /\
  (forall m' h', mat_free m h = Ok (m', h') ->
     m' = mkMat 0 0 0 None /\ mat_free m' h' = Ok (m', h')).
Proof.
  split; [apply mat_free_null|].
  intros m' h' Hrun. apply mat_free_result in Hrun as ->. done.
Qed.

(** [mat_free_twice_is_safe] on [ex_a]. *)
Lemma mat_free_twice_is_safe_witness :
  exists m' h', mat_free ex_a ex_heap = Ok (m', h') /\
    h' !! 1 = Some None /\ mat_free m' h' = Ok (m', h').
Proof.
  destruct (mat_free ex_a ex_heap) as [[m' h']|e] eqn:Hrun;
    [|exfalso; vm_compute in Hrun; discriminate].
  exists m', h'. split; [reflexivity|]. split.
  - vm_compute in Hrun. injection Hrun as _ <-. by vm_compute.
  - apply (proj2 (mat_free_twice_is_safe ex_a ex_heap) m' h' Hrun).
Defined.
